(** * Resource tracking of an avrae character (cogs5e/models/character.py)

    A shallow embedding of the resource state machine of [Character]:
    hit points and temporary hit points, death saves, spell slots, custom
    counters whose bounds are expressions, and the rest handlers that reset
    them.  Methods that mutate [self] are state transformers; a raised
    exception is a result that keeps the state reached so far, as in Python. *)

From Stdlib Require Import ZArith String Ascii List Lia Bool.
From stdpp Require Import base option gmap strings list pretty.

Local Open Scope string_scope.
Local Open Scope Z_scope.
Local Open Scope list_scope.

(** ** Exceptions

    The module imports ConsumableNotFound, CounterOutOfBounds,
    InvalidArgument, InvalidSpellLevel, NoCharacter and OutdatedSheet from
    cogs5e.models.errors.  The name [NoReset] is used by [reset_consumable]
    and [_reset_custom] but is not bound in the module, and neither is the
    name [counter] used by [set_consumable]: evaluating either raises
    Python's NameError.  KeyError is what indexing a dict at a missing key
    raises. *)
Inductive exn : Type :=
| ConsumableNotFound
| CounterOutOfBounds
| InvalidArgument (msg : string)
| InvalidSpellLevel
| OutdatedSheet
| NameError (name : string)
| KeyError (key : string).

(** ** Data model *)

(** Values held by the csettings dict; only their truthiness is observed. *)
Inductive pyval : Type :=
| PyNone
| PyBool (b : bool)
| PyInt (n : Z)
| PyStr (s : string).

Definition truthy (v : pyval) : bool :=
  match v with
  | PyNone => false
  | PyBool b => b
  | PyInt n => negb (n =? 0)
  | PyStr s => negb (String.eqb s "")
  end.

(** Truthiness of an optional string ([None] and [''] are falsy). *)
Definition str_truthy (o : option string) : bool :=
  match o with
  | None => false
  | Some s => negb (String.eqb s "")
  end.

(** [str(x)] for a value that is a string or None. *)
Definition py_str (o : option string) : string := default "None" o.

(** [str(n)] for an int. *)
Definition str_of_int (n : Z) : string := pretty n.

(** The class DeathSaves. *)
Module DeathSaves.

Record t : Type := {
  successes : Z;
  fails : Z
}.

Definition succeed (num : Z) (d : t) : t :=
  {| successes := Z.min 3 (successes d + num); fails := fails d |}.

Definition fail (num : Z) (d : t) : t :=
  {| successes := successes d; fails := Z.min 3 (fails d + num) |}.

Definition is_stable (d : t) : bool := successes d =? 3.

Definition is_dead (d : t) : bool := fails d =? 3.

Definition reset (d : t) : t := {| successes := 0; fails := 0 |}.

End DeathSaves.

(** A custom counter dict.  A key that is absent is [None]; [create_consumable]
    never stores a None under 'max', 'min' or 'reset'. *)
Record CustomCounter : Type := {
  cc_value : Z;
  cc_max : option string;
  cc_min : option string;
  cc_reset : option string;
  cc_type : option string;
  cc_live : option string
}.

(** One level of the spell slot ledger, character['consumables']['spellslots'][str(level)]. *)
Record Slot : Type := {
  slot_value : Z;
  slot_min : Z
}.

(** character['spellbook']: the per-level maxima, keyed by [str(level)], and
    the spell attack bonus. *)
Record Spellbook : Type := {
  sb_spellslots : gmap string Z;
  sb_attackBonus : Z
}.

(** Calls that leave the character: the live sheet integration's syncs.
    [call_reset_spellslots] is a ghost marker logged on entry of
    [reset_spellslots], so that the number of slot resets can be counted. *)
Inductive Event : Type :=
| sync_hp
| sync_slots
| call_reset_spellslots.

#[global] Instance Event_eq_dec : EqDecision Event.
Proof. solve_decision. Defined.

(** The state of a [Character] that the resource methods read or write.
    [consumables_custom] is character['consumables']['custom'], a dict in
    insertion order, absent when the character has no such dict;
    [spellslots] is character['consumables']['spellslots'], absent until
    initialised; [spellbook] is absent when the sheet is outdated. *)
Record Character : Type := {
  hp : Z;
  max_hp : Z;
  temp_hp : Z;
  death_saves : DeathSaves.t;
  options : gmap string pyval;
  live_integration : bool;
  prof_bonus : Z;
  cvars : gmap string string;
  stat_cvars : option (gmap string Z);
  spellbook : option Spellbook;
  consumables_custom : option (list (string * CustomCounter));
  spellslots : option (gmap string Slot);
  events : list Event
}.

(** [self.character.get('consumables', {}).get('custom', {})] *)
Definition custom (c : Character) : list (string * CustomCounter) :=
  match consumables_custom c with
  | Some d => d
  | None => []
  end.

Arguments custom !c /.

Definition with_hp (v : Z) (c : Character) : Character :=
  {| hp := v; max_hp := max_hp c; temp_hp := temp_hp c; death_saves := death_saves c;
     options := options c; live_integration := live_integration c;
     prof_bonus := prof_bonus c; cvars := cvars c; stat_cvars := stat_cvars c;
     spellbook := spellbook c; consumables_custom := consumables_custom c;
     spellslots := spellslots c;
     events := events c |}.

Definition with_temp_hp (v : Z) (c : Character) : Character :=
  {| hp := hp c; max_hp := max_hp c; temp_hp := v; death_saves := death_saves c;
     options := options c; live_integration := live_integration c;
     prof_bonus := prof_bonus c; cvars := cvars c; stat_cvars := stat_cvars c;
     spellbook := spellbook c; consumables_custom := consumables_custom c;
     spellslots := spellslots c;
     events := events c |}.

Definition with_death_saves (d : DeathSaves.t) (c : Character) : Character :=
  {| hp := hp c; max_hp := max_hp c; temp_hp := temp_hp c; death_saves := d;
     options := options c; live_integration := live_integration c;
     prof_bonus := prof_bonus c; cvars := cvars c; stat_cvars := stat_cvars c;
     spellbook := spellbook c; consumables_custom := consumables_custom c;
     spellslots := spellslots c;
     events := events c |}.

Definition with_stat_cvars (s : option (gmap string Z)) (c : Character) : Character :=
  {| hp := hp c; max_hp := max_hp c; temp_hp := temp_hp c; death_saves := death_saves c;
     options := options c; live_integration := live_integration c;
     prof_bonus := prof_bonus c; cvars := cvars c; stat_cvars := s;
     spellbook := spellbook c; consumables_custom := consumables_custom c;
     spellslots := spellslots c;
     events := events c |}.

Definition with_custom (d : list (string * CustomCounter)) (c : Character) : Character :=
  {| hp := hp c; max_hp := max_hp c; temp_hp := temp_hp c; death_saves := death_saves c;
     options := options c; live_integration := live_integration c;
     prof_bonus := prof_bonus c; cvars := cvars c; stat_cvars := stat_cvars c;
     spellbook := spellbook c; consumables_custom := Some d; spellslots := spellslots c;
     events := events c |}.

Definition with_spellslots (s : option (gmap string Slot)) (c : Character) : Character :=
  {| hp := hp c; max_hp := max_hp c; temp_hp := temp_hp c; death_saves := death_saves c;
     options := options c; live_integration := live_integration c;
     prof_bonus := prof_bonus c; cvars := cvars c; stat_cvars := stat_cvars c;
     spellbook := spellbook c; consumables_custom := consumables_custom c;
     spellslots := s;
     events := events c |}.

Definition log_event (e : Event) (c : Character) : Character :=
  {| hp := hp c; max_hp := max_hp c; temp_hp := temp_hp c; death_saves := death_saves c;
     options := options c; live_integration := live_integration c;
     prof_bonus := prof_bonus c; cvars := cvars c; stat_cvars := stat_cvars c;
     spellbook := spellbook c; consumables_custom := consumables_custom c;
     spellslots := spellslots c;
     events := events c ++ [e] |}.

(** ** Dicts in insertion order *)

Fixpoint dict_get {V : Type} (k : string) (d : list (string * V)) : option V :=
  match d with
  | [] => None
  | (k', v) :: d' => if String.eqb k' k then Some v else dict_get k d'
  end.

(** [d[k] = v]: an existing key keeps its position, a new key goes last. *)
Fixpoint dict_set {V : Type} (k : string) (v : V) (d : list (string * V)) : list (string * V) :=
  match d with
  | [] => [(k, v)]
  | (k', v') :: d' => if String.eqb k' k then (k', v) :: d' else (k', v') :: dict_set k v d'
  end.

(** ** The state and exception monad of the methods *)

Definition M (A : Type) : Type := Character -> (exn + A) * Character.

Definition ret {A : Type} (a : A) : M A := fun c => (inr a, c).

Definition bind {A B : Type} (m : M A) (k : A -> M B) : M B :=
  fun c =>
    match m c with
    | (inr a, c') => k a c'
    | (inl e, c') => (inl e, c')
    end.

Definition raise {A : Type} (e : exn) : M A := fun c => (inl e, c).

Definition gets {A : Type} (f : Character -> A) : M A := fun c => (inr (f c), c).

Definition modify (f : Character -> Character) : M unit := fun c => (inr tt, f c).

Notation "x <- m ;; k" := (bind m (fun x => k))
  (at level 100, m at next level, right associativity).
Notation "m >> k" := (bind m (fun _ => k))
  (at level 100, right associativity).

(** ** String helpers of [evaluate_cvar] and [create_consumable] *)

Definition char_in (a : ascii) (cs : string) : bool :=
  existsb (Ascii.eqb a) (list_ascii_of_string cs).

(** [any(c in name for c in cs)] *)
Definition any_char_in (name cs : string) : bool :=
  existsb (fun c => char_in c name) (list_ascii_of_string cs).

Fixpoint drop_while (p : ascii -> bool) (l : list ascii) : list ascii :=
  match l with
  | [] => []
  | a :: l' => if p a then drop_while p l' else l
  end.

Definition strip_by (p : ascii -> bool) (s : string) : string :=
  string_of_list_ascii
    (rev (drop_while p (rev (drop_while p (list_ascii_of_string s))))).

(** [s.strip(cs)] *)
Definition strip_chars (cs : string) (s : string) : string :=
  strip_by (fun a => char_in a cs) s.

(** A character of a text is a code point below 256.  Of these,
    [str.strip()] removes the ones that [str.isspace] accepts: tab, line
    feed, vertical tab, form feed, carriage return, the separators 28 to 31,
    space, next line (133) and no-break space (160). *)
Definition is_py_space (a : ascii) : bool :=
  let n := nat_of_ascii a in
  ((9 <=? n)%nat && (n <=? 13)%nat) || ((28 <=? n)%nat && (n <=? 32)%nat)
  || (n =? 133)%nat || (n =? 160)%nat.

(** [s.strip()] *)
Definition py_strip (s : string) : string := strip_by is_py_space s.

(** The operator characters of ops = r"([-+*/().<>=])". *)
Definition is_op (a : ascii) : bool := char_in a "-+*/().<>=".

(** [re.split(ops, s)]: the pieces between operators, with each operator as a
    piece of its own (the pattern is one capturing group). *)
Fixpoint re_split_from (piece : string) (s : string) : list string :=
  match s with
  | EmptyString => [piece]
  | String a s' =>
      if is_op a then piece :: String a EmptyString :: re_split_from "" s'
      else re_split_from (piece +:+ String a EmptyString) s'
  end.

Definition re_split_ops (s : string) : list string := re_split_from "" s.

(** One pass of [evaluate_cvar]: every piece is stripped, replaced by its
    entry in the table when it has one, and followed by a space. *)
Definition substitute (tbl : string -> option string) (s : string) : string :=
  fold_left
    (fun out substr => let temp := py_strip substr in out +:+ default temp (tbl temp) +:+ " ")
    (re_split_ops s) "".

Section Engine.

(** The dice and arithmetic evaluator cogs5e.funcs.dice.roll, composed with
    [.total]: an external collaborator, taken as a function of the text. *)
Variable roll : string -> Z.

(** *** Scripting *)

Definition get_prof_bonus : M Z := gets prof_bonus.

Definition get_spell_ab : M Z :=
  fun c =>
    match spellbook c with
    | None => (inl OutdatedSheet, c)
    | Some sb => (inr (sb_attackBonus sb), c)
    end.

(** The table of stat variables after [stat_vars['spell'] = ...]. *)
Definition stat_table (c : Character) (spell : Z) : gmap string Z :=
  <["spell" := spell]> (default ∅ (stat_cvars c)).

(** The text handed to [roll]: cvars first, then stat variables. *)
Definition resolved_text (c : Character) (spell : Z) (varstr : string) : string :=
  let varstr := strip_chars "<>{}" varstr in
  let tempout := substitute (fun t => cvars c !! t) varstr in
  substitute (fun t => str_of_int <$> (stat_table c spell !! t)) tempout.

(** [stat_vars] is character['stat_cvars'] itself when the key is present (the
    assignment then writes into the character) and a fresh dict otherwise. *)
Definition evaluate_cvar (varstr : string) : M Z :=
  ab <- get_spell_ab ;;
  pb <- get_prof_bonus ;;
  let spell := ab - pb in
  c <- gets id ;;
  modify (fun c =>
            match stat_cvars c with
            | Some _ => with_stat_cvars (Some (stat_table c spell)) c
            | None => c
            end) >>
  ret (roll (resolved_text c spell varstr)).

(** *** Settings *)

(** [self.options.get(setting, default)] *)
Definition get_setting (setting : string) (dflt : pyval) : M pyval :=
  gets (fun c => default dflt (options c !! setting)).

(** *** Death saves *)

Definition reset_death_saves : M unit :=
  modify (fun c => with_death_saves (DeathSaves.reset (death_saves c)) c).

(** *** Spell slots *)

(** [for x in l: body(x)] *)
Fixpoint for_each {A : Type} (l : list A) (body : A -> M unit) : M unit :=
  match l with
  | [] => ret tt
  | x :: l' => body x >> for_each l' body
  end.

(** [range(1, 10)] *)
Definition levels_1_to_9 : list Z := [1; 2; 3; 4; 5; 6; 7; 8; 9].

Definition get_max_spellslots (level : Z) : M Z :=
  fun c =>
    match spellbook c with
    | None => (inl OutdatedSheet, c)
    | Some sb => (inr (default 0 (sb_spellslots sb !! str_of_int level)), c)
    end.

(** [self.character['consumables']['spellslots']] *)
Definition get_spellslots : M (gmap string Slot) :=
  fun c =>
    match spellslots c with
    | None => (inl (KeyError "spellslots"), c)
    | Some ss => (inr ss, c)
    end.

(** [ss[str(level)]] *)
Definition slot_at (ss : gmap string Slot) (level : Z) : M Slot :=
  match ss !! str_of_int level with
  | None => raise (KeyError (str_of_int level))
  | Some slot => ret slot
  end.

Definition get_remaining_slots (level : Z) : M Z :=
  if negb ((0 <=? level) && (level <? 10)) then raise InvalidSpellLevel
  else if level =? 0 then ret 1
  else
    ss <- get_spellslots ;;
    slot <- slot_at ss level ;;
    ret (slot_value slot).

(** Modelled from the spec: [_initialize_spellslots] is called by
    [set_remaining_slots] but is not defined in character.py.  The spec has
    the ledger created lazily, as a zeroed structure, when it does not exist
    yet; an existing ledger is left as it is. *)
Definition _initialize_spellslots : M unit :=
  modify (fun c =>
            match spellslots c with
            | Some _ => c
            | None =>
                with_spellslots
                  (Some (list_to_map
                           (map (fun l => (str_of_int l, {| slot_value := 0; slot_min := 0 |}))
                                levels_1_to_9))) c
            end).

(** [assert 0 <= value <= self.get_max_spellslots(level)] is a chained
    comparison: the maximum is only looked up when [0 <= value]. *)
Definition set_remaining_slots (level value : Z) (sync : bool) : M unit :=
  if negb ((0 <? level) && (level <? 10)) then raise InvalidSpellLevel
  else if negb (0 <=? value) then raise CounterOutOfBounds
  else
    mx <- get_max_spellslots level ;;
    if negb (value <=? mx) then raise CounterOutOfBounds
    else
      _initialize_spellslots >>
      (ss <- get_spellslots ;;
       slot <- slot_at ss level ;;
       modify (with_spellslots
                 (Some (<[str_of_int level := {| slot_value := value; slot_min := slot_min slot |}]> ss))) >>
       (live <- gets live_integration ;;
        if live && sync then modify (log_event sync_slots) else ret tt)).

Definition use_slot (level : Z) : M unit :=
  if negb ((0 <=? level) && (level <? 10)) then raise InvalidSpellLevel
  else if level =? 0 then ret tt
  else
    ss <- get_spellslots ;;
    slot <- slot_at ss level ;;
    let val := slot_value slot - 1 in
    if val <? slot_min slot then raise CounterOutOfBounds
    else set_remaining_slots level val true.

Definition reset_spellslots : M unit :=
  modify (log_event call_reset_spellslots) >>
  for_each levels_1_to_9
    (fun level => mx <- get_max_spellslots level ;; set_remaining_slots level mx false) >>
  (live <- gets live_integration ;;
   if live then modify (log_event sync_slots) else ret tt).

(** *** Custom counters *)

(** The keyword arguments of [create_consumable]. *)
Record Kwargs : Type := {
  maxValue : option string;
  minValue : option string;
  reset_kw : option string;
  displayType : option string;
  live_kw : option string
}.

(** [self.character['consumables']['custom']]: a KeyError when the
    character has no such dict.  The state has one absent case for the two
    keys, so the key reported is always 'custom'. *)
Definition custom_dict : M (list (string * CustomCounter)) :=
  fun c =>
    match consumables_custom c with
    | None => (inl (KeyError "custom"), c)
    | Some d => (inr d, c)
    end.

(** [_reset in ('short', 'long', 'none') or _reset is None] *)
Definition reset_token_ok (_reset : option string) : bool :=
  match _reset with
  | None => true
  | Some r => String.eqb r "short" || String.eqb r "long" || String.eqb r "none"
  end.

(** The last statement before [return self] indexes
    character['consumables']['custom'] to store the counter. *)
Definition create_consumable (name : string) (kw : Kwargs) : M unit :=
  let _max := maxValue kw in
  let _min := minValue kw in
  let _reset := reset_kw kw in
  let _type := displayType kw in
  let _live_id := live_kw kw in
  if negb (reset_token_ok _reset) then raise (InvalidArgument "Invalid reset.")
  else if any_char_in name ".$" then raise (InvalidArgument "Invalid character in CC name.")
  else
    match _max, _min with
    | Some mx, Some mn =>
        maxV <- evaluate_cvar mx ;;
        minV <- evaluate_cvar mn ;;
        if negb (minV <=? maxV) then raise (InvalidArgument "Max value is less than min value.")
        else if maxV =? 0 then raise (InvalidArgument "Max value cannot be 0.")
        else ret tt
    | _, _ => ret tt
    end >>
    if str_truthy _reset && negb (bool_decide (is_Some _max))
    then raise (InvalidArgument "Reset passed but no maximum passed.")
    else if bool_decide (_type = Some "bubble")
              && negb (bool_decide (is_Some _max) && bool_decide (is_Some _min))
    then raise (InvalidArgument "Bubble display requires a max and min value.")
    else
      v <- evaluate_cvar (py_str _max) ;;
      let newCounter :=
        {| cc_value := v;
           cc_max := _max;
           cc_min := _min;
           cc_reset := if str_truthy _reset && bool_decide (is_Some _max) then _reset else None;
           cc_type := _type;
           cc_live := _live_id |} in
      custom_counters <- custom_dict ;;
      modify (with_custom (dict_set name newCounter custom_counters)).

Definition with_value (v : Z) (cnt : CustomCounter) : CustomCounter :=
  {| cc_value := v; cc_max := cc_max cnt; cc_min := cc_min cnt; cc_reset := cc_reset cnt;
     cc_type := cc_type cnt; cc_live := cc_live cnt |}.

(** [str(-(2 ** 32))] and [str(2 ** 32 - 1)], the bounds of a counter without
    'min' or 'max'. *)
Definition default_min : string := "-4294967296".
Definition default_max : string := "4294967295".

(** The assertion indexes character['consumables']['custom'] inside a try
    that only catches AssertionError.  The last statement before
    [return self] passes the unbound name [counter] to [sync_consumable];
    evaluating the argument raises NameError before the call is made. *)
Definition set_consumable (name : string) (newValue : Z) (strict : bool) : M unit :=
  custom_counters <- custom_dict ;;
  match dict_get name custom_counters with
  | None => raise ConsumableNotFound
  | Some cnt =>
      _min <- evaluate_cvar (default default_min (cc_min cnt)) ;;
      _max <- evaluate_cvar (default default_max (cc_max cnt)) ;;
      newValue <- (if strict
                   then if (_min <=? newValue) && (newValue <=? _max) then ret newValue
                        else raise CounterOutOfBounds
                   else ret (Z.min (Z.max _min newValue) _max)) ;;
      modify (fun c => with_custom (dict_set name (with_value newValue cnt) (custom c)) c) >>
      (live <- gets live_integration ;;
       if str_truthy (cc_live cnt) && live then raise (NameError "counter") else ret tt)
  end.

Definition get_consumable (name : string) : M CustomCounter :=
  found <- gets (fun c => dict_get name (custom c)) ;;
  match found with
  | None => raise ConsumableNotFound
  | Some counter => ret counter
  end.

Definition get_consumable_value (name : string) : M Z :=
  counter <- get_consumable name ;; ret (cc_value counter).

(** [raise NoReset()] evaluates the unbound name NoReset. *)
Definition reset_consumable (name : string) : M unit :=
  counter <- get_consumable name ;;
  if bool_decide (cc_reset counter = Some "none") then raise (NameError "NoReset")
  else
    match cc_max counter with
    | None => raise (NameError "NoReset")
    | Some mx =>
        v <- evaluate_cvar mx ;;
        set_consumable name v false
    end.

(** The body of the loop of [_reset_custom] over the items of the dict.
    [except NoReset] is only evaluated when the try body raises; the name is
    unbound, so the NameError of that evaluation replaces the exception
    being handled, whatever it was. *)
Fixpoint reset_custom_items (scope : option string) (items : list (string * CustomCounter))
    (reset : list string) : M (list string) :=
  match items with
  | [] => ret reset
  | (name, value) :: items' =>
      if bool_decide (cc_reset value = scope) then
        fun c =>
          match reset_consumable name c with
          | (inl _, c') => (inl (NameError "NoReset"), c')
          | (inr _, c') => reset_custom_items scope items' (reset ++ [name]) c'
          end
      else reset_custom_items scope items' reset
  end.

Definition _reset_custom (scope : option string) : M (list string) :=
  items <- gets custom ;;
  reset_custom_items scope items [].

(** *** Resting *)

Definition get_current_hp : M Z := gets hp.

Definition on_hp : M (list string) :=
  reset <- _reset_custom (Some "hp") ;;
  cur <- get_current_hp ;;
  if 0 <? cur then reset_death_saves >> ret (reset ++ ["Death Saves"])
  else ret reset.

(** *** Hit points *)

Definition get_max_hp : M Z := gets max_hp.

Definition set_hp (newValue : Z) : M unit :=
  modify (with_hp newValue) >>
  (_ <- on_hp ;;
   live <- gets live_integration ;;
   if live then modify (log_event sync_hp) else ret tt).

Definition set_temp_hp (temp_hp' : Z) : M unit :=
  modify (with_temp_hp (Z.max 0 temp_hp')).

Definition modify_hp (value : Z) (ignore_temp : bool) : M unit :=
  value <- (if (value <? 0) && negb ignore_temp
            then
              thp <- gets temp_hp ;;
              set_temp_hp (thp + value) >>
              ret (value + Z.min thp (- value))
            else ret value) ;;
  modify (fun c => with_hp (hp c + value) c) >>
  (live <- gets live_integration ;;
   if live then modify (log_event sync_hp) else ret tt).

Definition reset_hp : M unit :=
  set_temp_hp 0 >>
  (mx <- get_max_hp ;; set_hp mx).

(** *** Resting, continued *)

Definition short_rest : M (list string) :=
  reset <- on_hp ;;
  names <- _reset_custom (Some "short") ;;
  let reset := reset ++ names in
  srslots <- get_setting "srslots" (PyBool false) ;;
  if truthy srslots then reset_spellslots >> ret (reset ++ ["Spell Slots"])
  else ret reset.

Definition long_rest : M (list string) :=
  reset <- on_hp ;;
  labels <- short_rest ;;
  let reset := reset ++ labels in
  names <- _reset_custom (Some "long") ;;
  let reset := reset ++ names in
  reset_hp >>
  (let reset := reset ++ ["HP"] in
   srslots <- get_setting "srslots" (PyBool false) ;;
   if negb (truthy srslots) then reset_spellslots >> ret (reset ++ ["Spell Slots"])
   else ret reset).

Definition reset_all_consumables : M (list string) :=
  l1 <- on_hp ;;
  l2 <- short_rest ;;
  l3 <- long_rest ;;
  l4 <- _reset_custom None ;;
  ret (l1 ++ l2 ++ l3 ++ l4).

(** *** Resolved values *)

(** The value an expression resolves to on a character, when it has a
    spellbook, and the character after the resolution wrote the stat
    variable [spell]. *)
Definition resolve (c : Character) (varstr : string) : option Z :=
  match spellbook c with
  | Some sb => Some (roll (resolved_text c (sb_attackBonus sb - prof_bonus c) varstr))
  | None => None
  end.

Definition with_spell_var (c : Character) : Character :=
  match spellbook c, stat_cvars c with
  | Some sb, Some _ =>
      with_stat_cvars (Some (stat_table c (sb_attackBonus sb - prof_bonus c))) c
  | _, _ => c
  end.

End Engine.

(** ** Relations between the state before and the state after a run *)

(** [m] keeps [R] when every run of [m], returning or raising, ends in a
    state related to the one it started from. *)
Definition keeps (R : Character -> Character -> Prop) {A : Type} (m : M A) : Prop :=
  forall c, R c (snd (m c)).

(** Only the values of the counters and the stat variables may differ. *)
Record same_sheet (c c' : Character) : Prop := {
  ss_hp : hp c' = hp c;
  ss_max_hp : max_hp c' = max_hp c;
  ss_temp_hp : temp_hp c' = temp_hp c;
  ss_death_saves : death_saves c' = death_saves c;
  ss_options : options c' = options c;
  ss_live : live_integration c' = live_integration c;
  ss_prof : prof_bonus c' = prof_bonus c;
  ss_cvars : cvars c' = cvars c;
  ss_spellbook : spellbook c' = spellbook c;
  ss_spellslots : spellslots c' = spellslots c;
  ss_events : events c' = events c;
  ss_names : map fst (custom c') = map fst (custom c)
}.

(** The items of the dict of counters that a sweep with [scope] selects. *)
Definition in_scope (scope : option string) (item : string * CustomCounter) : bool :=
  bool_decide (cc_reset (snd item) = scope).

(** How many times [reset_spellslots] was entered so far. *)
Definition slot_resets (c : Character) : nat :=
  count_occ Event_eq_dec (events c) call_reset_spellslots.

(** The settings, the names of the counters and the number of slot resets
    are the same. *)
Definition rest_inv (c c' : Character) : Prop :=
  options c' = options c /\
  map fst (custom c') = map fst (custom c) /\
  slot_resets c' = slot_resets c.


(** [get_setting('srslots', False)], as a truth value. *)
Definition srslots_enabled (c : Character) : bool :=
  truthy (default (PyBool false) (options c !! "srslots")).

(** [m] called [n] times in a row, stopping at the first call that raises. *)
Fixpoint repeat_m (n : nat) (m : M unit) : M unit :=
  match n with
  | O => ret tt
  | S n' => m >> repeat_m n' m
  end.

(** The pool of [level] holds [v] slots of at most [mx], with the stored
    minimum [mn]. *)
Definition pool_at (level mx mn v : Z) (c : Character) : Prop :=
  exists sb ss slot,
    spellbook c = Some sb /\
    default 0 (sb_spellslots sb !! str_of_int level) = mx /\
    spellslots c = Some ss /\
    ss !! str_of_int level = Some slot /\
    slot_value slot = v /\
    slot_min slot = mn.

(** What a sweep needs of the items still to visit: the character has a
    spellbook, and every item of the scope is looked up as a counter that
    has a maximum, is not scoped 'none' and does not reach the live sync. *)
Definition sweepable (scope : option string) (items : list (string * CustomCounter))
    (c : Character) : Prop :=
  is_Some (spellbook c) /\
  forall name cnt, In (name, cnt) items -> cc_reset cnt = scope ->
    exists cnt0,
      dict_get name (custom c) = Some cnt0 /\
      cc_reset cnt0 <> Some "none" /\
      is_Some (cc_max cnt0) /\
      str_truthy (cc_live cnt0) && live_integration c = false.

(** ** A concrete evaluator and sample characters *)

Fixpoint digits_value (acc : Z) (l : list ascii) : option Z :=
  match l with
  | [] => Some acc
  | a :: l' =>
      let n := nat_of_ascii a in
      if (48 <=? n)%nat && (n <=? 57)%nat
      then digits_value (10 * acc + Z.of_nat (n - 48)) l'
      else None
  end.

Definition literal_value (l : list ascii) : Z :=
  match l with
  | [] => 0
  | _ => default 0 (digits_value 0 l)
  end.

(** Modelled from the spec: cogs5e.funcs.dice.roll is not part of
    character.py.  The spec has it map the substituted text to a numeric
    total; this stand-in does so for a decimal integer literal, with an
    optional minus sign and surrounding spaces, and yields 0 for any other
    text (the docstring of [evaluate_cvar]: 0 if evaluation failed). *)
Definition roll_literal (s : string) : Z :=
  match list_ascii_of_string (py_strip s) with
  | "-"%char :: l => - literal_value (drop_while is_py_space l)
  | l => literal_value l
  end.

Definition no_kwargs : Kwargs :=
  {| maxValue := None; minValue := None; reset_kw := None; displayType := None;
     live_kw := None |}.

(** The ledger in which every level holds as many slots as the table of
    maxima gives it, with the minimum 0. *)
Definition full_ledger (maxima : gmap string Z) : gmap string Slot :=
  list_to_map
    (map (fun level => (str_of_int level,
                        {| slot_value := default 0 (maxima !! str_of_int level);
                           slot_min := 0 |}))
         levels_1_to_9).

(** A caster with two first level slots, both unspent, 10 of 10 hit points,
    one death save passed and two failed, no counters, no settings and no
    live sheet. *)
Definition sample : Character :=
  {| hp := 10; max_hp := 10; temp_hp := 0;
     death_saves := {| DeathSaves.successes := 1; DeathSaves.fails := 2 |};
     options := ∅; live_integration := false; prof_bonus := 2;
     cvars := ∅; stat_cvars := None;
     spellbook := Some {| sb_spellslots := {[ "1" := 2 ]}; sb_attackBonus := 5 |};
     consumables_custom := Some [];
     spellslots := Some (full_ledger {[ "1" := 2 ]});
     events := [] |}.

(** The sample character with one counter, as [create_consumable] leaves
    it for: no keyword at all ("Ki"); only a maximum of 0 ("Gold"); only a
    minimum above the default maximum ("Debt"). *)
Definition bare_counter (v : Z) : CustomCounter :=
  {| cc_value := v; cc_max := None; cc_min := None; cc_reset := None; cc_type := None;
     cc_live := None |}.

Definition ki_sheet : Character := with_custom [("Ki", bare_counter 0)] sample.

Definition gold_kwargs : Kwargs :=
  {| maxValue := Some "0"; minValue := None; reset_kw := None; displayType := None;
     live_kw := None |}.

Definition gold_sheet : Character :=
  with_custom
    [("Gold", {| cc_value := 0; cc_max := Some "0"; cc_min := None; cc_reset := None;
                 cc_type := None; cc_live := None |})] sample.

Definition debt_kwargs : Kwargs :=
  {| maxValue := None; minValue := Some "5000000000"; reset_kw := None;
     displayType := None; live_kw := None |}.

Definition debt_counter (v : Z) : CustomCounter :=
  {| cc_value := v; cc_max := None; cc_min := Some "5000000000"; cc_reset := None;
     cc_type := None; cc_live := None |}.

Definition debt_sheet : Character := with_custom [("Debt", debt_counter 0)] sample.

(** A counter with a maximum, a minimum and a given reset scope, and the
    sample character holding it under a given name. *)
Definition scoped_counter (v : Z) (scope : option string) : CustomCounter :=
  {| cc_value := v; cc_max := Some "3"; cc_min := Some "0"; cc_reset := scope;
     cc_type := None; cc_live := None |}.

Definition sheet_with (name : string) (cnt : CustomCounter) : Character :=
  with_custom [(name, cnt)] sample.

(** A character without the dict of counters. *)
Definition without_custom (c : Character) : Character :=
  {| hp := hp c; max_hp := max_hp c; temp_hp := temp_hp c; death_saves := death_saves c;
     options := options c; live_integration := live_integration c;
     prof_bonus := prof_bonus c; cvars := cvars c; stat_cvars := stat_cvars c;
     spellbook := spellbook c; consumables_custom := None;
     spellslots := spellslots c; events := events c |}.

(** The sample character without a spellbook (an outdated sheet). *)
Definition outdated (c : Character) : Character :=
  {| hp := hp c; max_hp := max_hp c; temp_hp := temp_hp c; death_saves := death_saves c;
     options := options c; live_integration := live_integration c;
     prof_bonus := prof_bonus c; cvars := cvars c; stat_cvars := stat_cvars c;
     spellbook := None; consumables_custom := consumables_custom c;
     spellslots := spellslots c;
     events := events c |}.

Definition hp_kwargs : Kwargs :=
  {| maxValue := Some "3"; minValue := None; reset_kw := Some "hp"; displayType := None;
     live_kw := None |}.

(** The sample character at 0 hit points with an 'hp' scoped counter that
    bears the name of the death save label. *)
Definition downed_sheet : Character :=
  with_hp 0 (sheet_with "Death Saves" (scoped_counter 1 (Some "hp"))).

(** The counter that [create_consumable] stores for the name "Spell Slots",
    a maximum of 3 and the reset scope 'long'. *)
Definition slots_kwargs : Kwargs :=
  {| maxValue := Some "3"; minValue := None; reset_kw := Some "long"; displayType := None;
     live_kw := None |}.

Definition slots_sheet : Character :=
  with_custom
    [("Spell Slots", {| cc_value := 3; cc_max := Some "3"; cc_min := None;
                        cc_reset := Some "long"; cc_type := None; cc_live := None |})]
    sample.

(** The sample character with a first level pool that is full, with 2
    slots, and has the stored minimum 1. *)
Definition floor_sheet : Character :=
  with_spellslots
    (Some (<["1" := {| slot_value := 2; slot_min := 1 |}]> (full_ledger {[ "1" := 2 ]})))
    sample.

(** The sample character with the setting srslots switched on. *)
Definition with_srslots (c : Character) : Character :=
  {| hp := hp c; max_hp := max_hp c; temp_hp := temp_hp c; death_saves := death_saves c;
     options := <["srslots" := PyBool true]> (options c);
     live_integration := live_integration c;
     prof_bonus := prof_bonus c; cvars := cvars c; stat_cvars := stat_cvars c;
     spellbook := spellbook c; consumables_custom := consumables_custom c;
     spellslots := spellslots c;
     events := events c |}.

(** ** Further methods of the module *)

(** [DeathSaves.to_dict] and [DeathSaves.from_dict].  The constructor called
    with the entries of [d] as keywords raises TypeError, here [None], unless
    the keys of [d] are exactly the two parameters of [__init__]. *)
Module DeathSavesDict.

Definition to_dict (d : DeathSaves.t) : gmap string Z :=
  <["successes" := DeathSaves.successes d]> (<["fails" := DeathSaves.fails d]> ∅).

Definition from_dict (d : gmap string Z) : option DeathSaves.t :=
  match d !! "successes", d !! "fails" with
  | Some s, Some f =>
      if bool_decide (size d = 2%nat)
      then Some {| DeathSaves.successes := s; DeathSaves.fails := f |}
      else None
  | _, _ => None
  end.

End DeathSavesDict.

(** [add_successful_ds] and [add_failed_ds]: one more success or failure,
    and whether the character is now stable or dead. *)
Definition add_successful_ds : M bool :=
  modify (fun c => with_death_saves (DeathSaves.succeed 1 (death_saves c)) c) >>
  gets (fun c => DeathSaves.is_stable (death_saves c)).

Definition add_failed_ds : M bool :=
  modify (fun c => with_death_saves (DeathSaves.fail 1 (death_saves c)) c) >>
  gets (fun c => DeathSaves.is_dead (death_saves c)).

(** [del d[k]]: [None] is the KeyError of a missing key. *)
Fixpoint dict_del {V : Type} (k : string) (d : list (string * V)) : option (list (string * V)) :=
  match d with
  | [] => None
  | (k', v) :: d' =>
      if String.eqb k' k then Some d'
      else match dict_del k d' with
           | Some r => Some ((k', v) :: r)
           | None => None
           end
  end.

Definition delete_consumable (name : string) : M unit :=
  custom_counters <- gets custom ;;
  match dict_del name custom_counters with
  | None => raise ConsumableNotFound
  | Some custom_counters => modify (with_custom custom_counters)
  end.

Definition get_all_consumables : M (list (string * CustomCounter)) := gets custom.

(** [a in b] on strings. *)
Fixpoint is_prefix (p s : list ascii) : bool :=
  match p, s with
  | [], _ => true
  | _ :: _, [] => false
  | a :: p', b :: s' => Ascii.eqb a b && is_prefix p' s'
  end.

Fixpoint is_infix (p s : list ascii) : bool :=
  is_prefix p s ||
  match s with
  | [] => false
  | _ :: s' => is_infix p s'
  end.

Definition str_in (a b : string) : bool :=
  is_infix (list_ascii_of_string a) (list_ascii_of_string b).

(** [str.lower] on ASCII text. *)
Definition lower_char (a : ascii) : ascii :=
  let n := nat_of_ascii a in
  if (65 <=? n)%nat && (n <=? 90)%nat then ascii_of_nat (n + 32) else a.

Definition ascii_lower (s : string) : string :=
  string_of_list_ascii (map lower_char (list_ascii_of_string s)).

Section Selection.

(** [str.lower], taken as a function of the text. *)
Variable lower : string -> string.

(** The part of [select_consumable] before it awaits [get_selection]: the
    candidates handed to the selection, which are the counters whose name
    equals the query up to case or, when there is none, those whose name
    contains it up to case. *)
Definition select_consumable (name : string) : M (list (string * CustomCounter)) :=
  custom_counters <- gets custom ;;
  let choices :=
    List.filter (fun item => String.eqb (lower (fst item)) (lower name)) custom_counters in
  let choices :=
    match choices with
    | [] => List.filter (fun item => str_in (lower name) (lower (fst item))) custom_counters
    | _ => choices
    end in
  match choices with
  | [] => raise ConsumableNotFound
  | _ => ret choices
  end.

End Selection.

(** The slots left at a level according to the ledger, when it has the level. *)
Definition slots_left (level : Z) (c : Character) : option Z :=
  match spellslots c with
  | Some ss => slot_value <$> ss !! str_of_int level
  | None => None
  end.

(** The maximum of a level according to the spellbook, when there is one. *)
Definition slots_max (level : Z) (c : Character) : option Z :=
  match spellbook c with
  | Some sb => Some (default 0 (sb_spellslots sb !! str_of_int level))
  | None => None
  end.

(** The ledger has an entry for each of the levels 1 to 9. *)
Definition ledger_complete (c : Character) : Prop :=
  forall level, 1 <= level <= 9 -> is_Some (slots_left level c).

(** Hit points and temporary hit points are the same. *)
Definition same_vitals (c c' : Character) : Prop :=
  hp c' = hp c /\ max_hp c' = max_hp c /\ temp_hp c' = temp_hp c.

(** Everything that the spell slot methods read or write is the same. *)
Definition same_slots (c c' : Character) : Prop :=
  spellbook c' = spellbook c /\ spellslots c' = spellslots c /\ max_hp c' = max_hp c.

(** The spellbook, the maximum hit points, the settings and whether there
    is a live sheet are the same. *)
Definition same_setup (c c' : Character) : Prop :=
  spellbook c' = spellbook c /\ max_hp c' = max_hp c /\ options c' = options c /\
  live_integration c' = live_integration c.

(** Hit points, temporary hit points and death saves are the same. *)
Definition same_body (c c' : Character) : Prop :=
  hp c' = hp c /\ temp_hp c' = temp_hp c /\ death_saves c' = death_saves c /\
  max_hp c' = max_hp c.

(** The body of the loop of [reset_spellslots]. *)
Definition reset_level (level : Z) : M unit :=
  mx <- get_max_spellslots level ;; set_remaining_slots level mx false.

(** What [create_consumable] checks of a request, once the bounds are
    resolved: the reset keyword is one of 'short', 'long', 'none' or absent;
    the name has neither a dot nor a dollar sign; when both bounds are given
    the maximum is at least the minimum and is not 0; a reset scope comes
    with a maximum; the bubble display comes with both bounds. *)
Definition creation_valid (roll : string -> Z) (c : Character) (name : string)
    (kw : Kwargs) : Prop :=
  In (reset_kw kw) [None; Some "short"; Some "long"; Some "none"] /\
  any_char_in name ".$" = false /\
  (forall mx mn maxV minV,
     maxValue kw = Some mx -> minValue kw = Some mn ->
     resolve roll c mx = Some maxV -> resolve roll c mn = Some minV ->
     minV <= maxV /\ maxV <> 0) /\
  (str_truthy (reset_kw kw) = true -> is_Some (maxValue kw)) /\
  (displayType kw = Some "bubble" -> is_Some (maxValue kw) /\ is_Some (minValue kw)).

(** The counter that [create_consumable] stores for a request, with [v] the
    value its maximum resolved to. *)
Definition created_counter (kw : Kwargs) (v : Z) : CustomCounter :=
  {| cc_value := v;
     cc_max := maxValue kw;
     cc_min := minValue kw;
     cc_reset := if str_truthy (reset_kw kw) && bool_decide (is_Some (maxValue kw))
                 then reset_kw kw else None;
     cc_type := displayType kw;
     cc_live := live_kw kw |}.

(** The two halves of [create_consumable] after the checks of the reset
    keyword and of the name: the check of the bounds, and the rest. *)
Definition check_bounds (roll : string -> Z) (kw : Kwargs) : M unit :=
  match maxValue kw, minValue kw with
  | Some mx, Some mn =>
      maxV <- evaluate_cvar roll mx ;;
      minV <- evaluate_cvar roll mn ;;
      if negb (minV <=? maxV) then raise (InvalidArgument "Max value is less than min value.")
      else if maxV =? 0 then raise (InvalidArgument "Max value cannot be 0.")
      else ret tt
  | _, _ => ret tt
  end.

Definition create_tail (roll : string -> Z) (name : string) (kw : Kwargs) : M unit :=
  if str_truthy (reset_kw kw) && negb (bool_decide (is_Some (maxValue kw)))
  then raise (InvalidArgument "Reset passed but no maximum passed.")
  else if bool_decide (displayType kw = Some "bubble")
            && negb (bool_decide (is_Some (maxValue kw)) && bool_decide (is_Some (minValue kw)))
  then raise (InvalidArgument "Bubble display requires a max and min value.")
  else
    v <- evaluate_cvar roll (py_str (maxValue kw)) ;;
    custom_counters <- custom_dict ;;
    modify (with_custom (dict_set name (created_counter kw v) custom_counters)).

(** The ledger, the spellbook, the settings and the log are the same. *)
Definition same_ledger (c c' : Character) : Prop :=
  spellslots c' = spellslots c /\ spellbook c' = spellbook c /\
  options c' = options c /\ events c' = events c.

(** Whether a text has one of the operator characters, and how many. *)
Definition has_op (s : string) : bool := existsb is_op (list_ascii_of_string s).

Definition count_ops (s : string) : nat :=
  length (List.filter is_op (list_ascii_of_string s)).

(** A piece that [re.split] yields: text without operator, or one operator. *)
Definition is_piece (p : string) : Prop :=
  has_op p = false \/ exists a, is_op a = true /\ p = String a EmptyString.

Definition with_cvars (t : gmap string string) (c : Character) : Character :=
  {| hp := hp c; max_hp := max_hp c; temp_hp := temp_hp c; death_saves := death_saves c;
     options := options c; live_integration := live_integration c;
     prof_bonus := prof_bonus c; cvars := t; stat_cvars := stat_cvars c;
     spellbook := spellbook c; consumables_custom := consumables_custom c;
     spellslots := spellslots c;
     events := events c |}.

(** * Properties *)

(** ** Reasoning about runs *)

Lemma bind_inr {A B : Type} (m : M A) (k : A -> M B) c a c' :
  m c = (inr a, c') -> bind m k c = k a c'.
Proof. intros H. unfold bind. now rewrite H. Qed.

Lemma bind_inl {A B : Type} (m : M A) (k : A -> M B) c e c' :
  m c = (inl e, c') -> bind m k c = (inl e, c').
Proof. intros H. unfold bind. now rewrite H. Qed.

Lemma dict_get_set_same {V : Type} k (v : V) d : dict_get k (dict_set k v d) = Some v.
Proof.
  induction d as [|[k' v'] d IH]; simpl.
  - now rewrite String.eqb_refl.
  - destruct (String.eqb k' k) eqn:E; simpl; now rewrite E.
Qed.

Lemma dict_get_set_other {V : Type} k k' (v : V) d :
  k <> k' -> dict_get k' (dict_set k v d) = dict_get k' d.
Proof.
  intros Hne. induction d as [|[k0 v0] d IH]; simpl.
  - destruct (String.eqb k k') eqn:E; [apply String.eqb_eq in E; contradiction | reflexivity].
  - destruct (String.eqb k0 k) eqn:E; simpl.
    + apply String.eqb_eq in E. subst k0.
      destruct (String.eqb k k') eqn:E'; [apply String.eqb_eq in E'; contradiction | reflexivity].
    + now rewrite IH.
Qed.

Lemma dict_set_names {V : Type} k (v v0 : V) d :
  dict_get k d = Some v0 -> map fst (dict_set k v d) = map fst d.
Proof.
  induction d as [|[k' v'] d IH]; simpl; [discriminate|].
  destruct (String.eqb k' k) eqn:E; simpl; [reflexivity|].
  intros H. now rewrite IH.
Qed.

Lemma dict_get_names {V : Type} k (v : V) d : dict_get k d = Some v -> In k (map fst d).
Proof.
  induction d as [|[k' v'] d IH]; simpl; [discriminate|].
  destruct (String.eqb k' k) eqn:E.
  - apply String.eqb_eq in E. now left.
  - intros H. right. now apply IH.
Qed.

Section Frames.

Variable R : Character -> Character -> Prop.
Hypothesis R_refl : forall c, R c c.
Hypothesis R_trans : forall a b c, R a b -> R b c -> R a c.

Lemma keeps_ret {A : Type} (a : A) : keeps R (ret a).
Proof. intros c. apply R_refl. Qed.

Lemma keeps_raise {A : Type} (e : exn) : keeps R (@raise A e).
Proof. intros c. apply R_refl. Qed.

Lemma keeps_gets {A : Type} (f : Character -> A) : keeps R (gets f).
Proof. intros c. apply R_refl. Qed.

Lemma keeps_modify (f : Character -> Character) :
  (forall c, R c (f c)) -> keeps R (modify f).
Proof. intros H c. apply H. Qed.

Lemma keeps_bind {A B : Type} (m : M A) (k : A -> M B) :
  keeps R m -> (forall a, keeps R (k a)) -> keeps R (bind m k).
Proof.
  intros Hm Hk c. unfold bind. specialize (Hm c).
  destruct (m c) as [[e|a] c1]; simpl in *; [assumption|].
  eapply R_trans; [exact Hm | apply Hk].
Qed.

Lemma keeps_for_each {A : Type} (l : list A) (body : A -> M unit) :
  (forall x, keeps R (body x)) -> keeps R (for_each l body).
Proof.
  intros Hb. induction l as [|x l IH]; simpl.
  - apply keeps_ret.
  - apply keeps_bind; [apply Hb | intros _; exact IH].
Qed.

End Frames.

Lemma same_sheet_refl c : same_sheet c c.
Proof. now constructor. Qed.

Lemma same_sheet_trans a b c : same_sheet a b -> same_sheet b c -> same_sheet a c.
Proof. intros [] []. constructor; congruence. Qed.

Section EngineFacts.

Variable roll : string -> Z.

Lemma evaluate_cvar_run varstr c :
  evaluate_cvar roll varstr c =
  match resolve roll c varstr with
  | Some v => (inr v, with_spell_var c)
  | None => (inl OutdatedSheet, c)
  end.
Proof.
  unfold evaluate_cvar, resolve, with_spell_var, bind, get_spell_ab, get_prof_bonus,
    gets, modify, ret.
  destruct (spellbook c) as [sb|]; simpl; [|reflexivity].
  destruct (stat_cvars c); reflexivity.
Qed.

Lemma with_spell_var_same_sheet c : same_sheet c (with_spell_var c).
Proof.
  unfold with_spell_var. destruct (spellbook c), (stat_cvars c); now constructor.
Qed.

Lemma with_spell_var_custom c : custom (with_spell_var c) = custom c.
Proof. unfold with_spell_var. now destruct (spellbook c), (stat_cvars c). Qed.

Lemma with_spell_var_consumables c :
  consumables_custom (with_spell_var c) = consumables_custom c.
Proof. unfold with_spell_var. now destruct (spellbook c), (stat_cvars c). Qed.

Lemma resolve_with_spell_var c varstr : resolve roll (with_spell_var c) varstr = resolve roll c varstr.
Proof.
  unfold resolve, with_spell_var.
  destruct (spellbook c) as [sb|] eqn:Hsb; [|now rewrite Hsb].
  destruct (stat_cvars c) as [sv|] eqn:Hsv; simpl; [|now rewrite Hsb].
  unfold resolved_text, stat_table. simpl. rewrite Hsb, Hsv. simpl.
  now rewrite insert_insert_eq.
Qed.

Lemma resolve_with_custom d c varstr : resolve roll (with_custom d c) varstr = resolve roll c varstr.
Proof. reflexivity. Qed.

Lemma keeps_evaluate_cvar varstr : keeps same_sheet (evaluate_cvar roll varstr).
Proof.
  intros c. rewrite evaluate_cvar_run.
  destruct (resolve roll c varstr); simpl; [apply with_spell_var_same_sheet | apply same_sheet_refl].
Qed.

End EngineFacts.

(** A name that looks up in the dict of counters: the character has the
    dict. *)
Lemma custom_found name c cnt :
  dict_get name (custom c) = Some cnt ->
  exists d, consumables_custom c = Some d /\ custom c = d /\ dict_get name d = Some cnt.
Proof.
  unfold custom. destruct (consumables_custom c) as [d|]; [eauto | discriminate].
Qed.

Lemma custom_dict_found name c cnt :
  dict_get name (custom c) = Some cnt -> custom_dict c = (inr (custom c), c).
Proof.
  intros H. destruct (custom_found name c cnt H) as (d & Hd & Hc & _).
  unfold custom_dict. now rewrite Hc, Hd.
Qed.

(** [set_consumable] on a name that looks up, past the lookup. *)
Lemma set_consumable_found (roll : string -> Z) name newValue strict c cnt :
  dict_get name (custom c) = Some cnt ->
  set_consumable roll name newValue strict c
  = (_min <- evaluate_cvar roll (default default_min (cc_min cnt)) ;;
     _max <- evaluate_cvar roll (default default_max (cc_max cnt)) ;;
     newValue <- (if strict
                  then if (_min <=? newValue) && (newValue <=? _max) then ret newValue
                       else raise CounterOutOfBounds
                  else ret (Z.min (Z.max _min newValue) _max)) ;;
     modify (fun c => with_custom (dict_set name (with_value newValue cnt) (custom c)) c) >>
     (live <- gets live_integration ;;
      if str_truthy (cc_live cnt) && live then raise (NameError "counter") else ret tt)) c.
Proof.
  intros H. unfold set_consumable.
  rewrite (bind_inr _ _ c (custom c) c) by exact (custom_dict_found name c cnt H).
  now rewrite H.
Qed.

(** [set_consumable] on a name that does not look up: ConsumableNotFound
    when the character has the dict, the KeyError of the index when not. *)
Lemma set_consumable_absent (roll : string -> Z) name newValue strict c :
  dict_get name (custom c) = None ->
  set_consumable roll name newValue strict c
  = (inl (match consumables_custom c with
          | Some _ => ConsumableNotFound
          | None => KeyError "custom"
          end), c).
Proof.
  unfold set_consumable, custom, bind, custom_dict.
  destruct (consumables_custom c) as [d|]; [|reflexivity].
  now intros ->.
Qed.

Section CounterFacts.

Variable roll : string -> Z.

Lemma with_spell_var_idem c : with_spell_var (with_spell_var c) = with_spell_var c.
Proof.
  unfold with_spell_var.
  destruct (spellbook c) as [sb|] eqn:Hsb; [|now rewrite Hsb].
  destruct (stat_cvars c) as [sv|] eqn:Hsv; simpl; [|now rewrite Hsb, Hsv].
  rewrite Hsb. unfold stat_table, with_stat_cvars. simpl. rewrite Hsv. simpl.
  now rewrite insert_insert_eq.
Qed.

Lemma with_spell_var_live c : live_integration (with_spell_var c) = live_integration c.
Proof. apply with_spell_var_same_sheet. Qed.

(** What [set_consumable] does on a counter that exists and whose bounds
    resolve to [lo] and [hi]. *)
Lemma set_consumable_run name v strict c cnt lo hi :
  dict_get name (custom c) = Some cnt ->
  resolve roll c (default default_min (cc_min cnt)) = Some lo ->
  resolve roll c (default default_max (cc_max cnt)) = Some hi ->
  set_consumable roll name v strict c =
  if strict && negb ((lo <=? v) && (v <=? hi))
  then (inl CounterOutOfBounds, with_spell_var c)
  else
    let v' := if strict then v else Z.min (Z.max lo v) hi in
    (if str_truthy (cc_live cnt) && live_integration c
     then inl (NameError "counter") else inr tt,
     with_custom (dict_set name (with_value v' cnt) (custom c)) (with_spell_var c)).
Proof.
  intros Hget Hlo Hhi.
  rewrite (set_consumable_found roll name v strict c cnt Hget).
  rewrite (bind_inr _ _ c lo (with_spell_var c))
    by (now rewrite evaluate_cvar_run, Hlo).
  rewrite (bind_inr _ _ (with_spell_var c) hi (with_spell_var c))
    by (now rewrite evaluate_cvar_run, resolve_with_spell_var, Hhi, with_spell_var_idem).
  destruct strict; simpl.
  - destruct ((lo <=? v) && (v <=? hi)); simpl.
    + unfold bind, ret, modify, gets, raise. simpl.
      rewrite with_spell_var_live, with_spell_var_custom.
      now destruct (str_truthy (cc_live cnt) && live_integration c).
    + reflexivity.
  - unfold bind, ret, modify, gets, raise. simpl.
    rewrite with_spell_var_live, with_spell_var_custom.
    now destruct (str_truthy (cc_live cnt) && live_integration c).
Qed.

(** Without a spellbook no bound resolves: [evaluate_cvar] raises OutdatedSheet
    before anything is stored. *)
Lemma set_consumable_outdated name v strict c cnt :
  dict_get name (custom c) = Some cnt ->
  spellbook c = None ->
  set_consumable roll name v strict c = (inl OutdatedSheet, c).
Proof.
  intros Hget Hsb. rewrite (set_consumable_found roll name v strict c cnt Hget).
  apply bind_inl. rewrite evaluate_cvar_run. unfold resolve. now rewrite Hsb.
Qed.

Lemma get_consumable_value_run name c cnt :
  dict_get name (custom c) = Some cnt ->
  get_consumable_value name c = (inr (cc_value cnt), c).
Proof.
  intros H. unfold get_consumable_value, get_consumable, bind, gets, ret. simpl.
  now rewrite H.
Qed.

(** C1, as amended.  On an existing counter whose bounds resolve to [lo] and
    [hi], and for which the live sheet sync is not reached (the counter has
    no live id, or the character has no live integration),
    [set_consumable name v] with strict = False returns, and the value it
    stores is [min(max(lo, v), hi)]: it is at most [hi], and at least [lo]
    whenever [lo <= hi].  The bounds resolve to the same numbers afterwards. *)
Theorem set_consumable_nonstrict_clamps name v c cnt lo hi :
  dict_get name (custom c) = Some cnt ->
  resolve roll c (default default_min (cc_min cnt)) = Some lo ->
  resolve roll c (default default_max (cc_max cnt)) = Some hi ->
  str_truthy (cc_live cnt) && live_integration c = false ->
  exists c' cur,
    set_consumable roll name v false c = (inr tt, c') /\
    get_consumable_value name c' = (inr cur, c') /\
    resolve roll c' (default default_min (cc_min cnt)) = Some lo /\
    resolve roll c' (default default_max (cc_max cnt)) = Some hi /\
    cur = Z.min (Z.max lo v) hi /\
    cur <= hi /\
    (lo <= hi -> lo <= cur <= hi).
Proof.
  intros Hget Hlo Hhi Hlive.
  rewrite (set_consumable_run name v false c cnt lo hi Hget Hlo Hhi). simpl.
  rewrite Hlive.
  eexists _, (Z.min (Z.max lo v) hi). split; [reflexivity|].
  split; [|split; [|split; [|split; [reflexivity|split]]]].
  - apply (get_consumable_value_run name _ (with_value (Z.min (Z.max lo v) hi) cnt)).
    simpl. apply dict_get_set_same.
  - now rewrite resolve_with_custom, resolve_with_spell_var.
  - now rewrite resolve_with_custom, resolve_with_spell_var.
  - lia.
  - lia.
Qed.

(** C2, as amended.  On an existing counter whose bounds resolve to [lo] and
    [hi], and for which the live sheet sync is not reached,
    [set_consumable name v] with strict = True either raises
    CounterOutOfBounds and leaves the stored value as it was, exactly when
    [v] is outside [lo, hi], or returns with [v] stored. *)
Theorem set_consumable_strict_rejects_or_stores name v c cnt lo hi :
  dict_get name (custom c) = Some cnt ->
  resolve roll c (default default_min (cc_min cnt)) = Some lo ->
  resolve roll c (default default_max (cc_max cnt)) = Some hi ->
  str_truthy (cc_live cnt) && live_integration c = false ->
  exists c',
    (~ (lo <= v <= hi) /\
     set_consumable roll name v true c = (inl CounterOutOfBounds, c') /\
     get_consumable_value name c' = (inr (cc_value cnt), c')) \/
    (lo <= v <= hi /\
     set_consumable roll name v true c = (inr tt, c') /\
     get_consumable_value name c' = (inr v, c')).
Proof.
  intros Hget Hlo Hhi Hlive.
  rewrite (set_consumable_run name v true c cnt lo hi Hget Hlo Hhi). simpl.
  destruct ((lo <=? v) && (v <=? hi)) eqn:E; simpl.
  - rewrite Hlive. eexists. right.
    apply andb_true_iff in E. destruct E as [E1 E2].
    apply Z.leb_le in E1. apply Z.leb_le in E2.
    split; [lia|]. split; [reflexivity|].
    apply (get_consumable_value_run name _ (with_value v cnt)). simpl.
    apply dict_get_set_same.
  - eexists. left.
    apply andb_false_iff in E.
    split; [destruct E as [E|E]; apply Z.leb_gt in E; lia|].
    split; [reflexivity|].
    apply get_consumable_value_run. now rewrite with_spell_var_custom.
Qed.

Lemma keeps_set_consumable name v strict : keeps same_sheet (set_consumable roll name v strict).
Proof.
  intros c.
  destruct (dict_get name (custom c)) as [cnt|] eqn:Hget.
  2:{ rewrite (set_consumable_absent roll name v strict c Hget). apply same_sheet_refl. }
  destruct (spellbook c) as [sb|] eqn:Hsb.
  2:{ rewrite (set_consumable_outdated name v strict c cnt Hget Hsb). apply same_sheet_refl. }
  assert (Hr : forall s, exists z, resolve roll c s = Some z)
    by (intros s; unfold resolve; rewrite Hsb; eauto).
  destruct (Hr (default default_min (cc_min cnt))) as [lo Hlo].
  destruct (Hr (default default_max (cc_max cnt))) as [hi Hhi].
  rewrite (set_consumable_run name v strict c cnt lo hi Hget Hlo Hhi).
  destruct (strict && negb ((lo <=? v) && (v <=? hi))); simpl.
  - apply with_spell_var_same_sheet.
  - eapply same_sheet_trans; [apply with_spell_var_same_sheet|].
    constructor; try reflexivity. simpl.
    rewrite with_spell_var_custom. eapply dict_set_names, Hget.
Qed.

Lemma keeps_reset_consumable name : keeps same_sheet (reset_consumable roll name).
Proof.
  unfold reset_consumable, get_consumable.
  apply keeps_bind; [apply same_sheet_trans| |].
  - apply keeps_bind; [apply same_sheet_trans | apply keeps_gets, same_sheet_refl |].
    intros [cnt|]; [apply keeps_ret | apply keeps_raise]; apply same_sheet_refl.
  - intros cnt.
    destruct (bool_decide (cc_reset cnt = Some "none")); [apply keeps_raise, same_sheet_refl|].
    destruct (cc_max cnt); [|apply keeps_raise, same_sheet_refl].
    apply keeps_bind; [apply same_sheet_trans | apply keeps_evaluate_cvar |].
    intros v. apply keeps_set_consumable.
Qed.

Lemma reset_consumable_run name c cnt :
  dict_get name (custom c) = Some cnt ->
  reset_consumable roll name c =
  if bool_decide (cc_reset cnt = Some "none") then (inl (NameError "NoReset"), c)
  else match cc_max cnt with
       | None => (inl (NameError "NoReset"), c)
       | Some mx => (v <- evaluate_cvar roll mx ;; set_consumable roll name v false) c
       end.
Proof.
  intros Hget. unfold reset_consumable.
  rewrite (bind_inr _ _ c cnt c)
    by (unfold get_consumable, bind, gets, ret; simpl; now rewrite Hget).
  destruct (bool_decide (cc_reset cnt = Some "none")); [reflexivity|].
  now destruct (cc_max cnt).
Qed.

(** C3, as amended.  On an existing counter, [reset_consumable] raises and
    changes nothing when the reset scope is 'none' or the maximum is unset.
    In every other case, an unset reset scope included, it resolves the
    maximum and hands it to [set_consumable] with strict = False.  On a
    character with a spellbook, when the live sheet sync is not reached, the
    call then returns and the counter holds the resolved maximum, which is
    what [min(max(lo, hi), hi)] is for the resolved bounds [lo] and [hi]; on
    a character without a spellbook it raises OutdatedSheet and changes
    nothing. *)
Theorem reset_consumable_cases name c cnt :
  dict_get name (custom c) = Some cnt ->
  (cc_reset cnt = Some "none" \/ cc_max cnt = None ->
   exists e, reset_consumable roll name c = (inl e, c)) /\
  (forall mx, cc_reset cnt <> Some "none" -> cc_max cnt = Some mx ->
   reset_consumable roll name c
   = (v <- evaluate_cvar roll mx ;; set_consumable roll name v false) c /\
   (forall hi, resolve roll c mx = Some hi ->
      reset_consumable roll name c = set_consumable roll name hi false (with_spell_var c)) /\
   (forall hi, resolve roll c mx = Some hi ->
      str_truthy (cc_live cnt) && live_integration c = false ->
      exists c',
        reset_consumable roll name c = (inr tt, c') /\
        get_consumable_value name c' = (inr hi, c')) /\
   (spellbook c = None ->
    reset_consumable roll name c = (inl OutdatedSheet, c) /\
    get_consumable_value name c = (inr (cc_value cnt), c))).
Proof.
  intros Hget. rewrite (reset_consumable_run name c cnt Hget). split.
  - intros [Hnone|Hmax].
    + rewrite Hnone. rewrite bool_decide_eq_true_2 by reflexivity. eauto.
    + rewrite Hmax. destruct (bool_decide (cc_reset cnt = Some "none")); eauto.
  - intros mx Hscope Hmax. rewrite bool_decide_eq_false_2 by exact Hscope.
    rewrite Hmax. split; [reflexivity|].
    assert (Hstep : forall hi, resolve roll c mx = Some hi ->
              (v <- evaluate_cvar roll mx ;; set_consumable roll name v false) c
              = set_consumable roll name hi false (with_spell_var c)).
    { intros hi Hhi.
      apply (bind_inr (evaluate_cvar roll mx) (fun v => set_consumable roll name v false)).
      now rewrite evaluate_cvar_run, Hhi. }
    split; [exact Hstep|]. split.
    + intros hi Hhi Hlive. rewrite (Hstep hi Hhi).
      assert (Hlo : exists lo, resolve roll c (default default_min (cc_min cnt)) = Some lo).
      { unfold resolve in *. destruct (spellbook c); [eauto | discriminate]. }
      destruct Hlo as [lo Hlo].
      assert (Hget' : dict_get name (custom (with_spell_var c)) = Some cnt)
        by (now rewrite with_spell_var_custom).
      assert (Hlo' : resolve roll (with_spell_var c) (default default_min (cc_min cnt))
                     = Some lo) by (now rewrite resolve_with_spell_var).
      assert (Hhi' : resolve roll (with_spell_var c) (default default_max (cc_max cnt))
                     = Some hi) by (now rewrite resolve_with_spell_var, Hmax).
      rewrite (set_consumable_run name hi false _ cnt lo hi Hget' Hlo' Hhi'). simpl.
      rewrite with_spell_var_live, Hlive.
      eexists. split; [reflexivity|].
      replace (Z.min (Z.max lo hi) hi) with hi by lia.
      apply (get_consumable_value_run name _ (with_value hi cnt)). simpl.
      apply dict_get_set_same.
    + intros Hsb. split; [|now apply get_consumable_value_run].
      apply bind_inl. rewrite evaluate_cvar_run. unfold resolve. now rewrite Hsb.
Qed.

(** C4, as amended.  When both bounds are given and resolve, and the
    maximum resolves to 0 or to less than the minimum, [create_consumable]
    raises InvalidArgument and the dict of counters is left as it was. *)
Theorem create_consumable_rejects_bad_bounds name kw c mx mn maxV minV :
  maxValue kw = Some mx ->
  minValue kw = Some mn ->
  resolve roll c mx = Some maxV ->
  resolve roll c mn = Some minV ->
  maxV = 0 \/ maxV < minV ->
  exists msg c',
    create_consumable roll name kw c = (inl (InvalidArgument msg), c') /\
    custom c' = custom c.
Proof.
  intros Hmx Hmn HmaxV HminV Hbad. unfold create_consumable.
  destruct (negb (reset_token_ok (reset_kw kw))); [unfold raise; eauto|].
  destruct (any_char_in name ".$"); [unfold raise; eauto|].
  rewrite Hmx, Hmn.
  assert (Hchk :
    (maxV0 <- evaluate_cvar roll mx ;;
     minV0 <- evaluate_cvar roll mn ;;
     if negb (minV0 <=? maxV0)
     then raise (InvalidArgument "Max value is less than min value.")
     else if maxV0 =? 0 then raise (InvalidArgument "Max value cannot be 0.")
          else ret tt) c
    = (inl (InvalidArgument (if negb (minV <=? maxV)
                             then "Max value is less than min value."
                             else "Max value cannot be 0.")), with_spell_var c)).
  { rewrite (bind_inr _ _ c maxV (with_spell_var c)) by (now rewrite evaluate_cvar_run, HmaxV).
    rewrite (bind_inr _ _ (with_spell_var c) minV (with_spell_var c))
      by (now rewrite evaluate_cvar_run, resolve_with_spell_var, HminV, with_spell_var_idem).
    destruct (minV <=? maxV) eqn:E; simpl; [|reflexivity].
    apply Z.leb_le in E.
    assert (maxV = 0) as -> by lia. reflexivity. }
  eexists _, _. split; [apply bind_inl; exact Hchk|].
  apply with_spell_var_custom.
Qed.

(** C9, as amended.  A request whose reset keyword is given and is none of
    'short', 'long' and 'none' is rejected with InvalidArgument("Invalid
    reset.") and the character is left exactly as it was, so nothing is
    inserted; a request whose reset keyword is one of the three or absent is
    never rejected with that error.  A request with reset scope 'hp' and a
    maximum is among the rejected ones. *)
Theorem create_consumable_reset_tokens name kw c :
  (~ In (reset_kw kw) [None; Some "short"; Some "long"; Some "none"] ->
   create_consumable roll name kw c = (inl (InvalidArgument "Invalid reset."), c)) /\
  (In (reset_kw kw) [None; Some "short"; Some "long"; Some "none"] ->
   fst (create_consumable roll name kw c) <> inl (InvalidArgument "Invalid reset.")) /\
  create_consumable roll name
    {| maxValue := maxValue kw; minValue := minValue kw; reset_kw := Some "hp";
       displayType := displayType kw; live_kw := live_kw kw |} c
  = (inl (InvalidArgument "Invalid reset."), c).
Proof.
  assert (Hok : reset_token_ok (reset_kw kw) = true
                <-> In (reset_kw kw) [None; Some "short"; Some "long"; Some "none"]).
  { unfold reset_token_ok. simpl. destruct (reset_kw kw) as [r|].
    - rewrite !orb_true_iff, !String.eqb_eq. split.
      + intros [[->| ->]| ->]; auto.
      + intros [H|[H|[H|[H|[]]]]]; inversion H; auto.
    - split; auto. }
  split; [|split; [|reflexivity]].
  - intros Hout. unfold create_consumable.
    destruct (reset_token_ok (reset_kw kw)) eqn:Htok; [|reflexivity].
    exfalso. apply Hout. now apply Hok.
  - intros Hin. apply Hok in Hin. unfold create_consumable. rewrite Hin. simpl.
    destruct (any_char_in name ".$"); [discriminate|].
    unfold bind, raise, ret, modify, custom_dict.
    destruct (maxValue kw) as [mx|], (minValue kw) as [mn|]; simpl;
      repeat (match goal with
              | |- context [evaluate_cvar roll ?s ?c0] => rewrite (evaluate_cvar_run roll s c0)
              | |- context [match resolve roll ?c0 ?s with _ => _ end] =>
                  destruct (resolve roll c0 s)
              | |- context [match consumables_custom ?c0 with _ => _ end] =>
                  destruct (consumables_custom c0)
              | |- context [if ?b then _ else _] => destruct b
              end; simpl);
      discriminate.
Qed.

End CounterFacts.

Section SweepFacts.

Variable roll : string -> Z.

Lemma keeps_weaken (R1 R2 : Character -> Character -> Prop) {A : Type} (m : M A) :
  (forall c c', R1 c c' -> R2 c c') -> keeps R1 m -> keeps R2 m.
Proof. intros H Hm c. apply H, Hm. Qed.

Lemma keeps_reset_custom_items scope items acc :
  keeps same_sheet (reset_custom_items roll scope items acc).
Proof.
  revert acc. induction items as [|[name value] items IH]; intros acc; simpl.
  - apply keeps_ret, same_sheet_refl.
  - destruct (bool_decide (cc_reset value = scope)); [|apply IH].
    intros c. pose proof (keeps_reset_consumable roll name c) as H1.
    destruct (reset_consumable roll name c) as [[e|[]] c1]; simpl in *; [exact H1|].
    eapply same_sheet_trans; [exact H1 | apply IH].
Qed.

Lemma keeps_reset_custom scope : keeps same_sheet (_reset_custom roll scope).
Proof.
  intros c. unfold _reset_custom, bind, gets. apply keeps_reset_custom_items.
Qed.

(** A sweep that returns reports the selected counters, in dict order. *)
Lemma reset_custom_items_names scope items acc c names c' :
  reset_custom_items roll scope items acc c = (inr names, c') ->
  names = acc ++ map fst (List.filter (in_scope scope) items).
Proof.
  revert acc c. induction items as [|[name value] items IH]; intros acc c; simpl.
  - unfold ret. intros [= <- <-]. now rewrite app_nil_r.
  - unfold in_scope at 1. simpl.
    destruct (bool_decide (cc_reset value = scope)).
    + destruct (reset_consumable roll name c) as [[e|[]] c1]; [discriminate|].
      intros H. apply IH in H. rewrite H. simpl. now rewrite <- app_assoc.
    + apply IH.
Qed.

Lemma reset_custom_names scope c names c' :
  _reset_custom roll scope c = (inr names, c') ->
  names = map fst (List.filter (in_scope scope) (custom c)).
Proof.
  unfold _reset_custom, bind, gets. intros H.
  now apply reset_custom_items_names in H.
Qed.

Lemma reset_custom_names_incl scope c names c' :
  _reset_custom roll scope c = (inr names, c') ->
  forall n, In n names -> In n (map fst (custom c)).
Proof.
  intros H n Hin. apply reset_custom_names in H. subst names.
  apply in_map_iff in Hin. destruct Hin as [[k v] [<- Hin]].
  apply filter_In in Hin. destruct Hin as [Hin _].
  apply in_map_iff. now exists (k, v).
Qed.

(** C5 at the failing input.  "Ki" is what [create_consumable] stores for a
    request without keywords: no maximum and no reset scope.  The sweep for
    the scope None selects it, [reset_consumable] raises, and the sweep
    raises NameError to its caller, whatever the evaluator, where the claim
    has the counter skipped and the sweep return. *)
Theorem reset_custom_raises_instead_of_skipping :
  create_consumable roll_literal "Ki" no_kwargs sample = (inr tt, ki_sheet) /\
  reset_consumable roll "Ki" ki_sheet = (inl (NameError "NoReset"), ki_sheet) /\
  _reset_custom roll None ki_sheet = (inl (NameError "NoReset"), ki_sheet).
Proof.
  split; [vm_compute; reflexivity|].
  assert (Hreset : reset_consumable roll "Ki" ki_sheet
                   = (inl (NameError "NoReset"), ki_sheet))
    by (now rewrite (reset_consumable_run roll "Ki" ki_sheet (bare_counter 0) eq_refl)).
  split; [exact Hreset|].
  change (_reset_custom roll None ki_sheet)
    with (match reset_consumable roll "Ki" ki_sheet with
          | (inl _, c') => (inl (NameError "NoReset"), c')
          | (inr _, c') => reset_custom_items roll None [] ([] ++ ["Ki"]) c'
          end).
  now rewrite Hreset.
Qed.

Lemma on_hp_run c names c1 :
  _reset_custom roll (Some "hp") c = (inr names, c1) ->
  on_hp roll c =
  if 0 <? hp c
  then (inr (names ++ ["Death Saves"]),
        with_death_saves {| DeathSaves.successes := 0; DeathSaves.fails := 0 |} c1)
  else (inr names, c1).
Proof.
  intros H. unfold on_hp.
  rewrite (bind_inr _ _ c names c1 H).
  pose proof (keeps_reset_custom (Some "hp") c) as Hk. rewrite H in Hk. simpl in Hk.
  unfold bind, get_current_hp, gets. rewrite (ss_hp _ _ Hk).
  now destruct (0 <? hp c).
Qed.

(** C6, as amended.  When the sweep of the 'hp' scoped counters returns
    [names], in state [c1], [on_hp] returns: with hit points above 0 it
    returns [names] followed by "Death Saves", in [c1] with both death save
    counts at 0; with hit points at 0 or below it returns [names] in [c1],
    where the death saves are those of the start.  [names] are the names of
    the 'hp' scoped counters, so with hit points at 0 or below "Death Saves"
    is in the list only as the name of such a counter. *)
Theorem on_hp_death_saves c names c1 :
  _reset_custom roll (Some "hp") c = (inr names, c1) ->
  names = map fst (List.filter (in_scope (Some "hp")) (custom c)) /\
  (0 < hp c ->
   on_hp roll c =
     (inr (names ++ ["Death Saves"]),
      with_death_saves {| DeathSaves.successes := 0; DeathSaves.fails := 0 |} c1)) /\
  (hp c <= 0 ->
   on_hp roll c = (inr names, c1) /\
   death_saves c1 = death_saves c /\
   (In "Death Saves" names <->
    exists cnt, In ("Death Saves", cnt) (custom c) /\ cc_reset cnt = Some "hp")).
Proof.
  intros H. pose proof (reset_custom_names _ _ _ _ H) as Hn.
  rewrite (on_hp_run c names c1 H).
  split; [exact Hn|]. split.
  - intros Hpos. apply Z.ltb_lt in Hpos. now rewrite Hpos.
  - intros Hle. assert (Hneg : (0 <? hp c) = false) by (apply Z.ltb_ge; lia).
    rewrite Hneg.
    split; [reflexivity|]. split.
    + pose proof (keeps_reset_custom (Some "hp") c) as Hk. rewrite H in Hk.
      apply (ss_death_saves _ _ Hk).
    + rewrite Hn, in_map_iff. split.
      * intros [[k cnt] [Hk Hin]]. simpl in Hk. subst k.
        apply filter_In in Hin. destruct Hin as [Hin Hs].
        exists cnt. split; [exact Hin|].
        unfold in_scope in Hs. simpl in Hs. now apply bool_decide_eq_true_1 in Hs.
      * intros [cnt [Hin Hs]]. exists ("Death Saves", cnt). split; [reflexivity|].
        apply filter_In. split; [exact Hin|].
        unfold in_scope. simpl. now apply bool_decide_eq_true_2.
Qed.

End SweepFacts.

Lemma bind_inr_inv {A B : Type} (m : M A) (k : A -> M B) c b c' :
  bind m k c = (inr b, c') ->
  exists a c1, m c = (inr a, c1) /\ k a c1 = (inr b, c').
Proof.
  unfold bind. destruct (m c) as [[e|a] c1]; [discriminate|]. eauto.
Qed.

Lemma slot_resets_log e c :
  slot_resets (log_event e c)
  = (slot_resets c + if bool_decide (e = call_reset_spellslots) then 1 else 0)%nat.
Proof.
  unfold slot_resets, log_event. simpl. rewrite count_occ_app. simpl.
  destruct (Event_eq_dec e call_reset_spellslots) as [->|Hne].
  - now rewrite bool_decide_eq_true_2.
  - now rewrite bool_decide_eq_false_2.
Qed.

Lemma rest_inv_refl c : rest_inv c c.
Proof. now repeat split. Qed.

Lemma rest_inv_trans a b c : rest_inv a b -> rest_inv b c -> rest_inv a c.
Proof. unfold rest_inv. intros (?&?&?) (?&?&?). repeat split; congruence. Qed.

Lemma same_sheet_rest_inv c c' : same_sheet c c' -> rest_inv c c'.
Proof.
  intros H. repeat split; try apply H. unfold slot_resets. now rewrite (ss_events _ _ H).
Qed.



(** [on_hp] and [set_hp] keep every relation that the counter sweeps keep
    and that ignores the hit points, the death saves and the syncs. *)
Section HpFrames.

Variable roll : string -> Z.
Variable R : Character -> Character -> Prop.
Hypothesis R_refl : forall c, R c c.
Hypothesis R_trans : forall a b c, R a b -> R b c -> R a c.
Hypothesis R_sheet : forall c c', same_sheet c c' -> R c c'.
Hypothesis R_death_saves : forall d c, R c (with_death_saves d c).
Hypothesis R_hp : forall v c, R c (with_hp v c).
Hypothesis R_sync_hp : forall c, R c (log_event sync_hp c).

Lemma keeps_on_hp : keeps R (on_hp roll).
Proof.
  unfold on_hp. apply keeps_bind; [exact R_trans| |].
  - eapply keeps_weaken; [exact R_sheet | apply keeps_reset_custom].
  - intros names. apply keeps_bind; [exact R_trans | apply keeps_gets, R_refl |].
    intros cur. destruct (0 <? cur); [|apply keeps_ret, R_refl].
    apply keeps_bind; [exact R_trans | | intros _; apply keeps_ret, R_refl].
    apply keeps_modify. intros c. apply R_death_saves.
Qed.

Lemma keeps_set_hp v : keeps R (set_hp roll v).
Proof.
  unfold set_hp. apply keeps_bind; [exact R_trans | apply keeps_modify, R_hp |].
  intros _. apply keeps_bind; [exact R_trans | apply keeps_on_hp |].
  intros _. apply keeps_bind; [exact R_trans | apply keeps_gets, R_refl |].
  intros live. destruct live; [apply keeps_modify, R_sync_hp | apply keeps_ret, R_refl].
Qed.

End HpFrames.

Section RestFacts.

Variable roll : string -> Z.

Lemma rest_inv_log e c : e <> call_reset_spellslots -> rest_inv c (log_event e c).
Proof.
  intros Hne. repeat split. rewrite slot_resets_log.
  rewrite bool_decide_eq_false_2 by exact Hne. lia.
Qed.

Lemma keeps_rest_inv_on_hp : keeps rest_inv (on_hp roll).
Proof.
  apply keeps_on_hp;
    [apply rest_inv_refl | apply rest_inv_trans | apply same_sheet_rest_inv
    | intros; now repeat split].
Qed.

Lemma keeps_rest_inv_set_hp v : keeps rest_inv (set_hp roll v).
Proof.
  apply keeps_set_hp;
    [apply rest_inv_refl | apply rest_inv_trans | apply same_sheet_rest_inv
    | intros; now repeat split | intros; now repeat split
    | intros; now apply rest_inv_log].
Qed.

Lemma keeps_rest_inv_reset_hp : keeps rest_inv (reset_hp roll).
Proof.
  unfold reset_hp, set_temp_hp.
  apply keeps_bind; [apply rest_inv_trans | apply keeps_modify; intros; now repeat split |].
  intros _. apply keeps_bind; [apply rest_inv_trans | apply keeps_gets, rest_inv_refl |].
  intros mx. apply keeps_rest_inv_set_hp.
Qed.

Lemma keeps_rest_inv_get_max_spellslots level : keeps rest_inv (get_max_spellslots level).
Proof.
  intros c. unfold get_max_spellslots. destruct (spellbook c); apply rest_inv_refl.
Qed.

Lemma keeps_rest_inv_get_spellslots : keeps rest_inv get_spellslots.
Proof.
  intros c. unfold get_spellslots. destruct (spellslots c); apply rest_inv_refl.
Qed.

Lemma keeps_rest_inv_set_remaining_slots level value sync :
  keeps rest_inv (set_remaining_slots level value sync).
Proof.
  unfold set_remaining_slots.
  destruct (negb _); [apply keeps_raise, rest_inv_refl|].
  destruct (negb _); [apply keeps_raise, rest_inv_refl|].
  apply keeps_bind; [apply rest_inv_trans | apply keeps_rest_inv_get_max_spellslots |].
  intros mx. destruct (negb _); [apply keeps_raise, rest_inv_refl|].
  apply keeps_bind; [apply rest_inv_trans | |].
  { apply keeps_modify. intros c. destruct (spellslots c); now repeat split. }
  intros _. apply keeps_bind; [apply rest_inv_trans | apply keeps_rest_inv_get_spellslots |].
  intros ss. apply keeps_bind; [apply rest_inv_trans | |].
  { unfold slot_at. destruct (ss !! _); [apply keeps_ret | apply keeps_raise]; apply rest_inv_refl. }
  intros slot. apply keeps_bind; [apply rest_inv_trans | |].
  { apply keeps_modify. intros c. now repeat split. }
  intros _. apply keeps_bind; [apply rest_inv_trans | apply keeps_gets, rest_inv_refl |].
  intros live. destruct (live && sync); [|apply keeps_ret, rest_inv_refl].
  apply keeps_modify. intros c. now apply rest_inv_log.
Qed.

(** A call of [reset_spellslots] is one more slot reset, whether it returns
    or raises; settings and counter names stay. *)
Lemma reset_spellslots_counts c :
  let c' := snd (reset_spellslots c) in
  options c' = options c /\
  map fst (custom c') = map fst (custom c) /\
  slot_resets c' = (slot_resets c + 1)%nat.
Proof.
  assert (Hk : keeps rest_inv
                 (for_each levels_1_to_9
                    (fun level => mx <- get_max_spellslots level ;;
                                  set_remaining_slots level mx false) >>
                  (live <- gets live_integration ;;
                   if live then modify (log_event sync_slots) else ret tt))).
  { apply keeps_bind; [apply rest_inv_trans | |].
    - apply keeps_for_each; [apply rest_inv_refl | apply rest_inv_trans |].
      intros level. apply keeps_bind;
        [apply rest_inv_trans | apply keeps_rest_inv_get_max_spellslots |].
      intros mx. apply keeps_rest_inv_set_remaining_slots.
    - intros _. apply keeps_bind; [apply rest_inv_trans | apply keeps_gets, rest_inv_refl |].
      intros live. destruct live; [|apply keeps_ret, rest_inv_refl].
      apply keeps_modify. intros c0. now apply rest_inv_log. }
  specialize (Hk (log_event call_reset_spellslots c)).
  destruct Hk as (Ho & Hn & Hs).
  intros c'. subst c'.
  change (reset_spellslots c)
    with ((for_each levels_1_to_9
             (fun level => mx <- get_max_spellslots level ;;
                           set_remaining_slots level mx false) >>
           (live <- gets live_integration ;;
            if live then modify (log_event sync_slots) else ret tt))
            (log_event call_reset_spellslots c)).
  rewrite Ho, Hn, Hs, slot_resets_log. now rewrite bool_decide_eq_true_2.
Qed.

Lemma on_hp_labels c l c' :
  on_hp roll c = (inr l, c') ->
  forall n, In n l -> n = "Death Saves" \/ In n (map fst (custom c)).
Proof.
  unfold on_hp. intros H n Hin.
  apply bind_inr_inv in H. destruct H as (names & c1 & Hsweep & H).
  pose proof (reset_custom_names_incl roll _ _ _ _ Hsweep) as Hincl.
  unfold bind, get_current_hp, gets in H.
  destruct (0 <? hp c1); simpl in H; injection H as <- <-.
  - apply in_app_iff in Hin. destruct Hin as [Hin|[<-|[]]]; auto.
  - auto.
Qed.

Lemma get_setting_run setting dflt c :
  get_setting setting dflt c = (inr (default dflt (options c !! setting)), c).
Proof. reflexivity. Qed.

(** [short_rest], when it returns: the labels of [on_hp] and of the sweep of
    the 'short' scoped counters, then "Spell Slots" with one slot reset when
    srslots is on, and no slot reset when it is off. *)
Lemma short_rest_inv c l c' :
  short_rest roll c = (inr l, c') ->
  options c' = options c /\
  map fst (custom c') = map fst (custom c) /\
  exists l0,
    (forall n, In n l0 -> n = "Death Saves" \/ In n (map fst (custom c))) /\
    if srslots_enabled c
    then l = l0 ++ ["Spell Slots"] /\ slot_resets c' = (slot_resets c + 1)%nat
    else l = l0 /\ slot_resets c' = slot_resets c.
Proof.
  unfold short_rest. intros H.
  apply bind_inr_inv in H. destruct H as (l1 & c1 & Hhp & H).
  apply bind_inr_inv in H. destruct H as (l2 & c2 & Hsw & H).
  apply bind_inr_inv in H. destruct H as (sr & c3 & Hset & H).
  rewrite get_setting_run in Hset. injection Hset as <- <-.
  pose proof (keeps_rest_inv_on_hp c) as (Ho1 & Hn1 & Hs1). rewrite Hhp in Ho1, Hn1, Hs1.
  pose proof (same_sheet_rest_inv _ _ (keeps_reset_custom roll (Some "short") c1))
    as (Ho2 & Hn2 & Hs2).
  rewrite Hsw in Ho2, Hn2, Hs2. simpl in *.
  assert (Hl : forall n, In n (l1 ++ l2) -> n = "Death Saves" \/ In n (map fst (custom c))).
  { intros n Hin. apply in_app_iff in Hin. destruct Hin as [Hin|Hin].
    - eapply on_hp_labels; eauto.
    - right. rewrite <- Hn1. eapply reset_custom_names_incl; eauto. }
  unfold srslots_enabled. rewrite <- Ho1, <- Ho2.
  destruct (truthy (default (PyBool false) (options c2 !! "srslots"))).
  - apply bind_inr_inv in H. destruct H as ([] & c4 & Hrs & H).
    unfold ret in H. injection H as <- <-.
    pose proof (reset_spellslots_counts c2) as (Ho3 & Hn3 & Hs3).
    rewrite Hrs in Ho3, Hn3, Hs3. simpl in *.
    split; [congruence|]. split; [congruence|].
    exists (l1 ++ l2). split; [exact Hl|]. split; [reflexivity|]. congruence.
  - unfold ret in H. injection H as <- <-.
    split; [congruence|]. split; [congruence|].
    exists (l1 ++ l2). split; [exact Hl|]. split; [reflexivity|]. congruence.
Qed.

Lemma count_occ_once (x : string) (A B : list string) :
  ~ In x A -> ~ In x B -> count_occ string_dec (A ++ x :: B) x = 1%nat.
Proof.
  intros HA HB. rewrite count_occ_app. simpl.
  destruct (string_dec x x) as [_|Hne]; [|contradiction].
  apply (count_occ_not_In string_dec) in HA. apply (count_occ_not_In string_dec) in HB.
  rewrite HA, HB. reflexivity.
Qed.

Lemma label_not_in (x : string) (names l : list string) :
  x <> "Death Saves" ->
  ~ In x names ->
  (forall n, In n l -> n = "Death Saves" \/ In n names) ->
  ~ In x l.
Proof. intros Hx Hn Hl Hin. destruct (Hl _ Hin); contradiction. Qed.

(** C7, as amended.  A call of [long_rest] that returns has entered
    [reset_spellslots] exactly once: inside the embedded [short_rest] when
    srslots is on, and in its own tail when srslots is off.  Its list is the
    labels of [on_hp], those of [short_rest], the names of the 'long' scoped
    counters and "HP", with the label "Spell Slots" appended once, by
    [short_rest] or by the tail; every other entry is "Death Saves", "HP" or
    the name of a counter.  So "Spell Slots" occurs exactly once in the list
    when no counter bears that name. *)
Theorem long_rest_resets_slots_once c labels c' :
  long_rest roll c = (inr labels, c') ->
  slot_resets c' = (slot_resets c + 1)%nat /\
  (~ In "Spell Slots" (map fst (custom c)) ->
   count_occ string_dec labels "Spell Slots" = 1%nat) /\
  exists l_hp c0 l_sr c1 l_long,
    on_hp roll c = (inr l_hp, c0) /\
    short_rest roll c0 = (inr l_sr, c1) /\
    (forall n, In n (l_hp ++ l_long) -> n = "Death Saves" \/ In n (map fst (custom c))) /\
    if srslots_enabled c
    then (exists l0, l_sr = l0 ++ ["Spell Slots"] /\
                     forall n, In n l0 -> n = "Death Saves" \/ In n (map fst (custom c))) /\
         slot_resets c1 = (slot_resets c0 + 1)%nat /\
         slot_resets c' = slot_resets c1 /\
         labels = l_hp ++ l_sr ++ l_long ++ ["HP"]
    else (forall n, In n l_sr -> n = "Death Saves" \/ In n (map fst (custom c))) /\
         slot_resets c1 = slot_resets c0 /\
         slot_resets c' = (slot_resets c1 + 1)%nat /\
         labels = l_hp ++ l_sr ++ l_long ++ ["HP"; "Spell Slots"].
Proof.
  unfold long_rest. intros H.
  apply bind_inr_inv in H. destruct H as (l_hp & c0 & Hhp & H).
  apply bind_inr_inv in H. destruct H as (l_sr & c1 & Hsr & H).
  apply bind_inr_inv in H. destruct H as (l_long & c2 & Hsw & H).
  apply bind_inr_inv in H. destruct H as ([] & c3 & Hrh & H).
  apply bind_inr_inv in H. destruct H as (sr & c4 & Hset & H).
  rewrite get_setting_run in Hset. injection Hset as <- <-.
  pose proof (keeps_rest_inv_on_hp c) as (Ho0 & Hn0 & Hs0). rewrite Hhp in Ho0, Hn0, Hs0.
  pose proof (short_rest_inv c0 l_sr c1 Hsr) as (Ho1 & Hn1 & l0 & Hl0 & Hbranch).
  pose proof (same_sheet_rest_inv _ _ (keeps_reset_custom roll (Some "long") c1))
    as (Ho2 & Hn2 & Hs2).
  rewrite Hsw in Ho2, Hn2, Hs2.
  pose proof (keeps_rest_inv_reset_hp c2) as (Ho3 & Hn3 & Hs3). rewrite Hrh in Ho3, Hn3, Hs3.
  simpl in *.
  pose proof (on_hp_labels c l_hp c0 Hhp) as Hlhp.
  assert (Hllong : forall n, In n l_long -> In n (map fst (custom c))).
  { intros n Hin. rewrite <- Hn0, <- Hn1. eapply reset_custom_names_incl; eauto. }
  assert (Hl0' : forall n, In n l0 -> n = "Death Saves" \/ In n (map fst (custom c))).
  { intros n Hin. rewrite <- Hn0. now apply Hl0. }
  assert (Hside : forall n, In n (l_hp ++ l_long) ->
                            n = "Death Saves" \/ In n (map fst (custom c))).
  { intros n Hin. apply in_app_iff in Hin. destruct Hin as [Hin|Hin]; auto. }
  assert (Hen : srslots_enabled c0 = srslots_enabled c)
    by (unfold srslots_enabled; now rewrite Ho0).
  assert (Hen3 : truthy (default (PyBool false) (options c3 !! "srslots")) = srslots_enabled c)
    by (unfold srslots_enabled; congruence).
  rewrite Hen in Hbranch. rewrite Hen3 in H.
  destruct (srslots_enabled c); simpl in H.
  - destruct Hbranch as [-> Hs1]. unfold ret in H. injection H as <- <-.
    split; [congruence|]. split.
    + intros Hfree.
      replace (((l_hp ++ l0 ++ ["Spell Slots"]) ++ l_long) ++ ["HP"])
        with ((l_hp ++ l0) ++ "Spell Slots" :: (l_long ++ ["HP"]))
        by (now rewrite <- !app_assoc).
      apply count_occ_once.
      * intros Hin. apply in_app_iff in Hin. destruct Hin as [Hin|Hin].
        -- revert Hin. now apply (label_not_in _ (map fst (custom c))).
        -- revert Hin. now apply (label_not_in _ (map fst (custom c))).
      * intros Hin. apply in_app_iff in Hin. destruct Hin as [Hin|[Hin|[]]].
        -- apply Hfree. now apply Hllong.
        -- discriminate.
    + exists l_hp, c0, (l0 ++ ["Spell Slots"]), c1, l_long.
      split; [exact Hhp|]. split; [exact Hsr|]. split; [exact Hside|].
      split; [now exists l0|]. split; [exact Hs1|]. split; [congruence|].
      now rewrite <- !app_assoc.
  - destruct Hbranch as [-> Hs1].
    apply bind_inr_inv in H. destruct H as ([] & c5 & Hrs & H).
    unfold ret in H. injection H as <- <-.
    pose proof (reset_spellslots_counts c3) as (Ho4 & Hn4 & Hs4).
    rewrite Hrs in Ho4, Hn4, Hs4. simpl in *.
    split; [congruence|]. split.
    + intros Hfree.
      replace ((((l_hp ++ l0) ++ l_long) ++ ["HP"]) ++ ["Spell Slots"])
        with ((l_hp ++ l0 ++ l_long ++ ["HP"]) ++ "Spell Slots" :: [])
        by (now rewrite <- !app_assoc).
      apply count_occ_once; [|intros []].
      intros Hin. apply in_app_iff in Hin. destruct Hin as [Hin|Hin].
      { revert Hin. now apply (label_not_in _ (map fst (custom c))). }
      apply in_app_iff in Hin. destruct Hin as [Hin|Hin].
      { revert Hin. now apply (label_not_in _ (map fst (custom c))). }
      apply in_app_iff in Hin. destruct Hin as [Hin|[Hin|[]]].
      * apply Hfree. now apply Hllong.
      * discriminate.
    + exists l_hp, c0, l0, c1, l_long.
      split; [exact Hhp|]. split; [exact Hsr|]. split; [exact Hside|].
      split; [exact Hl0'|]. split; [exact Hs1|]. split; [congruence|].
      now rewrite <- !app_assoc.
Qed.

End RestFacts.

Section SlotFacts.

Lemma level_checks level :
  1 <= level <= 9 ->
  ((0 <=? level) && (level <? 10) = true) /\
  ((0 <? level) && (level <? 10) = true) /\
  (level =? 0) = false.
Proof.
  intros H. repeat split.
  - apply andb_true_iff. split; [apply Z.leb_le | apply Z.ltb_lt]; lia.
  - apply andb_true_iff. split; apply Z.ltb_lt; lia.
  - apply Z.eqb_neq. lia.
Qed.

Lemma get_remaining_slots_pool level mx mn v c :
  1 <= level <= 9 -> pool_at level mx mn v c ->
  get_remaining_slots level c = (inr v, c).
Proof.
  intros Hl (sb & ss & slot & Hsb & Hmx & Hss & Hslot & Hv & Hmin).
  destruct (level_checks level Hl) as (H1 & _ & H3).
  unfold get_remaining_slots. rewrite H1, H3. simpl.
  unfold bind, get_spellslots, slot_at. rewrite Hss, Hslot. unfold ret. now rewrite Hv.
Qed.

(** A call on a pool that holds at least one slot, more than its minimum and
    no more than one above the maximum, returns and leaves one slot less. *)
Lemma use_slot_step level mx mn v c :
  1 <= level <= 9 -> pool_at level mx mn v c -> Z.max 0 mn + 1 <= v <= mx + 1 ->
  exists c', use_slot level c = (inr tt, c') /\ pool_at level mx mn (v - 1) c'.
Proof.
  intros Hl (sb & ss & slot & Hsb & Hmx & Hss & Hslot & Hv & Hmin) Hrange.
  destruct (level_checks level Hl) as (H1 & H2 & H3).
  unfold use_slot. rewrite H1, H3. simpl.
  unfold bind at 1. unfold get_spellslots at 1. rewrite Hss.
  unfold bind at 1. unfold slot_at at 1. rewrite Hslot. unfold ret at 1.
  assert (Hge : (slot_value slot - 1 <? slot_min slot) = false) by (apply Z.ltb_ge; lia).
  rewrite Hge.
  unfold set_remaining_slots. rewrite H2. simpl.
  assert (Hnn : (0 <=? slot_value slot - 1) = true) by (apply Z.leb_le; lia).
  rewrite Hnn. simpl.
  unfold bind at 1. unfold get_max_spellslots. rewrite Hsb, Hmx.
  assert (Hle : (slot_value slot - 1 <=? mx) = true) by (apply Z.leb_le; lia).
  rewrite Hle. simpl.
  unfold bind, _initialize_spellslots, modify, get_spellslots, slot_at, gets, ret.
  rewrite Hss. simpl. rewrite Hss, Hslot. simpl.
  destruct (live_integration c); simpl; eexists; (split; [reflexivity|]);
    exists sb, (<[str_of_int level := {| slot_value := slot_value slot - 1;
                                         slot_min := slot_min slot |}]> ss),
           {| slot_value := slot_value slot - 1; slot_min := slot_min slot |};
    simpl; rewrite lookup_insert_eq; subst v; repeat split; assumption.
Qed.

(** A call on a pool that holds no slot, or no more than its minimum, raises
    CounterOutOfBounds and changes nothing. *)
Lemma use_slot_empty level mx mn v c :
  1 <= level <= 9 -> pool_at level mx mn v c -> v <= Z.max 0 mn ->
  use_slot level c = (inl CounterOutOfBounds, c).
Proof.
  intros Hl (sb & ss & slot & Hsb & Hmx & Hss & Hslot & Hv & Hmin) Hrange.
  destruct (level_checks level Hl) as (H1 & H2 & H3).
  unfold use_slot. rewrite H1, H3. simpl.
  unfold bind at 1. unfold get_spellslots at 1. rewrite Hss.
  unfold bind at 1. unfold slot_at at 1. rewrite Hslot. unfold ret at 1.
  destruct (slot_value slot - 1 <? slot_min slot) eqn:E; [reflexivity|].
  apply Z.ltb_ge in E.
  unfold set_remaining_slots. rewrite H2. simpl.
  assert (Hneg : (0 <=? slot_value slot - 1) = false) by (apply Z.leb_gt; lia).
  now rewrite Hneg.
Qed.

Lemma repeat_use_slot level mx mn (k : nat) : forall v c,
  1 <= level <= 9 -> pool_at level mx mn v c ->
  Z.of_nat k <= v - Z.max 0 mn -> v <= mx ->
  exists ck, repeat_m k (use_slot level) c = (inr tt, ck) /\
             pool_at level mx mn (v - Z.of_nat k) ck.
Proof.
  induction k as [|k IH]; intros v c Hl Hpool Hk Hv.
  - exists c. split; [reflexivity|]. now rewrite Z.sub_0_r.
  - destruct (use_slot_step level mx mn v c Hl Hpool) as (c1 & Hrun & Hpool1); [lia|].
    destruct (IH (v - 1) c1 Hl Hpool1) as (ck & Hrep & Hpoolk); [lia | lia |].
    exists ck. split.
    + simpl. rewrite (bind_inr _ _ c tt c1 Hrun). exact Hrep.
    + replace (v - Z.of_nat (S k)) with (v - 1 - Z.of_nat k) by lia. exact Hpoolk.
Qed.

(** C8, as amended.  On a character with a spellbook whose pool of a level
    from 1 to 9 is full, with [mx] slots and the stored minimum [mn], the
    pool can be used [mx - max(0, mn)] times: for every [k] up to that
    number, [k] calls of [use_slot] in a row all return and leave [mx - k]
    slots; after that many calls the next call raises CounterOutOfBounds and
    changes nothing.  With a minimum that is not above 0 the number of uses
    is the maximum [mx].  Any number of calls of [use_slot 0] return and
    leave the character as it was. *)
Theorem use_slot_exhausts_pool level mx mn c :
  1 <= level <= 9 ->
  pool_at level mx mn mx c ->
  let uses := mx - Z.max 0 mn in
  (forall k : nat, Z.of_nat k <= uses ->
     exists ck, repeat_m k (use_slot level) c = (inr tt, ck) /\
                get_remaining_slots level ck = (inr (mx - Z.of_nat k), ck)) /\
  (exists cm, repeat_m (Z.to_nat uses) (use_slot level) c = (inr tt, cm) /\
              use_slot level cm = (inl CounterOutOfBounds, cm) /\
              get_remaining_slots level cm = (inr (mx - Z.of_nat (Z.to_nat uses)), cm)) /\
  (mn <= 0 -> uses = mx) /\
  (forall (n : nat) c0, repeat_m n (use_slot 0) c0 = (inr tt, c0)).
Proof.
  intros Hl Hpool uses. split; [|split; [|split]].
  - intros k Hk.
    destruct (repeat_use_slot level mx mn k mx c Hl Hpool) as (ck & Hrep & Hpoolk);
      [exact Hk | lia |].
    exists ck. split; [exact Hrep|]. now apply (get_remaining_slots_pool level mx mn).
  - destruct (Z_lt_le_dec uses 0) as [Hneg|Hnn].
    + assert (Hz : Z.to_nat uses = 0%nat) by lia. rewrite Hz.
      exists c. split; [reflexivity|]. split.
      * apply (use_slot_empty level mx mn mx); [assumption..|unfold uses in Hneg; lia].
      * simpl. rewrite Z.sub_0_r. now apply (get_remaining_slots_pool level mx mn).
    + destruct (repeat_use_slot level mx mn (Z.to_nat uses) mx c Hl Hpool)
        as (cm & Hrep & Hpoolm); [fold uses; lia | lia |].
      exists cm. split; [exact Hrep|]. split.
      * apply (use_slot_empty level mx mn (mx - Z.of_nat (Z.to_nat uses)));
          [assumption..|unfold uses in *; lia].
      * now apply (get_remaining_slots_pool level mx mn).
  - unfold uses. lia.
  - intros n c0. induction n as [|n IH]; [reflexivity|].
    simpl. unfold bind. simpl. exact IH.
Qed.

End SlotFacts.

Section HpFacts.

Variable roll : string -> Z.



End HpFacts.

Section SweepReturns.

Variable roll : string -> Z.

(** The live sheet branch of [set_consumable]: the value is stored, then the
    unbound name [counter] is evaluated. *)
Lemma set_consumable_live_sync_raises name v c cnt lo hi :
  dict_get name (custom c) = Some cnt ->
  resolve roll c (default default_min (cc_min cnt)) = Some lo ->
  resolve roll c (default default_max (cc_max cnt)) = Some hi ->
  str_truthy (cc_live cnt) && live_integration c = true ->
  exists c',
    set_consumable roll name v false c = (inl (NameError "counter"), c') /\
    get_consumable_value name c' = (inr (Z.min (Z.max lo v) hi), c').
Proof.
  intros Hget Hlo Hhi Hlive.
  rewrite (set_consumable_run roll name v false c cnt lo hi Hget Hlo Hhi). simpl.
  rewrite Hlive. eexists. split; [reflexivity|].
  apply (get_consumable_value_run name _ (with_value (Z.min (Z.max lo v) hi) cnt)).
  simpl. apply dict_get_set_same.
Qed.

Lemma resolve_is_Some c varstr : is_Some (spellbook c) -> is_Some (resolve roll c varstr).
Proof. intros [sb Hsb]. unfold resolve. rewrite Hsb. eauto. Qed.

Lemma reset_consumable_returns scope items name c cnt0 :
  sweepable scope items c ->
  dict_get name (custom c) = Some cnt0 ->
  cc_reset cnt0 <> Some "none" ->
  is_Some (cc_max cnt0) ->
  str_truthy (cc_live cnt0) && live_integration c = false ->
  exists c', reset_consumable roll name c = (inr tt, c') /\ sweepable scope items c'.
Proof.
  intros [Hsb Hitems] Hget Hscope [mx Hmx] Hlive.
  rewrite (reset_consumable_run roll name c cnt0 Hget).
  rewrite bool_decide_eq_false_2 by exact Hscope. rewrite Hmx.
  destruct (resolve_is_Some c mx Hsb) as [top Htop].
  rewrite (bind_inr _ _ c top (with_spell_var c)) by (now rewrite evaluate_cvar_run, Htop).
  assert (Hsb' : is_Some (spellbook (with_spell_var c)))
    by (now rewrite (ss_spellbook _ _ (with_spell_var_same_sheet c))).
  destruct (resolve_is_Some (with_spell_var c) (default default_min (cc_min cnt0)) Hsb')
    as [lo Hlo].
  destruct (resolve_is_Some (with_spell_var c) (default default_max (cc_max cnt0)) Hsb')
    as [hi Hhi].
  assert (Hget' : dict_get name (custom (with_spell_var c)) = Some cnt0)
    by (now rewrite with_spell_var_custom).
  rewrite (set_consumable_run roll name top false _ cnt0 lo hi Hget' Hlo Hhi). simpl.
  rewrite with_spell_var_live, Hlive, with_spell_var_idem, with_spell_var_custom.
  eexists. split; [reflexivity|]. split.
  - simpl. now rewrite (ss_spellbook _ _ (with_spell_var_same_sheet c)).
  - intros n cnt Hin Hsc. destruct (Hitems n cnt Hin Hsc) as (cnt1 & Hg & Hs & Hm & Hl).
    simpl. rewrite with_spell_var_live.
    destruct (String.eqb name n) eqn:E.
    + apply String.eqb_eq in E. subst n. rewrite Hget in Hg. injection Hg as <-.
      exists (with_value (Z.min (Z.max lo top) hi) cnt0).
      split; [apply dict_get_set_same|]. now repeat split.
    + apply String.eqb_neq in E. exists cnt1.
      split; [now rewrite dict_get_set_other|]. now repeat split.
Qed.

Lemma reset_custom_items_returns scope items : forall acc c,
  sweepable scope items c ->
  exists c',
    reset_custom_items roll scope items acc c
    = (inr (acc ++ map fst (List.filter (in_scope scope) items)), c').
Proof.
  induction items as [|[name value] items IH]; intros acc c Hsw; simpl.
  - exists c. unfold ret. now rewrite app_nil_r.
  - assert (Htail : sweepable scope items c).
    { destruct Hsw as [Hsb Hitems]. split; [exact Hsb|].
      intros n cnt Hin. apply Hitems. now right. }
    unfold in_scope at 1. simpl.
    destruct (bool_decide (cc_reset value = scope)) eqn:E.
    + apply bool_decide_eq_true_1 in E.
      destruct Hsw as [Hsb Hitems].
      destruct (Hitems name value (or_introl eq_refl) E) as (cnt0 & Hg & Hs & Hm & Hl).
      destruct (reset_consumable_returns scope items name c cnt0 Htail Hg Hs Hm Hl)
        as (c1 & Hrun & Hsw1).
      rewrite Hrun. destruct (IH (acc ++ [name]) c1 Hsw1) as (c' & Hrest).
      exists c'. rewrite Hrest. simpl. now rewrite <- app_assoc.
    + now apply IH.
Qed.

(** A sweep returns, with the names of the counters of the scope in dict
    order, when the character has a spellbook, the keys of the dict are
    distinct, and every counter of the scope has a maximum, is not scoped
    'none' and does not reach the live sync. *)
Lemma reset_custom_returns scope c :
  is_Some (spellbook c) ->
  NoDup (map fst (custom c)) ->
  (forall name cnt, In (name, cnt) (custom c) -> cc_reset cnt = scope ->
     cc_reset cnt <> Some "none" /\ is_Some (cc_max cnt) /\
     str_truthy (cc_live cnt) && live_integration c = false) ->
  exists c',
    _reset_custom roll scope c
    = (inr (map fst (List.filter (in_scope scope) (custom c))), c').
Proof.
  intros Hsb Hnd Hall. unfold _reset_custom, bind, gets.
  apply (reset_custom_items_returns scope (custom c) [] c).
  split; [exact Hsb|]. intros name cnt Hin Hsc.
  exists cnt. split; [|now apply (Hall name)].
  clear Hall Hsb Hsc. induction (custom c) as [|[k v] d IH]; [destruct Hin|].
  simpl in *. inversion Hnd as [|? ? Hnotin Hnd']. subst.
  destruct Hin as [[= -> ->]|Hin].
  - now rewrite String.eqb_refl.
  - destruct (String.eqb k name) eqn:E; [|now apply IH].
    apply String.eqb_eq in E. subst k. exfalso. apply Hnotin.
    apply list_elem_of_In, in_map_iff. now exists (name, cnt).
Qed.

End SweepReturns.

(** ** The theorems on the sample characters, and the inputs at which the
    claims as first stated fail *)

(** C1 at an input where it fails: a counter created with only a minimum
    above the default maximum.  The call returns and stores the default
    maximum, which is below the resolved minimum. *)
Lemma set_consumable_nonstrict_min_above_max :
  create_consumable roll_literal "Debt" debt_kwargs sample = (inr tt, debt_sheet) /\
  dict_get "Debt" (custom debt_sheet) = Some (debt_counter 0) /\
  exists c',
    set_consumable roll_literal "Debt" 0 false debt_sheet = (inr tt, c') /\
    resolve roll_literal c' (default default_min (cc_min (debt_counter 0))) = Some 5000000000 /\
    resolve roll_literal c' (default default_max (cc_max (debt_counter 0))) = Some 4294967295 /\
    get_consumable_value "Debt" c' = (inr 4294967295, c') /\
    ~ (5000000000 <= 4294967295 <= 4294967295).
Proof.
  split; [vm_compute; reflexivity|]. split; [reflexivity|].
  eexists. split; [vm_compute; reflexivity|].
  split; [vm_compute; reflexivity|]. split; [vm_compute; reflexivity|].
  split; [vm_compute; reflexivity|]. lia.
Qed.

Lemma set_consumable_nonstrict_clamps_witness :
  let c := sheet_with "Rage" (scoped_counter 0 (Some "long")) in
  dict_get "Rage" (custom c) = Some (scoped_counter 0 (Some "long")) /\
  resolve roll_literal c "0" = Some 0 /\
  resolve roll_literal c "3" = Some 3 /\
  exists c' cur,
    set_consumable roll_literal "Rage" 7 false c = (inr tt, c') /\
    get_consumable_value "Rage" c' = (inr cur, c') /\
    cur = 3 /\ 0 <= cur <= 3.
Proof.
  intros c.
  split; [reflexivity|]. split; [vm_compute; reflexivity|]. split; [vm_compute; reflexivity|].
  destruct (set_consumable_nonstrict_clamps roll_literal "Rage" 7 c
              (scoped_counter 0 (Some "long")) 0 3)
    as (c' & cur & Hrun & Hval & _ & _ & Hcur & _ & Hrange);
    [reflexivity | vm_compute; reflexivity | vm_compute; reflexivity | reflexivity |].
  exists c', cur. split; [exact Hrun|]. split; [exact Hval|].
  split; [rewrite Hcur; reflexivity | apply Hrange; lia].
Defined.

(** C2 at an input where it fails: on a character without a spellbook the
    strict call raises OutdatedSheet, which is neither of the two outcomes
    of the claim. *)
Lemma set_consumable_strict_outdated_sheet :
  let c := outdated (sheet_with "Rage" (scoped_counter 1 (Some "long"))) in
  dict_get "Rage" (custom c) = Some (scoped_counter 1 (Some "long")) /\
  set_consumable roll_literal "Rage" 2 true c = (inl OutdatedSheet, c).
Proof. split; vm_compute; reflexivity. Qed.

Lemma set_consumable_strict_rejects_or_stores_witness :
  let c := sheet_with "Rage" (scoped_counter 1 (Some "long")) in
  dict_get "Rage" (custom c) = Some (scoped_counter 1 (Some "long")) /\
  resolve roll_literal c "0" = Some 0 /\
  resolve roll_literal c "3" = Some 3 /\
  exists c',
    set_consumable roll_literal "Rage" 7 true c = (inl CounterOutOfBounds, c') /\
    get_consumable_value "Rage" c' = (inr 1, c').
Proof.
  intros c.
  split; [reflexivity|]. split; [vm_compute; reflexivity|]. split; [vm_compute; reflexivity|].
  destruct (set_consumable_strict_rejects_or_stores roll_literal "Rage" 7 c
              (scoped_counter 1 (Some "long")) 0 3)
    as (c' & [(_ & Hrun & Hval)|(Hin & _)]);
    [reflexivity | vm_compute; reflexivity | vm_compute; reflexivity | reflexivity | | lia].
  exists c'. split; [exact Hrun | exact Hval].
Defined.

(** C3 at an input where it fails: a counter with a maximum and no reset
    scope is reset to its maximum, where the claim has the call fail. *)
Lemma reset_consumable_unset_scope_resets :
  let c := sheet_with "Rage" (scoped_counter 0 None) in
  dict_get "Rage" (custom c) = Some (scoped_counter 0 None) /\
  cc_reset (scoped_counter 0 None) = None /\
  reset_consumable roll_literal "Rage" c
  = (inr tt, sheet_with "Rage" (scoped_counter 3 None)).
Proof. repeat split. Qed.

Lemma reset_consumable_cases_witness :
  let c := sheet_with "Rage" (scoped_counter 0 (Some "none")) in
  let d := sheet_with "Rage" (scoped_counter 0 (Some "long")) in
  dict_get "Rage" (custom c) = Some (scoped_counter 0 (Some "none")) /\
  (exists e, reset_consumable roll_literal "Rage" c = (inl e, c)) /\
  dict_get "Rage" (custom d) = Some (scoped_counter 0 (Some "long")) /\
  resolve roll_literal d "3" = Some 3 /\
  reset_consumable roll_literal "Rage" d
  = set_consumable roll_literal "Rage" 3 false (with_spell_var d) /\
  (exists d',
     reset_consumable roll_literal "Rage" d = (inr tt, d') /\
     get_consumable_value "Rage" d' = (inr 3, d')) /\
  reset_consumable roll_literal "Rage" (outdated d) = (inl OutdatedSheet, outdated d).
Proof.
  intros c d. split; [reflexivity|]. split.
  - apply (proj1 (reset_consumable_cases roll_literal "Rage" c
                    (scoped_counter 0 (Some "none")) eq_refl)).
    left. reflexivity.
  - split; [reflexivity|].
    assert (Hres : resolve roll_literal d "3" = Some 3) by (vm_compute; reflexivity).
    split; [exact Hres|].
    destruct (proj2 (reset_consumable_cases roll_literal "Rage" d
                       (scoped_counter 0 (Some "long")) eq_refl) "3")
      as (_ & Hstep & Hval & _); [discriminate | reflexivity |].
    split; [apply Hstep, Hres|]. split; [apply (Hval 3 Hres); reflexivity|].
    destruct (proj2 (reset_consumable_cases roll_literal "Rage" (outdated d)
                       (scoped_counter 0 (Some "long")) eq_refl) "3")
      as (_ & _ & _ & Hout); [discriminate | reflexivity |].
    apply Hout. reflexivity.
Defined.

(** C4 at an input where it fails: a maximum that resolves to 0, given
    without a minimum, is accepted and the counter is stored. *)
Lemma create_consumable_zero_max_accepted :
  maxValue gold_kwargs = Some "0" /\
  resolve roll_literal sample "0" = Some 0 /\
  create_consumable roll_literal "Gold" gold_kwargs sample = (inr tt, gold_sheet) /\
  dict_get "Gold" (custom gold_sheet)
  = Some {| cc_value := 0; cc_max := Some "0"; cc_min := None; cc_reset := None;
            cc_type := None; cc_live := None |}.
Proof. repeat split; vm_compute; reflexivity. Qed.

Lemma create_consumable_rejects_bad_bounds_witness :
  let kw := {| maxValue := Some "0"; minValue := Some "-5"; reset_kw := None;
               displayType := None; live_kw := None |} in
  resolve roll_literal sample "0" = Some 0 /\
  resolve roll_literal sample "-5" = Some (-5) /\
  exists msg c',
    create_consumable roll_literal "Gold" kw sample = (inl (InvalidArgument msg), c') /\
    custom c' = custom sample.
Proof.
  intros kw. split; [vm_compute; reflexivity|]. split; [vm_compute; reflexivity|].
  apply (create_consumable_rejects_bad_bounds roll_literal "Gold" kw sample "0" "-5" 0 (-5));
    [reflexivity | reflexivity | vm_compute; reflexivity | vm_compute; reflexivity
    | left; reflexivity].
Defined.

(** C6 at an input where it fails: at 0 hit points the list holds "Death
    Saves", as the name of an 'hp' scoped counter that was reset. *)
Lemma on_hp_lists_counter_named_death_saves :
  hp downed_sheet = 0 /\
  exists c',
    on_hp roll_literal downed_sheet = (inr ["Death Saves"], c') /\
    In "Death Saves" ["Death Saves"] /\
    death_saves c' = death_saves downed_sheet.
Proof.
  split; [reflexivity|]. eexists. split; [vm_compute; reflexivity|].
  split; [now left | reflexivity].
Qed.

Lemma on_hp_death_saves_witness :
  _reset_custom roll_literal (Some "hp") sample = (inr [], sample) /\
  0 < hp sample /\
  on_hp roll_literal sample
  = (inr ["Death Saves"],
     with_death_saves {| DeathSaves.successes := 0; DeathSaves.fails := 0 |} sample).
Proof.
  split; [reflexivity|]. split; [reflexivity|].
  apply (proj1 (proj2 (on_hp_death_saves roll_literal sample [] sample eq_refl))).
  reflexivity.
Defined.

(** C7 at an input where it fails: with a 'long' scoped counter named
    "Spell Slots", as [create_consumable] stores it, the list of [long_rest]
    holds "Spell Slots" twice. *)
Lemma long_rest_lists_spell_slots_twice :
  create_consumable roll_literal "Spell Slots" slots_kwargs sample = (inr tt, slots_sheet) /\
  exists c',
    long_rest roll_literal slots_sheet
    = (inr ["Death Saves"; "Death Saves"; "Spell Slots"; "HP"; "Spell Slots"], c') /\
    count_occ string_dec ["Death Saves"; "Death Saves"; "Spell Slots"; "HP"; "Spell Slots"]
      "Spell Slots" = 2%nat.
Proof.
  split; [vm_compute; reflexivity|]. eexists. split; [vm_compute; reflexivity|].
  vm_compute. reflexivity.
Qed.

Lemma long_rest_resets_slots_once_witness :
  let c := with_srslots sample in
  let c' := snd (long_rest roll_literal c) in
  long_rest roll_literal c = (inr ["Death Saves"; "Death Saves"; "Spell Slots"; "HP"], c') /\
  slot_resets c' = (slot_resets c + 1)%nat /\
  count_occ string_dec ["Death Saves"; "Death Saves"; "Spell Slots"; "HP"] "Spell Slots"
  = 1%nat.
Proof.
  intros c c'.
  assert (Hrun : long_rest roll_literal c
                 = (inr ["Death Saves"; "Death Saves"; "Spell Slots"; "HP"], c'))
    by (vm_compute; reflexivity).
  split; [exact Hrun|].
  destruct (long_rest_resets_slots_once roll_literal c _ c' Hrun) as (Hcount & Hocc & _).
  split; [exact Hcount|]. apply Hocc. simpl. tauto.
Defined.

Lemma use_slot_exhausts_pool_witness :
  pool_at 1 2 0 2 sample /\
  exists cm,
    repeat_m 2 (use_slot 1) sample = (inr tt, cm) /\
    use_slot 1 cm = (inl CounterOutOfBounds, cm) /\
    get_remaining_slots 1 cm = (inr 0, cm).
Proof.
  assert (Hpool : pool_at 1 2 0 2 sample).
  { eexists _, _, {| slot_value := 2; slot_min := 0 |}.
    split; [reflexivity|]. split; [vm_compute; reflexivity|].
    split; [reflexivity|]. split; [vm_compute; reflexivity|].
    split; reflexivity. }
  split; [exact Hpool|].
  apply (proj1 (proj2 (use_slot_exhausts_pool 1 2 0 sample ltac:(lia) Hpool))).
Defined.

(** C8 at an input where it fails: a full pool of 2 slots whose stored
    minimum is 1 is used once; the second of the two calls raises
    CounterOutOfBounds and one slot is left. *)
Lemma use_slot_full_pool_with_minimum :
  pool_at 1 2 1 2 floor_sheet /\
  exists c1,
    use_slot 1 floor_sheet = (inr tt, c1) /\
    use_slot 1 c1 = (inl CounterOutOfBounds, c1) /\
    get_remaining_slots 1 c1 = (inr 1, c1) /\
    repeat_m 2 (use_slot 1) floor_sheet = (inl CounterOutOfBounds, c1).
Proof.
  split.
  - eexists _, _, {| slot_value := 2; slot_min := 1 |}.
    split; [reflexivity|]. split; [vm_compute; reflexivity|].
    split; [reflexivity|]. split; [vm_compute; reflexivity|].
    split; reflexivity.
  - eexists. split; [vm_compute; reflexivity|]. repeat split.
Qed.

(** C9 at an input where it fails: a request with reset scope 'hp' and a
    maximum is rejected with InvalidArgument, and nothing is stored. *)
Lemma create_consumable_rejects_hp_scope :
  reset_kw hp_kwargs = Some "hp" /\
  maxValue hp_kwargs = Some "3" /\
  create_consumable roll_literal "Second Wind" hp_kwargs sample
  = (inl (InvalidArgument "Invalid reset."), sample).
Proof. repeat split. Qed.


(** ** Further properties: spell slots *)

Lemma str_of_int_inj a b : str_of_int a = str_of_int b -> a = b.
Proof. unfold str_of_int. apply (inj pretty). Qed.

Lemma in_levels_1_to_9 level : In level levels_1_to_9 <-> 1 <= level <= 9.
Proof. unfold levels_1_to_9. simpl. lia. Qed.

Lemma set_remaining_slots_run level value sync c sb ss slot :
  1 <= level <= 9 ->
  spellbook c = Some sb ->
  spellslots c = Some ss ->
  ss !! str_of_int level = Some slot ->
  0 <= value <= default 0 (sb_spellslots sb !! str_of_int level) ->
  set_remaining_slots level value sync c
  = (inr tt,
     (if live_integration c && sync then log_event sync_slots else id)
       (with_spellslots
          (Some (<[str_of_int level := {| slot_value := value; slot_min := slot_min slot |}]> ss))
          c)).
Proof.
  intros Hl Hsb Hss Hslot Hv.
  destruct (level_checks level Hl) as (_ & H2 & _).
  unfold set_remaining_slots. rewrite H2. simpl.
  assert (Hnn : (0 <=? value) = true) by (apply Z.leb_le; lia).
  rewrite Hnn. simpl.
  unfold bind at 1. unfold get_max_spellslots. rewrite Hsb.
  assert (Hle : (value <=? default 0 (sb_spellslots sb !! str_of_int level)) = true)
    by (apply Z.leb_le; lia).
  rewrite Hle. simpl.
  unfold bind, _initialize_spellslots, modify, get_spellslots, slot_at, gets, ret.
  rewrite Hss. simpl. rewrite Hss, Hslot. simpl.
  now destruct (live_integration c && sync).
Qed.

Lemma slots_left_insert_same level v m ss c :
  slots_left level
    (with_spellslots (Some (<[str_of_int level := {| slot_value := v; slot_min := m |}]> ss)) c)
  = Some v.
Proof. unfold slots_left. simpl. now rewrite lookup_insert_eq. Qed.

Lemma slots_left_insert_other level level' sl ss c :
  level' <> level ->
  spellslots c = Some ss ->
  slots_left level' (with_spellslots (Some (<[str_of_int level := sl]> ss)) c)
  = slots_left level' c.
Proof.
  intros Hne Hss. unfold slots_left. simpl. rewrite Hss.
  rewrite lookup_insert_ne; [reflexivity|].
  intros H. apply str_of_int_inj in H. congruence.
Qed.

Lemma slots_left_log e c level : slots_left level (log_event e c) = slots_left level c.
Proof. reflexivity. Qed.

Lemma get_remaining_slots_left level c v :
  1 <= level <= 9 -> slots_left level c = Some v ->
  get_remaining_slots level c = (inr v, c).
Proof.
  intros Hl Hv. destruct (level_checks level Hl) as (H1 & _ & H3).
  unfold get_remaining_slots. rewrite H1, H3. simpl.
  unfold slots_left in Hv. destruct (spellslots c) as [ss|] eqn:Hss; [|discriminate].
  destruct (ss !! str_of_int level) as [slot|] eqn:Hslot; [|discriminate].
  injection Hv as <-.
  unfold bind, get_spellslots, slot_at, ret. now rewrite Hss, Hslot.
Qed.

(** X1.  Setting the slots left at a level from 1 to 9 to a value between 0 and
    the maximum of the level returns; the level then reads back the value,
    the other levels are as before, and hit points, death saves and counters
    are untouched. *)
Theorem set_remaining_slots_stores level value sync c mx :
  1 <= level <= 9 ->
  slots_max level c = Some mx ->
  0 <= value <= mx ->
  is_Some (slots_left level c) ->
  exists c',
    set_remaining_slots level value sync c = (inr tt, c') /\
    get_remaining_slots level c' = (inr value, c') /\
    (forall level', level' <> level -> slots_left level' c' = slots_left level' c) /\
    same_body c c' /\
    custom c' = custom c /\
    spellbook c' = spellbook c.
Proof.
  intros Hl Hmx Hv [v0 Hleft].
  unfold slots_max in Hmx. destruct (spellbook c) as [sb|] eqn:Hsb; [|discriminate].
  injection Hmx as <-.
  unfold slots_left in Hleft. destruct (spellslots c) as [ss|] eqn:Hss; [|discriminate].
  destruct (ss !! str_of_int level) as [slot|] eqn:Hslot; [|discriminate].
  rewrite (set_remaining_slots_run level value sync c sb ss slot Hl Hsb Hss Hslot Hv).
  eexists. split; [reflexivity|].
  destruct (live_integration c && sync); simpl.
  - split; [apply get_remaining_slots_left; [exact Hl|]; rewrite slots_left_log;
            apply slots_left_insert_same|].
    split; [|now repeat split].
    intros level' Hne. rewrite slots_left_log. now apply slots_left_insert_other.
  - split; [apply get_remaining_slots_left; [exact Hl|]; apply slots_left_insert_same|].
    split; [|now repeat split].
    intros level' Hne. now apply slots_left_insert_other.
Qed.

Lemma set_remaining_slots_negative level value sync c :
  1 <= level <= 9 -> value < 0 ->
  set_remaining_slots level value sync c = (inl CounterOutOfBounds, c).
Proof.
  intros Hl Hneg. unfold set_remaining_slots.
  destruct (level_checks level Hl) as (_ & H2 & _). rewrite H2. simpl.
  assert (H : (0 <=? value) = false) by (apply Z.leb_gt; lia). now rewrite H.
Qed.

Lemma set_remaining_slots_over level value sync c mx :
  1 <= level <= 9 -> 0 <= value -> slots_max level c = Some mx -> mx < value ->
  set_remaining_slots level value sync c = (inl CounterOutOfBounds, c).
Proof.
  intros Hl Hnn Hsb Hgt. unfold set_remaining_slots, slots_max in *.
  destruct (level_checks level Hl) as (_ & H2 & _). rewrite H2. simpl.
  assert (H : (0 <=? value) = true) by (apply Z.leb_le; lia). rewrite H. simpl.
  unfold bind, get_max_spellslots. destruct (spellbook c) as [sb|]; [|discriminate].
  injection Hsb as Hsb. rewrite Hsb.
  assert (H' : (value <=? mx) = false) by (apply Z.leb_gt; lia). now rewrite H'.
Qed.

(** X2.  What [set_remaining_slots] refuses, each time leaving the character as
    it was: a level outside 1 to 9 (InvalidSpellLevel, before anything else
    is looked at); a negative value (CounterOutOfBounds, even on a character
    without a spellbook); a value that is not negative on a character
    without a spellbook (OutdatedSheet); a value above the maximum of the
    level (CounterOutOfBounds). *)
Theorem set_remaining_slots_rejects level value sync c :
  (~ 1 <= level <= 9 ->
   set_remaining_slots level value sync c = (inl InvalidSpellLevel, c)) /\
  (1 <= level <= 9 -> value < 0 ->
   set_remaining_slots level value sync c = (inl CounterOutOfBounds, c)) /\
  (1 <= level <= 9 -> 0 <= value -> slots_max level c = None ->
   set_remaining_slots level value sync c = (inl OutdatedSheet, c)) /\
  (forall mx, 1 <= level <= 9 -> 0 <= value -> slots_max level c = Some mx -> mx < value ->
   set_remaining_slots level value sync c = (inl CounterOutOfBounds, c)).
Proof.
  unfold set_remaining_slots, slots_max. repeat split.
  - intros Hl.
    assert (H : (0 <? level) && (level <? 10) = false).
    { apply andb_false_iff.
      destruct (Z_lt_le_dec 0 level); [right; apply Z.ltb_ge; lia | left; apply Z.ltb_ge; lia]. }
    now rewrite H.
  - intros Hl Hneg. now apply set_remaining_slots_negative.
  - intros Hl Hnn Hsb. destruct (level_checks level Hl) as (_ & H2 & _). rewrite H2. simpl.
    assert (H : (0 <=? value) = true) by (apply Z.leb_le; lia). rewrite H. simpl.
    unfold bind, get_max_spellslots. now destruct (spellbook c).
  - intros mx Hl Hnn Hsb Hgt. now apply (set_remaining_slots_over level value sync c mx).
Qed.


Lemma reset_spellslots_unfold c :
  reset_spellslots c
  = (for_each levels_1_to_9 reset_level >>
     (live <- gets live_integration ;;
      if live then modify (log_event sync_slots) else ret tt))
      (log_event call_reset_spellslots c).
Proof. reflexivity. Qed.

Lemma reset_level_ok level c sb :
  1 <= level <= 9 ->
  spellbook c = Some sb ->
  ledger_complete c ->
  0 <= default 0 (sb_spellslots sb !! str_of_int level) ->
  exists c1,
    reset_level level c = (inr tt, c1) /\
    spellbook c1 = Some sb /\
    ledger_complete c1 /\
    slots_left level c1 = Some (default 0 (sb_spellslots sb !! str_of_int level)) /\
    (forall level', level' <> level -> slots_left level' c1 = slots_left level' c) /\
    same_body c c1 /\
    custom c1 = custom c /\
    live_integration c1 = live_integration c.
Proof.
  intros Hl Hsb Hcomplete Hnn.
  destruct (Hcomplete level Hl) as [v0 Hleft].
  unfold slots_left in Hleft. destruct (spellslots c) as [ss|] eqn:Hss; [|discriminate].
  destruct (ss !! str_of_int level) as [slot|] eqn:Hslot; [|discriminate].
  unfold reset_level.
  rewrite (bind_inr _ _ c (default 0 (sb_spellslots sb !! str_of_int level)) c)
    by (unfold get_max_spellslots; now rewrite Hsb).
  rewrite (set_remaining_slots_run level _ false c sb ss slot Hl Hsb Hss Hslot)
    by lia.
  rewrite andb_false_r. simpl.
  eexists. split; [reflexivity|]. split; [exact Hsb|].
  assert (Hother : forall level', level' <> level ->
            slots_left level'
              (with_spellslots
                 (Some (<[str_of_int level :=
                            {| slot_value := default 0 (sb_spellslots sb !! str_of_int level);
                               slot_min := slot_min slot |}]> ss)) c)
            = slots_left level' c)
    by (intros level' Hne; now apply slots_left_insert_other).
  split.
  - intros l Hl'. destruct (Z.eq_dec l level) as [->|Hne].
    + rewrite slots_left_insert_same. eauto.
    + rewrite Hother by exact Hne. now apply Hcomplete.
  - split; [apply slots_left_insert_same|]. split; [exact Hother|]. now repeat split.
Qed.

Lemma reset_level_negative level c sb :
  1 <= level <= 9 ->
  spellbook c = Some sb ->
  default 0 (sb_spellslots sb !! str_of_int level) < 0 ->
  reset_level level c = (inl CounterOutOfBounds, c).
Proof.
  intros Hl Hsb Hneg. unfold reset_level.
  rewrite (bind_inr _ _ c (default 0 (sb_spellslots sb !! str_of_int level)) c)
    by (unfold get_max_spellslots; now rewrite Hsb).
  now apply set_remaining_slots_negative.
Qed.

Lemma reset_levels_ok sb (ls : list Z) : forall c,
  (forall level, In level ls ->
     1 <= level <= 9 /\ 0 <= default 0 (sb_spellslots sb !! str_of_int level)) ->
  spellbook c = Some sb ->
  ledger_complete c ->
  exists c',
    for_each ls reset_level c = (inr tt, c') /\
    spellbook c' = Some sb /\
    ledger_complete c' /\
    (forall level, In level ls ->
       slots_left level c' = Some (default 0 (sb_spellslots sb !! str_of_int level))) /\
    (forall level, ~ In level ls -> slots_left level c' = slots_left level c) /\
    same_body c c' /\
    custom c' = custom c /\
    live_integration c' = live_integration c.
Proof.
  induction ls as [|l ls IH]; intros c Hls Hsb Hcomplete.
  - exists c. simpl. unfold ret. repeat split; try assumption; try reflexivity.
    intros level [].
  - destruct (Hls l (or_introl eq_refl)) as [Hl Hnn].
    destruct (reset_level_ok l c sb Hl Hsb Hcomplete Hnn)
      as (c1 & Hrun & Hsb1 & Hc1 & Hleft1 & Hother1 & Hbody1 & Hcust1 & Hlive1).
    destruct (IH c1 (fun level Hin => Hls level (or_intror Hin)) Hsb1 Hc1)
      as (c' & Hrest & Hsb' & Hc' & Hin' & Hout' & Hbody' & Hcust' & Hlive').
    exists c'. split; [simpl; now rewrite (bind_inr _ _ c tt c1 Hrun)|].
    split; [exact Hsb'|]. split; [exact Hc'|]. split.
    + intros level [<-|Hin]; [|now apply Hin'].
      destruct (in_dec Z.eq_dec l ls) as [Hin|Hnotin]; [now apply Hin'|].
      now rewrite Hout'.
    + split.
      * intros level Hnotin. rewrite Hout' by (intros H; apply Hnotin; now right).
        apply Hother1. intros ->. apply Hnotin. now left.
      * unfold same_body in *. repeat split; try congruence; intuition congruence.
Qed.

Lemma reset_levels_negative sb (ls : list Z) : forall c,
  (forall level, In level ls -> 1 <= level <= 9) ->
  (exists level, In level ls /\ default 0 (sb_spellslots sb !! str_of_int level) < 0) ->
  spellbook c = Some sb ->
  ledger_complete c ->
  exists c', for_each ls reset_level c = (inl CounterOutOfBounds, c').
Proof.
  induction ls as [|l ls IH]; intros c Hls (bad & Hin & Hneg) Hsb Hcomplete;
    [destruct Hin|].
  destruct (Z_lt_le_dec (default 0 (sb_spellslots sb !! str_of_int l)) 0) as [Hl|Hl].
  - exists c. simpl.
    apply bind_inl, (reset_level_negative l c sb); [apply Hls; now left | exact Hsb | exact Hl].
  - destruct (reset_level_ok l c sb (Hls l (or_introl eq_refl)) Hsb Hcomplete Hl)
      as (c1 & Hrun & Hsb1 & Hc1 & _).
    destruct (IH c1) as (c' & Hrest); [intros; apply Hls; now right | | exact Hsb1 | exact Hc1 |].
    + exists bad. split; [|exact Hneg]. destruct Hin as [->|Hin]; [lia | exact Hin].
    + exists c'. simpl. now rewrite (bind_inr _ _ c tt c1 Hrun).
Qed.

(** X4.  On a character with a spellbook and a ledger that has the levels 1 to 9:
    when no level has a negative maximum, [reset_spellslots] returns, every
    level then reads back its maximum, and hit points, death saves and
    counters are untouched; when some level has a negative maximum, it
    raises CounterOutOfBounds. *)
Theorem reset_spellslots_outcome c sb :
  spellbook c = Some sb ->
  ledger_complete c ->
  ((forall level, 1 <= level <= 9 -> 0 <= default 0 (sb_spellslots sb !! str_of_int level)) ->
   exists c',
     reset_spellslots c = (inr tt, c') /\
     (forall level, 1 <= level <= 9 ->
        get_remaining_slots level c'
        = (inr (default 0 (sb_spellslots sb !! str_of_int level)), c')) /\
     same_body c c' /\
     custom c' = custom c) /\
  ((exists level, 1 <= level <= 9 /\ default 0 (sb_spellslots sb !! str_of_int level) < 0) ->
   exists c', reset_spellslots c = (inl CounterOutOfBounds, c')).
Proof.
  intros Hsb Hcomplete. rewrite reset_spellslots_unfold. split.
  - intros Hnn.
    destruct (reset_levels_ok sb levels_1_to_9 (log_event call_reset_spellslots c))
      as (c1 & Hrun & Hsb1 & Hc1 & Hin1 & _ & Hbody1 & Hcust1 & _);
      [intros level Hin; apply in_levels_1_to_9 in Hin; auto | exact Hsb | exact Hcomplete |].
    rewrite (bind_inr _ _ _ tt c1 Hrun).
    unfold bind, gets, modify, ret.
    destruct (live_integration c1); eexists; (split; [reflexivity|]); (split; [|split]);
      try exact Hbody1; try exact Hcust1;
      intros level Hl; apply get_remaining_slots_left; try exact Hl;
      try rewrite slots_left_log; apply Hin1; now apply in_levels_1_to_9.
  - intros (bad & Hl & Hneg).
    destruct (reset_levels_negative sb levels_1_to_9 (log_event call_reset_spellslots c))
      as (c1 & Hrun);
      [intros level Hin; now apply in_levels_1_to_9
      | exists bad; split; [now apply in_levels_1_to_9 | exact Hneg]
      | exact Hsb | exact Hcomplete |].
    exists c1. now apply bind_inl.
Qed.

(** What a returning run of the loop body has done, on any character. *)
Lemma reset_level_post level c c1 :
  1 <= level <= 9 ->
  reset_level level c = (inr tt, c1) ->
  is_Some (spellbook c) /\
  spellbook c1 = spellbook c /\
  slots_left level c1 = slots_max level c1 /\
  (forall level', level' <> level ->
     slots_left level' c = slots_max level' c -> slots_left level' c1 = slots_max level' c1) /\
  same_body c c1 /\
  custom c1 = custom c /\
  options c1 = options c /\
  live_integration c1 = live_integration c.
Proof.
  intros Hl. destruct (level_checks level Hl) as (_ & H2 & _).
  unfold reset_level, bind, get_max_spellslots.
  destruct (spellbook c) as [sb|] eqn:Hsb; [|discriminate].
  unfold set_remaining_slots. rewrite H2. simpl.
  destruct (0 <=? default 0 (sb_spellslots sb !! str_of_int level)); simpl; [|discriminate].
  unfold bind at 1. unfold get_max_spellslots. rewrite Hsb, Z.leb_refl. simpl.
  unfold bind, _initialize_spellslots, modify, get_spellslots, slot_at, gets, ret.
  destruct (spellslots c) as [ss|] eqn:Hss; simpl.
  - rewrite Hss. destruct (ss !! str_of_int level) as [slot|]; simpl; [|discriminate].
    rewrite andb_false_r. intros [= <-]. split; [eauto|].
    split; [simpl; congruence|]. split.
    + rewrite slots_left_insert_same. unfold slots_max. simpl. now rewrite Hsb.
    + split; [|now repeat split].
      intros level' Hne Hfull. rewrite slots_left_insert_other by assumption.
      rewrite Hfull. unfold slots_max. simpl. now rewrite Hsb.
  - match goal with
    | |- context [@lookup _ _ _ _ ?k ?m] => destruct (@lookup _ _ _ _ k m) as [slot|]
    end; simpl; [|discriminate].
    rewrite andb_false_r. intros [= <-]. split; [eauto|].
    split; [simpl; congruence|]. split.
    + rewrite slots_left_insert_same. unfold slots_max. simpl. now rewrite Hsb.
    + split; [|now repeat split].
      intros level' Hne Hfull. exfalso. revert Hfull.
      unfold slots_left, slots_max. rewrite Hss, Hsb. discriminate.
Qed.

Lemma reset_levels_post (ls : list Z) : forall c c',
  (forall level, In level ls -> 1 <= level <= 9) ->
  for_each ls reset_level c = (inr tt, c') ->
  (ls <> [] -> is_Some (spellbook c)) /\
  spellbook c' = spellbook c /\
  (forall level, In level ls \/ slots_left level c = slots_max level c ->
     slots_left level c' = slots_max level c') /\
  same_body c c' /\
  custom c' = custom c /\
  options c' = options c /\
  live_integration c' = live_integration c.
Proof.
  induction ls as [|l ls IH]; intros c c' Hls; simpl.
  - unfold ret. intros [= <-]. split; [congruence|]. split; [reflexivity|].
    split; [|now repeat split].
    intros level [[]|H]. exact H.
  - intros H. apply bind_inr_inv in H. destruct H as ([] & c1 & Hrun & Hrest).
    destruct (reset_level_post l c c1 (Hls l (or_introl eq_refl)) Hrun)
      as (Hsome & Hsb1 & Hl1 & Hother1 & Hbody1 & Hcust1 & Hopt1 & Hlive1).
    destruct (IH c1 c' (fun level Hin => Hls level (or_intror Hin)) Hrest)
      as (_ & Hsb' & Hfull' & Hbody' & Hcust' & Hopt' & Hlive').
    split; [intros _; exact Hsome|]. split; [congruence|]. split.
    + intros level Hcase. apply Hfull'.
      destruct (Z.eq_dec level l) as [->|Hne]; [now right|].
      destruct Hcase as [[Heq|Hin]|Hfull]; [congruence | now left | right; now apply Hother1].
    + unfold same_body in *. repeat split; intuition congruence.
Qed.

(** A run of [reset_spellslots] that returns leaves every level from 1 to 9
    at its maximum, whatever the ledger was before. *)
Lemma reset_spellslots_post c c' :
  reset_spellslots c = (inr tt, c') ->
  is_Some (spellbook c) /\
  spellbook c' = spellbook c /\
  (forall level, 1 <= level <= 9 -> slots_left level c' = slots_max level c') /\
  same_body c c' /\
  custom c' = custom c /\
  options c' = options c.
Proof.
  rewrite reset_spellslots_unfold. intros H.
  apply bind_inr_inv in H. destruct H as ([] & c1 & Hloop & Htail).
  destruct (reset_levels_post levels_1_to_9 _ c1
              (fun level Hin => proj1 (in_levels_1_to_9 level) Hin) Hloop)
    as (Hsome & Hsb1 & Hfull1 & Hbody1 & Hcust1 & Hopt1 & _).
  specialize (Hsome ltac:(discriminate)).
  assert (Hc' : c' = c1 \/ c' = log_event sync_slots c1).
  { unfold bind, gets, modify, ret in Htail.
    destruct (live_integration c1); injection Htail as <-; auto. }
  destruct Hc' as [->| ->].
  - split; [exact Hsome|]. split; [exact Hsb1|]. split; [|split; [exact Hbody1 | split; [exact Hcust1 | exact Hopt1]]].
    intros level Hl. apply Hfull1. left. now apply in_levels_1_to_9.
  - split; [exact Hsome|]. split; [exact Hsb1|]. split; [|split; [exact Hbody1 | split; [exact Hcust1 | exact Hopt1]]].
    intros level Hl.
    change (slots_left level c1 = slots_max level c1).
    apply Hfull1. left. now apply in_levels_1_to_9.
Qed.

(** ** Further properties: custom counters *)

Lemma dict_get_In {V : Type} k (v : V) d :
  NoDup (map fst d) -> In (k, v) d -> dict_get k d = Some v.
Proof.
  induction d as [|[k0 v0] d IH]; intros Hnd Hin; [destruct Hin|].
  simpl in *. inversion Hnd as [|? ? Hnotin Hnd']. subst.
  destruct Hin as [[= -> ->]|Hin].
  - now rewrite String.eqb_refl.
  - destruct (String.eqb k0 k) eqn:E; [|now apply IH].
    apply String.eqb_eq in E. subst k0. exfalso. apply Hnotin.
    apply list_elem_of_In, in_map_iff. now exists (k, v).
Qed.

Lemma dict_get_Some_In {V : Type} k (v : V) d : dict_get k d = Some v -> In (k, v) d.
Proof.
  induction d as [|[k0 v0] d IH]; simpl; [discriminate|].
  destruct (String.eqb k0 k) eqn:E.
  - apply String.eqb_eq in E. subst k0. intros [= ->]. now left.
  - intros H. right. now apply IH.
Qed.

Lemma dict_get_None_names {V : Type} k (d : list (string * V)) :
  dict_get k d = None <-> ~ In k (map fst d).
Proof.
  induction d as [|[k0 v0] d IH]; simpl; [tauto|].
  destruct (String.eqb k0 k) eqn:E.
  - apply String.eqb_eq in E. subst k0. split; [discriminate | intros H; exfalso; auto].
  - apply String.eqb_neq in E. rewrite IH. tauto.
Qed.

Lemma dict_del_None {V : Type} k (d : list (string * V)) :
  dict_del k d = None <-> dict_get k d = None.
Proof.
  induction d as [|[k0 v0] d IH]; simpl; [tauto|].
  destruct (String.eqb k0 k); [split; discriminate|].
  destruct (dict_del k d); [|tauto].
  split; [discriminate|]. intros H. apply IH in H. discriminate.
Qed.

(** Deleting a key of a dict leaves the other items, in their order. *)
Lemma dict_del_Some {V : Type} k (d r : list (string * V)) :
  NoDup (map fst d) ->
  dict_del k d = Some r ->
  r = List.filter (fun item => negb (String.eqb (fst item) k)) d.
Proof.
  revert r. induction d as [|[k0 v0] d IH]; intros r Hnd; simpl; [discriminate|].
  inversion Hnd as [|? ? Hnotin Hnd']. subst.
  destruct (String.eqb k0 k) eqn:E; simpl.
  - apply String.eqb_eq in E. subst k0. intros [= <-].
    symmetry. apply forallb_filter_id. apply forallb_forall.
    intros [k1 v1] Hin. simpl. apply negb_true_iff, String.eqb_neq. intros ->.
    apply Hnotin, list_elem_of_In, in_map_iff. now exists (k, v1).
  - destruct (dict_del k d) as [r'|]; [|discriminate].
    intros [= <-]. f_equal. now apply IH.
Qed.

Lemma dict_get_filter_ne {V : Type} k k' (d : list (string * V)) :
  dict_get k' (List.filter (fun item => negb (String.eqb (fst item) k)) d)
  = if String.eqb k k' then None else dict_get k' d.
Proof.
  induction d as [|[k0 v0] d IH]; simpl; [now destruct (String.eqb k k')|].
  destruct (String.eqb k0 k) eqn:E; simpl.
  - apply String.eqb_eq in E. subst k0. rewrite IH. now destruct (String.eqb k k').
  - rewrite IH. destruct (String.eqb k0 k') eqn:E'; [|reflexivity].
    apply String.eqb_eq in E'. subst k0. rewrite String.eqb_sym in E. now rewrite E.
Qed.

Lemma dict_del_set_new {V : Type} k (v : V) d :
  dict_get k d = None -> dict_del k (dict_set k v d) = Some d.
Proof.
  induction d as [|[k0 v0] d IH]; simpl.
  - now rewrite String.eqb_refl.
  - destruct (String.eqb k0 k) eqn:E; [discriminate|]. intros H. simpl.
    now rewrite E, IH.
Qed.

Lemma dict_set_NoDup {V : Type} k (v : V) d :
  NoDup (map fst d) -> NoDup (map fst (dict_set k v d)).
Proof.
  destruct (dict_get k d) as [v0|] eqn:Hget.
  - now rewrite (dict_set_names k v v0 d Hget).
  - intros Hnd. apply dict_get_None_names in Hget.
    assert (Happ : map fst (dict_set k v d) = map fst d ++ [k]).
    { clear Hnd. induction d as [|[k0 v0] d IH]; simpl; [reflexivity|].
      destruct (String.eqb k0 k) eqn:E.
      - apply String.eqb_eq in E. subst k0. exfalso. apply Hget. now left.
      - simpl. f_equal. apply IH. intros H. apply Hget. now right. }
    rewrite Happ. apply NoDup_app. split; [exact Hnd|]. split.
    + intros x Hx Hx'. apply list_elem_of_In in Hx. apply list_elem_of_In in Hx'.
      destruct Hx' as [<-|[]]. contradiction.
    + apply NoDup_singleton.
Qed.

Section CounterMethods.

Variable roll : string -> Z.

(** X5.  On a dict with distinct keys: [delete_consumable] of a name that is not
    a counter raises ConsumableNotFound and changes nothing; of a name that
    is a counter it returns, the name is then not found, every other name
    looks up as before, the remaining counters keep their order, and nothing
    but the dict of counters changes. *)
Theorem delete_consumable_outcome name c :
  NoDup (map fst (custom c)) ->
  (dict_get name (custom c) = None ->
   delete_consumable name c = (inl ConsumableNotFound, c)) /\
  (forall cnt, dict_get name (custom c) = Some cnt ->
   exists c',
     delete_consumable name c = (inr tt, c') /\
     get_consumable name c' = (inl ConsumableNotFound, c') /\
     (forall n, n <> name -> dict_get n (custom c') = dict_get n (custom c)) /\
     custom c'
     = List.filter (fun item => negb (String.eqb (fst item) name)) (custom c) /\
     c' = with_custom (custom c') c).
Proof.
  intros Hnd. unfold delete_consumable, bind, gets. split.
  - intros Hget. apply dict_del_None in Hget. now rewrite Hget.
  - intros cnt Hget.
    destruct (dict_del name (custom c)) as [r|] eqn:Hdel.
    2:{ apply dict_del_None in Hdel. congruence. }
    pose proof (dict_del_Some name (custom c) r Hnd Hdel) as Hr.
    eexists. split; [reflexivity|]. simpl. split; [|split; [|split; [exact Hr | reflexivity]]].
    + unfold get_consumable, bind, gets. simpl.
      rewrite Hr, dict_get_filter_ne, String.eqb_refl. reflexivity.
    + intros n Hne. rewrite Hr, dict_get_filter_ne.
      destruct (String.eqb name n) eqn:E; [|reflexivity].
      apply String.eqb_eq in E. congruence.
Qed.

(** X6.  Called with a name that is not a counter, [get_consumable],
    [get_consumable_value], [reset_consumable] and [delete_consumable] raise
    ConsumableNotFound and leave the character as it was.  [set_consumable]
    does the same on a character that has the dict of counters; on one that
    has no such dict, which the four others take for an empty dict, it
    raises the KeyError of its index instead, and changes nothing either. *)
Theorem absent_counter_not_found name c :
  dict_get name (custom c) = None ->
  (is_Some (consumables_custom c) ->
   forall v strict, set_consumable roll name v strict c = (inl ConsumableNotFound, c)) /\
  (consumables_custom c = None ->
   forall v strict, set_consumable roll name v strict c = (inl (KeyError "custom"), c)) /\
  get_consumable name c = (inl ConsumableNotFound, c) /\
  get_consumable_value name c = (inl ConsumableNotFound, c) /\
  reset_consumable roll name c = (inl ConsumableNotFound, c) /\
  delete_consumable name c = (inl ConsumableNotFound, c).
Proof.
  intros Hget.
  assert (Hgc : get_consumable name c = (inl ConsumableNotFound, c))
    by (unfold get_consumable, bind, gets; simpl; now rewrite Hget).
  split; [|split; [|split; [exact Hgc | split; [|split]]]].
  - intros [d Hd] v strict.
    rewrite (set_consumable_absent roll name v strict c Hget). now rewrite Hd.
  - intros Hd v strict.
    rewrite (set_consumable_absent roll name v strict c Hget). now rewrite Hd.
  - unfold get_consumable_value. now apply bind_inl.
  - unfold reset_consumable. now apply bind_inl.
  - unfold delete_consumable, bind, gets.
    apply dict_del_None in Hget. now rewrite Hget.
Qed.

End CounterMethods.

Section CounterFrames.

Variable roll : string -> Z.

Lemma set_consumable_custom name v strict c :
  custom (snd (set_consumable roll name v strict c)) = custom c \/
  exists cnt v',
    dict_get name (custom c) = Some cnt /\
    custom (snd (set_consumable roll name v strict c))
    = dict_set name (with_value v' cnt) (custom c).
Proof.
  destruct (dict_get name (custom c)) as [cnt|] eqn:Hget.
  2:{ left. now rewrite (set_consumable_absent roll name v strict c Hget). }
  destruct (spellbook c) as [sb|] eqn:Hsb.
  2:{ left. now rewrite (set_consumable_outdated roll name v strict c cnt Hget Hsb). }
  assert (Hr : forall s, exists z, resolve roll c s = Some z)
    by (intros s; unfold resolve; rewrite Hsb; eauto).
  destruct (Hr (default default_min (cc_min cnt))) as [lo Hlo].
  destruct (Hr (default default_max (cc_max cnt))) as [hi Hhi].
  rewrite (set_consumable_run roll name v strict c cnt lo hi Hget Hlo Hhi).
  destruct (strict && negb ((lo <=? v) && (v <=? hi))); simpl.
  - left. apply with_spell_var_custom.
  - right. eauto.
Qed.


(** [reset_consumable] on a counter with a maximum that resolves, a reset
    scope other than 'none' and no live sync. *)
Lemma reset_consumable_stores name c cnt mx top :
  dict_get name (custom c) = Some cnt ->
  cc_reset cnt <> Some "none" ->
  cc_max cnt = Some mx ->
  resolve roll c mx = Some top ->
  str_truthy (cc_live cnt) && live_integration c = false ->
  reset_consumable roll name c
  = (inr tt, with_custom (dict_set name (with_value top cnt) (custom c)) (with_spell_var c)).
Proof.
  intros Hget Hscope Hmx Htop Hlive.
  rewrite (reset_consumable_run roll name c cnt Hget).
  rewrite bool_decide_eq_false_2 by exact Hscope. rewrite Hmx.
  rewrite (bind_inr _ _ c top (with_spell_var c)) by (now rewrite evaluate_cvar_run, Htop).
  assert (Hsb : is_Some (spellbook c)).
  { unfold resolve in Htop. destruct (spellbook c); [eauto | discriminate]. }
  assert (Hsb' : is_Some (spellbook (with_spell_var c)))
    by (now rewrite (ss_spellbook _ _ (with_spell_var_same_sheet c))).
  destruct (resolve_is_Some roll (with_spell_var c) (default default_min (cc_min cnt)) Hsb')
    as [lo Hlo].
  assert (Hhi : resolve roll (with_spell_var c) (default default_max (cc_max cnt)) = Some top)
    by (rewrite Hmx; simpl; now rewrite resolve_with_spell_var).
  assert (Hget' : dict_get name (custom (with_spell_var c)) = Some cnt)
    by (now rewrite with_spell_var_custom).
  rewrite (set_consumable_run roll name top false _ cnt lo top Hget' Hlo Hhi). simpl.
  rewrite with_spell_var_live, Hlive, with_spell_var_idem, with_spell_var_custom.
  replace (Z.min (Z.max lo top) top) with top by lia. reflexivity.
Qed.

(** X8.  On a counter with a maximum that resolves, a reset scope other than
    'none' (an unset one included) and no live sync, [reset_consumable]
    returns and the counter then holds exactly the resolved maximum,
    whatever its minimum resolves to; a second reset returns too and leaves
    the same value. *)
Theorem reset_consumable_sets_max name c cnt mx top :
  dict_get name (custom c) = Some cnt ->
  cc_reset cnt <> Some "none" ->
  cc_max cnt = Some mx ->
  resolve roll c mx = Some top ->
  str_truthy (cc_live cnt) && live_integration c = false ->
  exists c',
    reset_consumable roll name c = (inr tt, c') /\
    get_consumable_value name c' = (inr top, c') /\
    exists c'',
      reset_consumable roll name c' = (inr tt, c'') /\
      get_consumable_value name c'' = (inr top, c'') /\
      custom c'' = custom c'.
Proof.
  intros Hget Hscope Hmx Htop Hlive.
  rewrite (reset_consumable_stores name c cnt mx top Hget Hscope Hmx Htop Hlive).
  eexists. split; [reflexivity|].
  set (c1 := with_custom (dict_set name (with_value top cnt) (custom c)) (with_spell_var c)).
  assert (Hget1 : dict_get name (custom c1) = Some (with_value top cnt))
    by (apply dict_get_set_same).
  split; [apply (get_consumable_value_run name c1 _ Hget1)|].
  assert (Htop1 : resolve roll c1 mx = Some top)
    by (unfold c1; now rewrite resolve_with_custom, resolve_with_spell_var).
  assert (Hlive1 : str_truthy (cc_live (with_value top cnt)) && live_integration c1 = false)
    by (unfold c1; simpl; now rewrite with_spell_var_live).
  rewrite (reset_consumable_stores name c1 (with_value top cnt) mx top Hget1 Hscope Hmx
             Htop1 Hlive1).
  eexists. split; [reflexivity|]. split.
  - apply (get_consumable_value_run name _ (with_value top (with_value top cnt))).
    apply dict_get_set_same.
  - simpl. unfold c1. simpl.
    clear. induction (custom c) as [|[k v] d IH]; simpl.
    + now rewrite String.eqb_refl.
    + destruct (String.eqb k name) eqn:E; simpl; rewrite E; [reflexivity | now rewrite IH].
Qed.

End CounterFrames.

Section Creation.

Variable roll : string -> Z.

Lemma reset_token_ok_In r :
  reset_token_ok r = true <-> In r [None; Some "short"; Some "long"; Some "none"].
Proof.
  unfold reset_token_ok. simpl. destruct r as [r|].
  - rewrite !orb_true_iff, !String.eqb_eq. split.
    + intros [[->| ->]| ->]; auto.
    + intros [H|[H|[H|[H|[]]]]]; inversion H; auto.
  - split; auto.
Qed.

Lemma create_consumable_unfold name kw c :
  create_consumable roll name kw c
  = if negb (reset_token_ok (reset_kw kw)) then (inl (InvalidArgument "Invalid reset."), c)
    else if any_char_in name ".$"
         then (inl (InvalidArgument "Invalid character in CC name."), c)
         else (check_bounds roll kw >> create_tail roll name kw) c.
Proof.
  unfold create_consumable.
  destruct (negb (reset_token_ok (reset_kw kw))); [reflexivity|].
  destruct (any_char_in name ".$"); reflexivity.
Qed.

Lemma create_tail_cases name kw c sb :
  spellbook c = Some sb ->
  ((str_truthy (reset_kw kw) = true -> is_Some (maxValue kw)) /\
   (displayType kw = Some "bubble" -> is_Some (maxValue kw) /\ is_Some (minValue kw)) /\
   exists v,
     resolve roll c (py_str (maxValue kw)) = Some v /\
     create_tail roll name kw c
     = match consumables_custom c with
       | Some _ =>
           (inr tt,
            with_custom (dict_set name (created_counter kw v) (custom c)) (with_spell_var c))
       | None => (inl (KeyError "custom"), with_spell_var c)
       end) \/
  (~ ((str_truthy (reset_kw kw) = true -> is_Some (maxValue kw)) /\
      (displayType kw = Some "bubble" -> is_Some (maxValue kw) /\ is_Some (minValue kw))) /\
   exists msg, create_tail roll name kw c = (inl (InvalidArgument msg), c)).
Proof.
  intros Hsb. unfold create_tail.
  destruct (str_truthy (reset_kw kw)) eqn:Hr;
    destruct (bool_decide (is_Some (maxValue kw))) eqn:Hmx; simpl.
  2:{ right. split; [|unfold raise; eauto].
      intros [H _]. apply bool_decide_eq_false_1 in Hmx. auto. }
  all: destruct (bool_decide (displayType kw = Some "bubble")) eqn:Ht;
    destruct (bool_decide (is_Some (minValue kw))) eqn:Hmn; simpl.
  all: try apply bool_decide_eq_true_1 in Hmx; try apply bool_decide_eq_false_1 in Hmx;
    try apply bool_decide_eq_true_1 in Hmn; try apply bool_decide_eq_false_1 in Hmn;
    try apply bool_decide_eq_true_1 in Ht; try apply bool_decide_eq_false_1 in Ht.
  all: try (right; split; [intros [_ H]; destruct (H Ht); contradiction
                          | unfold raise; eauto]; fail).
  all: left; (split; [auto; discriminate|]); (split; [intros; try contradiction; auto|]);
    exists (roll (resolved_text c (sb_attackBonus sb - prof_bonus c) (py_str (maxValue kw))));
    (split; [unfold resolve; now rewrite Hsb|]);
    unfold bind, modify, custom_dict; rewrite evaluate_cvar_run; unfold resolve; rewrite Hsb;
    rewrite with_spell_var_consumables; unfold custom;
    destruct (consumables_custom c); reflexivity.
Qed.

Lemma check_bounds_cases kw c sb :
  spellbook c = Some sb ->
  ((forall mx mn maxV minV,
      maxValue kw = Some mx -> minValue kw = Some mn ->
      resolve roll c mx = Some maxV -> resolve roll c mn = Some minV ->
      minV <= maxV /\ maxV <> 0) /\
   exists c1,
     check_bounds roll kw c = (inr tt, c1) /\ (c1 = c \/ c1 = with_spell_var c)) \/
  (~ (forall mx mn maxV minV,
        maxValue kw = Some mx -> minValue kw = Some mn ->
        resolve roll c mx = Some maxV -> resolve roll c mn = Some minV ->
        minV <= maxV /\ maxV <> 0) /\
   exists msg, check_bounds roll kw c = (inl (InvalidArgument msg), with_spell_var c)).
Proof.
  intros Hsb. unfold check_bounds.
  destruct (maxValue kw) as [mx|]; [destruct (minValue kw) as [mn|]|].
  2,3: left; split; [discriminate | exists c; now split; [|left]].
  assert (HmaxV : resolve roll c mx
                  = Some (roll (resolved_text c (sb_attackBonus sb - prof_bonus c) mx)))
    by (unfold resolve; now rewrite Hsb).
  assert (HminV : resolve roll c mn
                  = Some (roll (resolved_text c (sb_attackBonus sb - prof_bonus c) mn)))
    by (unfold resolve; now rewrite Hsb).
  set (maxV := roll (resolved_text c (sb_attackBonus sb - prof_bonus c) mx)) in *.
  set (minV := roll (resolved_text c (sb_attackBonus sb - prof_bonus c) mn)) in *.
  rewrite (bind_inr _ _ c maxV (with_spell_var c)) by (now rewrite evaluate_cvar_run, HmaxV).
  rewrite (bind_inr _ _ (with_spell_var c) minV (with_spell_var c))
    by (now rewrite evaluate_cvar_run, resolve_with_spell_var, HminV, with_spell_var_idem).
  destruct (minV <=? maxV) eqn:Hle; simpl.
  2:{ right. split; [|unfold raise; eauto].
      intros H. apply Z.leb_gt in Hle.
      destruct (H mx mn maxV minV eq_refl eq_refl HmaxV HminV). lia. }
  destruct (maxV =? 0) eqn:Hz; simpl.
  { right. split; [|unfold raise; eauto].
    intros H. apply Z.eqb_eq in Hz.
    destruct (H mx mn maxV minV eq_refl eq_refl HmaxV HminV). contradiction. }
  apply Z.leb_le in Hle. apply Z.eqb_neq in Hz.
  left. split; [|exists (with_spell_var c); split; [reflexivity | now right]].
  intros mx0 mn0 maxV0 minV0 [= <-] [= <-] H1 H2.
  rewrite HmaxV in H1. rewrite HminV in H2. injection H1 as <-. injection H2 as <-.
  now split.
Qed.

Lemma create_consumable_cases name kw c sb :
  spellbook c = Some sb ->
  (creation_valid roll c name kw /\
   exists v,
     resolve roll c (py_str (maxValue kw)) = Some v /\
     create_consumable roll name kw c
     = match consumables_custom c with
       | Some _ =>
           (inr tt,
            with_custom (dict_set name (created_counter kw v) (custom c)) (with_spell_var c))
       | None => (inl (KeyError "custom"), with_spell_var c)
       end) \/
  (~ creation_valid roll c name kw /\
   exists msg c',
     create_consumable roll name kw c = (inl (InvalidArgument msg), c') /\
     custom c' = custom c).
Proof.
  intros Hsb. rewrite create_consumable_unfold. unfold creation_valid.
  destruct (reset_token_ok (reset_kw kw)) eqn:A; simpl.
  2:{ right. split; [|eauto].
      intros (H & _). apply reset_token_ok_In in H. congruence. }
  apply reset_token_ok_In in A.
  destruct (any_char_in name ".$") eqn:B.
  { right. split; [|eauto]. intros (_ & H & _). discriminate. }
  destruct (check_bounds_cases kw c sb Hsb)
    as [(HC & c1 & Hchk & Hc1)|(Hbad & msg & Hchk)].
  2:{ right. split; [intros (_ & _ & H & _); now apply Hbad|].
      eexists _, _. split; [apply bind_inl, Hchk | apply with_spell_var_custom]. }
  rewrite (bind_inr _ _ c tt c1 Hchk).
  assert (Hsb1 : spellbook c1 = Some sb).
  { destruct Hc1 as [->| ->]; [exact Hsb|].
    now rewrite (ss_spellbook _ _ (with_spell_var_same_sheet c)). }
  assert (Hres : forall s, resolve roll c1 s = resolve roll c s)
    by (intros s; destruct Hc1 as [->| ->]; [reflexivity | apply resolve_with_spell_var]).
  assert (Hcust : custom c1 = custom c)
    by (destruct Hc1 as [->| ->]; [reflexivity | apply with_spell_var_custom]).
  assert (Hcons : consumables_custom c1 = consumables_custom c)
    by (destruct Hc1 as [->| ->]; [reflexivity | apply with_spell_var_consumables]).
  assert (Hwsv : with_spell_var c1 = with_spell_var c)
    by (destruct Hc1 as [->| ->]; [reflexivity | apply with_spell_var_idem]).
  destruct (create_tail_cases name kw c1 sb Hsb1)
    as [(HD & HE & v & Hv & Hrun)|(Hbad & msg & Hrun)].
  - left. split; [split; [exact A|]; split; [reflexivity|]; split; [exact HC|];
                  split; [exact HD | exact HE]|].
    exists v. rewrite <- Hres. split; [exact Hv|]. now rewrite Hrun, Hcons, Hcust, Hwsv.
  - right. split; [intros (_ & _ & _ & HD & HE); apply Hbad; now split|].
    eexists _, _. split; [exact Hrun | exact Hcust].
Qed.

Lemma create_consumable_outdated name kw c :
  spellbook c = None ->
  exists e c', create_consumable roll name kw c = (inl e, c') /\ custom c' = custom c.
Proof.
  intros Hsb. rewrite create_consumable_unfold.
  assert (Hev : forall s, evaluate_cvar roll s c = (inl OutdatedSheet, c))
    by (intros s; rewrite evaluate_cvar_run; unfold resolve; now rewrite Hsb).
  destruct (negb (reset_token_ok (reset_kw kw))); [eauto|].
  destruct (any_char_in name ".$"); [eauto|].
  assert (Htail : exists e, create_tail roll name kw c = (inl e, c)).
  { unfold create_tail.
    destruct (_ && _); [unfold raise; eauto|].
    destruct (_ && _); [unfold raise; eauto|].
    exists OutdatedSheet. apply bind_inl, Hev. }
  destruct Htail as (e & Htail).
  unfold check_bounds.
  destruct (maxValue kw) as [mx|]; [destruct (minValue kw) as [mn|]|].
  - exists OutdatedSheet, c. split; [|reflexivity]. apply bind_inl, bind_inl, Hev.
  - exists e, c. split; [|reflexivity]. now rewrite (bind_inr _ _ c tt c eq_refl).
  - exists e, c. split; [|reflexivity]. now rewrite (bind_inr _ _ c tt c eq_refl).
Qed.

(** X9.  On a character with a spellbook and the dict of counters,
    [create_consumable] returns exactly when the request passes its checks:
    a reset keyword among 'short', 'long', 'none' or none at all; a name
    without dot or dollar sign; with both bounds given, a maximum that is at
    least the minimum and is not 0; a maximum whenever a reset scope is
    given; both bounds whenever the display is 'bubble'.  A request that
    fails a check raises InvalidArgument and leaves the dict of counters as
    it was, with or without the dict.  On a character with a spellbook but
    without the dict, a request that passes every check raises the KeyError
    of the index that stores the counter. *)
Theorem create_consumable_accepts_iff name kw c :
  is_Some (spellbook c) ->
  (is_Some (consumables_custom c) ->
   ((exists c', create_consumable roll name kw c = (inr tt, c'))
    <-> creation_valid roll c name kw)) /\
  (~ creation_valid roll c name kw ->
   exists msg c',
     create_consumable roll name kw c = (inl (InvalidArgument msg), c') /\
     custom c' = custom c) /\
  (consumables_custom c = None -> creation_valid roll c name kw ->
   exists c',
     create_consumable roll name kw c = (inl (KeyError "custom"), c') /\
     consumables_custom c' = None).
Proof.
  intros [sb Hsb].
  destruct (create_consumable_cases name kw c sb Hsb)
    as [(Hv & v & _ & Hrun)|(Hbad & msg & c' & Hrun & Hcust)].
  - split; [|split; [contradiction|]].
    + intros [d Hd]. rewrite Hd in Hrun. split; [auto | eauto].
    + intros Hd _. rewrite Hd in Hrun. eexists. split; [exact Hrun|].
      now rewrite with_spell_var_consumables.
  - split; [|split; [eauto | contradiction]].
    intros _. split; [|contradiction].
    intros (c'' & Hrun'). rewrite Hrun in Hrun'. discriminate.
Qed.

(** X10.  When [create_consumable] returns, the name looks up as a counter with
    the bounds, display type and live id of the request, the reset scope of
    the request when it is a non-empty string, and as value what the maximum
    resolves to; with both bounds given the value lies between the resolved
    minimum and maximum and is not 0.  A stored reset scope comes with a
    stored maximum, and a bubble display with both bounds.  Every other name
    looks up as before, a new name goes last and an existing one keeps its
    place, and distinct keys stay distinct. *)
Theorem create_consumable_stores name kw c c' :
  create_consumable roll name kw c = (inr tt, c') ->
  exists v,
    resolve roll c (py_str (maxValue kw)) = Some v /\
    get_consumable name c' = (inr (created_counter kw v), c') /\
    cc_reset (created_counter kw v)
    = (if str_truthy (reset_kw kw) then reset_kw kw else None) /\
    (forall mx mn minV,
       maxValue kw = Some mx -> minValue kw = Some mn -> resolve roll c mn = Some minV ->
       resolve roll c mx = Some v /\ minV <= v /\ v <> 0) /\
    (is_Some (cc_reset (created_counter kw v)) -> is_Some (cc_max (created_counter kw v))) /\
    (cc_type (created_counter kw v) = Some "bubble" ->
     is_Some (cc_max (created_counter kw v)) /\ is_Some (cc_min (created_counter kw v))) /\
    (forall n, n <> name -> dict_get n (custom c') = dict_get n (custom c)) /\
    map fst (custom c')
    = (if bool_decide (is_Some (dict_get name (custom c)))
       then map fst (custom c) else map fst (custom c) ++ [name]) /\
    (NoDup (map fst (custom c)) -> NoDup (map fst (custom c'))).
Proof.
  intros Hrun.
  destruct (spellbook c) as [sb|] eqn:Hsb.
  2:{ destruct (create_consumable_outdated name kw c Hsb) as (e & c0 & H & _). congruence. }
  destruct (create_consumable_cases name kw c sb Hsb)
    as [((HA & HB & HC & HD & HE) & v & Hv & Hrun')|(_ & msg & c0 & Hrun' & _)];
    [|congruence].
  destruct (consumables_custom c) as [d|] eqn:Hd; [|congruence].
  rewrite Hrun in Hrun'. injection Hrun' as ->.
  exists v. split; [exact Hv|]. split.
  { unfold get_consumable, bind, gets, ret. simpl. now rewrite dict_get_set_same. }
  split.
  { unfold created_counter. simpl. destruct (str_truthy (reset_kw kw)) eqn:Hr; [|reflexivity].
    now rewrite (bool_decide_eq_true_2 _ (HD eq_refl)). }
  split.
  { intros mx mn minV Hmx Hmn HminV. rewrite Hmx in Hv. simpl in Hv.
    destruct (HC mx mn v minV Hmx Hmn Hv HminV). now repeat split. }
  split.
  { unfold created_counter. simpl.
    destruct (str_truthy (reset_kw kw) && bool_decide (is_Some (maxValue kw))) eqn:E.
    - intros _. apply andb_true_iff in E. destruct E as [_ E].
      now apply bool_decide_eq_true_1 in E.
    - intros [x Hx]. discriminate. }
  split; [exact HE|]. split.
  { intros n Hne. simpl. now apply dict_get_set_other. }
  split.
  - simpl. destruct (dict_get name (custom c)) as [v0|] eqn:Hget.
    + rewrite bool_decide_eq_true_2 by eauto. eapply dict_set_names, Hget.
    + rewrite bool_decide_eq_false_2 by (intros [x Hx]; discriminate).
      clear -Hget. induction (custom c) as [|[k0 v0] d IH]; simpl; [reflexivity|].
      simpl in Hget. destruct (String.eqb k0 name); [discriminate|].
      simpl. f_equal. now apply IH.
  - simpl. apply dict_set_NoDup.
Qed.

(** X11.  Creating a counter under a name that is not taken and deleting it again
    leaves the dict of counters as it was. *)
Theorem create_then_delete name kw c c' :
  dict_get name (custom c) = None ->
  create_consumable roll name kw c = (inr tt, c') ->
  exists c'',
    delete_consumable name c' = (inr tt, c'') /\
    custom c'' = custom c.
Proof.
  intros Hnew Hrun.
  destruct (spellbook c) as [sb|] eqn:Hsb.
  2:{ destruct (create_consumable_outdated name kw c Hsb) as (e & c0 & H & _). congruence. }
  destruct (create_consumable_cases name kw c sb Hsb)
    as [(_ & v & _ & Hrun')|(_ & msg & c0 & Hrun' & _)]; [|congruence].
  destruct (consumables_custom c) as [d|] eqn:Hd; [|congruence].
  rewrite Hrun in Hrun'. injection Hrun' as ->.
  unfold delete_consumable, bind, gets. simpl.
  rewrite (dict_del_set_new name _ (custom c) Hnew). eexists. split; reflexivity.
Qed.

End Creation.

(** ** Further properties: sweeps *)

Section Sweeps.

Variable roll : string -> Z.

Lemma reset_consumable_custom name c :
  custom (snd (reset_consumable roll name c)) = custom c \/
  exists cnt v',
    dict_get name (custom c) = Some cnt /\
    custom (snd (reset_consumable roll name c))
    = dict_set name (with_value v' cnt) (custom c).
Proof.
  destruct (dict_get name (custom c)) as [cnt|] eqn:Hget.
  2:{ left. unfold reset_consumable, get_consumable.
      erewrite bind_inl; [reflexivity|].
      unfold bind, gets. simpl. now rewrite Hget. }
  rewrite (reset_consumable_run roll name c cnt Hget).
  destruct (bool_decide (cc_reset cnt = Some "none")); [now left|].
  destruct (cc_max cnt) as [mx|]; [|now left].
  unfold bind. rewrite evaluate_cvar_run.
  destruct (resolve roll c mx) as [top|]; [|now left].
  destruct (set_consumable_custom roll name top false (with_spell_var c))
    as [Heq|(cnt0 & v' & Hget0 & Heq)]; rewrite Heq, with_spell_var_custom.
  - now left.
  - right. rewrite with_spell_var_custom, Hget in Hget0. injection Hget0 as <-. eauto.
Qed.

Lemma reset_custom_items_untouched scope items n : forall acc c,
  (forall k v, In (k, v) items -> cc_reset v = scope -> k <> n) ->
  dict_get n (custom (snd (reset_custom_items roll scope items acc c)))
  = dict_get n (custom c).
Proof.
  induction items as [|[name value] items IH]; intros acc c Hne; simpl; [reflexivity|].
  destruct (bool_decide (cc_reset value = scope)) eqn:E.
  - apply bool_decide_eq_true_1 in E.
    assert (Hn : name <> n) by (apply (Hne name value); [now left | exact E]).
    assert (Hstep : dict_get n (custom (snd (reset_consumable roll name c)))
                    = dict_get n (custom c)).
    { destruct (reset_consumable_custom name c) as [Heq|(cnt0 & v' & _ & Heq)]; rewrite Heq;
        [reflexivity | now apply dict_get_set_other]. }
    destruct (reset_consumable roll name c) as [[e|[]] c1]; simpl in *; [exact Hstep|].
    rewrite IH; [exact Hstep|]. intros k v Hin. apply Hne. now right.
  - apply IH. intros k v Hin. apply Hne. now right.
Qed.

(** X12.  A sweep never touches a counter of another scope: on a dict with
    distinct keys, whatever the outcome of [_reset_custom scope], a counter
    whose reset scope is not [scope] looks up afterwards exactly as before. *)
Theorem reset_custom_leaves_other_scopes scope c name cnt :
  NoDup (map fst (custom c)) ->
  dict_get name (custom c) = Some cnt ->
  cc_reset cnt <> scope ->
  dict_get name (custom (snd (_reset_custom roll scope c))) = Some cnt.
Proof.
  intros Hnd Hget Hscope. unfold _reset_custom, bind, gets.
  rewrite reset_custom_items_untouched; [exact Hget|].
  intros k v Hin Hsc ->. apply (dict_get_In _ _ _ Hnd) in Hin. congruence.
Qed.

Lemma reset_custom_items_values scope items : forall acc c,
  is_Some (spellbook c) ->
  NoDup (map fst items) ->
  (forall name cnt, In (name, cnt) items -> dict_get name (custom c) = Some cnt) ->
  (forall name cnt, In (name, cnt) items -> cc_reset cnt = scope ->
     cc_reset cnt <> Some "none" /\ is_Some (cc_max cnt) /\
     str_truthy (cc_live cnt) && live_integration c = false) ->
  exists c',
    reset_custom_items roll scope items acc c
    = (inr (acc ++ map fst (List.filter (in_scope scope) items)), c') /\
    (forall s, resolve roll c' s = resolve roll c s) /\
    live_integration c' = live_integration c /\
    is_Some (spellbook c') /\
    (forall name cnt, In (name, cnt) items -> cc_reset cnt = scope ->
       exists mx top,
         cc_max cnt = Some mx /\ resolve roll c mx = Some top /\
         dict_get name (custom c') = Some (with_value top cnt)) /\
    (forall n, (forall cnt, In (n, cnt) items -> cc_reset cnt <> scope) ->
       dict_get n (custom c') = dict_get n (custom c)).
Proof.
  induction items as [|[name value] items IH]; intros acc c Hsb Hnd Hgets Hconds; simpl.
  - exists c. unfold ret. rewrite app_nil_r. repeat split; try reflexivity; try exact Hsb.
    intros name cnt [].
  - inversion Hnd as [|? ? Hnotin Hnd']. subst.
    assert (Hnotin' : forall cnt, ~ In (name, cnt) items).
    { intros cnt Hin. apply Hnotin, list_elem_of_In, in_map_iff. now exists (name, cnt). }
    unfold in_scope at 1. simpl.
    destruct (bool_decide (cc_reset value = scope)) eqn:E.
    + apply bool_decide_eq_true_1 in E.
      destruct (Hconds name value (or_introl eq_refl) E) as (Hnone & [mx Hmx] & Hlive).
      destruct (resolve_is_Some roll c mx Hsb) as [top Htop].
      pose proof (Hgets name value (or_introl eq_refl)) as Hget.
      rewrite (reset_consumable_stores roll name c value mx top Hget Hnone Hmx Htop Hlive).
      set (c1 := with_custom (dict_set name (with_value top value) (custom c))
                   (with_spell_var c)).
      assert (Hres1 : forall s, resolve roll c1 s = resolve roll c s)
        by (intros s; unfold c1; now rewrite resolve_with_custom, resolve_with_spell_var).
      assert (Hlive1 : live_integration c1 = live_integration c)
        by (unfold c1; simpl; apply with_spell_var_live).
      assert (Hsb1 : is_Some (spellbook c1))
        by (unfold c1; simpl; now rewrite (ss_spellbook _ _ (with_spell_var_same_sheet c))).
      destruct (IH (acc ++ [name]) c1 Hsb1 Hnd') as (c' & Hrun & Hres & Hlive' & Hsb' & Hin' & Hout').
      { intros n cnt Hin. unfold c1. simpl. rewrite dict_get_set_other.
        - apply Hgets. now right.
        - intros ->. now apply (Hnotin' cnt). }
      { intros n cnt Hin Hsc. rewrite Hlive1. apply (Hconds n cnt); [now right | exact Hsc]. }
      exists c'. split; [rewrite Hrun; simpl; now rewrite <- app_assoc|].
      split; [intros s; now rewrite Hres|]. split; [congruence|]. split; [exact Hsb'|]. split.
      * intros n cnt [[= <- <-]|Hin] Hsc.
        -- exists mx, top. split; [exact Hmx|]. split; [exact Htop|].
           rewrite Hout' by (intros cnt0 Hin0; now apply Hnotin' in Hin0).
           unfold c1. simpl. apply dict_get_set_same.
        -- destruct (Hin' n cnt Hin Hsc) as (mx0 & top0 & H1 & H2 & H3).
           exists mx0, top0. rewrite <- Hres1. now repeat split.
      * intros n Hn. rewrite Hout' by (intros cnt Hin; apply Hn; now right).
        unfold c1. simpl. apply dict_get_set_other. intros ->.
        now apply (Hn value (or_introl eq_refl)).
    + apply bool_decide_eq_false_1 in E.
      destruct (IH acc c Hsb Hnd') as (c' & Hrun & Hres & Hlive' & Hsb' & Hin' & Hout').
      { intros n cnt Hin. apply Hgets. now right. }
      { intros n cnt Hin. apply (Hconds n cnt). now right. }
      exists c'. split; [exact Hrun|]. split; [exact Hres|]. split; [exact Hlive'|].
      split; [exact Hsb'|]. split.
      * intros n cnt [[= <- <-]|Hin] Hsc; [contradiction | now apply Hin'].
      * intros n Hn. apply Hout'. intros cnt Hin. apply Hn. now right.
Qed.

(** X13.  On a character with a spellbook and a dict with distinct keys, where
    every counter of the scope has a maximum, is not scoped 'none' and does
    not reach the live sync: [_reset_custom scope] returns the names of the
    counters of the scope in dict order; afterwards each of them holds what
    its maximum resolves to, with its other fields as before, and every
    counter of another scope is as it was. *)
Theorem reset_custom_resets_scope scope c :
  is_Some (spellbook c) ->
  NoDup (map fst (custom c)) ->
  (forall name cnt, In (name, cnt) (custom c) -> cc_reset cnt = scope ->
     cc_reset cnt <> Some "none" /\ is_Some (cc_max cnt) /\
     str_truthy (cc_live cnt) && live_integration c = false) ->
  exists c',
    _reset_custom roll scope c
    = (inr (map fst (List.filter (in_scope scope) (custom c))), c') /\
    (forall name cnt, In (name, cnt) (custom c) -> cc_reset cnt = scope ->
       exists mx top,
         cc_max cnt = Some mx /\ resolve roll c mx = Some top /\
         get_consumable name c' = (inr (with_value top cnt), c')) /\
    (forall name cnt, In (name, cnt) (custom c) -> cc_reset cnt <> scope ->
       get_consumable name c' = (inr cnt, c')).
Proof.
  intros Hsb Hnd Hconds. unfold _reset_custom, bind, gets.
  destruct (reset_custom_items_values scope (custom c) [] c Hsb Hnd
              (fun name cnt Hin => dict_get_In name cnt (custom c) Hnd Hin) Hconds)
    as (c' & Hrun & _ & _ & _ & Hin' & Hout').
  exists c'. split; [exact Hrun|]. split.
  - intros name cnt Hin Hsc. destruct (Hin' name cnt Hin Hsc) as (mx & top & H1 & H2 & H3).
    exists mx, top. split; [exact H1|]. split; [exact H2|].
    unfold get_consumable, bind, gets, ret. simpl. now rewrite H3.
  - intros name cnt Hin Hsc.
    unfold get_consumable, bind, gets, ret. simpl. rewrite Hout'.
    + now rewrite (dict_get_In name cnt (custom c) Hnd Hin).
    + intros cnt0 Hin0.
      pose proof (dict_get_In name cnt (custom c) Hnd Hin) as H.
      rewrite (dict_get_In name cnt0 (custom c) Hnd Hin0) in H. now injection H as ->.
Qed.

End Sweeps.

(** ** Further properties: hit points and rests *)

(** The spell slot methods keep every relation that ignores the ledger and
    the log. *)
Section SlotFrames.

Variable R : Character -> Character -> Prop.
Hypothesis R_refl : forall c, R c c.
Hypothesis R_trans : forall a b c, R a b -> R b c -> R a c.
Hypothesis R_spellslots : forall s c, R c (with_spellslots s c).
Hypothesis R_log : forall e c, R c (log_event e c).

Lemma keeps_get_max_spellslots level : keeps R (get_max_spellslots level).
Proof. intros c. unfold get_max_spellslots. destruct (spellbook c); apply R_refl. Qed.

Lemma keeps_get_spellslots : keeps R get_spellslots.
Proof. intros c. unfold get_spellslots. destruct (spellslots c); apply R_refl. Qed.

Lemma keeps_set_remaining_slots level value sync :
  keeps R (set_remaining_slots level value sync).
Proof.
  unfold set_remaining_slots.
  destruct (negb _); [apply keeps_raise, R_refl|].
  destruct (negb _); [apply keeps_raise, R_refl|].
  apply keeps_bind; [exact R_trans | apply keeps_get_max_spellslots |].
  intros mx. destruct (negb _); [apply keeps_raise, R_refl|].
  apply keeps_bind; [exact R_trans | |].
  { apply keeps_modify. intros c. destruct (spellslots c); [apply R_refl | apply R_spellslots]. }
  intros _. apply keeps_bind; [exact R_trans | apply keeps_get_spellslots |].
  intros ss. apply keeps_bind; [exact R_trans | |].
  { unfold slot_at. destruct (ss !! _); [apply keeps_ret | apply keeps_raise]; apply R_refl. }
  intros slot. apply keeps_bind; [exact R_trans | apply keeps_modify, R_spellslots |].
  intros _. apply keeps_bind; [exact R_trans | apply keeps_gets, R_refl |].
  intros live. destruct (live && sync); [apply keeps_modify, R_log | apply keeps_ret, R_refl].
Qed.

Lemma keeps_reset_spellslots : keeps R reset_spellslots.
Proof.
  unfold reset_spellslots.
  apply keeps_bind; [exact R_trans | apply keeps_modify, R_log |].
  intros _. apply keeps_bind; [exact R_trans | |].
  - apply keeps_for_each; [exact R_refl | exact R_trans |].
    intros level. apply keeps_bind; [exact R_trans | apply keeps_get_max_spellslots |].
    intros mx. apply keeps_set_remaining_slots.
  - intros _. apply keeps_bind; [exact R_trans | apply keeps_gets, R_refl |].
    intros live. destruct live; [apply keeps_modify, R_log | apply keeps_ret, R_refl].
Qed.

End SlotFrames.

Lemma same_vitals_refl c : same_vitals c c.
Proof. now repeat split. Qed.

Lemma same_vitals_trans a b c : same_vitals a b -> same_vitals b c -> same_vitals a c.
Proof. unfold same_vitals. intros (?&?&?) (?&?&?). repeat split; congruence. Qed.

Lemma same_setup_refl c : same_setup c c.
Proof. now repeat split. Qed.

Lemma same_setup_trans a b c : same_setup a b -> same_setup b c -> same_setup a c.
Proof. unfold same_setup. intros (?&?&?&?) (?&?&?&?). repeat split; congruence. Qed.

Lemma same_slots_refl c : same_slots c c.
Proof. now repeat split. Qed.

Lemma same_slots_trans a b c : same_slots a b -> same_slots b c -> same_slots a c.
Proof. unfold same_slots. intros (?&?&?) (?&?&?). repeat split; congruence. Qed.

Lemma same_ledger_refl c : same_ledger c c.
Proof. now repeat split. Qed.

Lemma same_ledger_trans a b c : same_ledger a b -> same_ledger b c -> same_ledger a c.
Proof. unfold same_ledger. intros (?&?&?&?) (?&?&?&?). repeat split; congruence. Qed.

Lemma same_sheet_vitals c c' : same_sheet c c' -> same_vitals c c'.
Proof. intros H. repeat split; apply H. Qed.

Lemma same_sheet_setup c c' : same_sheet c c' -> same_setup c c'.
Proof. intros H. repeat split; apply H. Qed.

Lemma same_sheet_slots c c' : same_sheet c c' -> same_slots c c'.
Proof. intros H. repeat split; apply H. Qed.

Lemma same_sheet_ledger c c' : same_sheet c c' -> same_ledger c c'.
Proof. intros H. repeat split; apply H. Qed.

Section Rests.

Variable roll : string -> Z.

Lemma keeps_get_setting (R : Character -> Character -> Prop) setting dflt :
  (forall c, R c c) -> keeps R (get_setting setting dflt).
Proof. intros Hrefl c. apply Hrefl. Qed.

(** [short_rest] is made of pieces that keep [R]. *)
Lemma keeps_short_rest (R : Character -> Character -> Prop) :
  (forall c, R c c) ->
  (forall a b c, R a b -> R b c -> R a c) ->
  (forall c c', same_sheet c c' -> R c c') ->
  (forall d c, R c (with_death_saves d c)) ->
  (forall s c, R c (with_spellslots s c)) ->
  (forall e c, R c (log_event e c)) ->
  keeps R (short_rest roll).
Proof.
  intros Hrefl Htrans Hsheet Hds Hss Hlog. unfold short_rest.
  apply keeps_bind; [exact Htrans | now apply keeps_on_hp |].
  intros reset. apply keeps_bind; [exact Htrans | |].
  { eapply keeps_weaken; [exact Hsheet | apply keeps_reset_custom]. }
  intros names. apply keeps_bind; [exact Htrans | now apply keeps_get_setting |].
  intros sr. destruct (truthy sr); [|now apply keeps_ret].
  apply keeps_bind; [exact Htrans | now apply keeps_reset_spellslots |].
  intros _. now apply keeps_ret.
Qed.

(** X14.  Whatever its outcome, [short_rest] leaves the hit points, the maximum
    hit points and the temporary hit points as they were; and with the
    setting srslots off it leaves the spell slot ledger as it was and logs
    no call. *)
Theorem short_rest_restores_no_hp c :
  let c' := snd (short_rest roll c) in
  hp c' = hp c /\ max_hp c' = max_hp c /\ temp_hp c' = temp_hp c /\
  (srslots_enabled c = false -> spellslots c' = spellslots c /\ events c' = events c).
Proof.
  intros c'. subst c'.
  assert (Hv : same_vitals c (snd (short_rest roll c))).
  { apply keeps_short_rest;
      [apply same_vitals_refl | apply same_vitals_trans | apply same_sheet_vitals
      | intros; now repeat split..]. }
  destruct Hv as (H1 & H2 & H3). split; [exact H1|]. split; [exact H2|]. split; [exact H3|].
  intros Hoff.
  cut (same_ledger c (snd (short_rest roll c))); [intros (Hs & _ & _ & He); now split|].
  unfold short_rest.
  assert (Hk1 : keeps same_ledger (on_hp roll)).
  { apply keeps_on_hp;
      [apply same_ledger_refl | apply same_ledger_trans | apply same_sheet_ledger
      | intros; now repeat split]. }
  unfold bind at 1. specialize (Hk1 c).
  destruct (on_hp roll c) as [[e|l1] c1]; simpl in Hk1; [exact Hk1|].
  pose proof (same_sheet_ledger _ _ (keeps_reset_custom roll (Some "short") c1)) as Hk2.
  unfold bind at 1.
  destruct (_reset_custom roll (Some "short") c1) as [[e|l2] c2]; simpl in Hk2;
    pose proof (same_ledger_trans _ _ _ Hk1 Hk2) as Hk; [exact Hk|].
  unfold bind at 1. rewrite get_setting_run.
  destruct Hk as (_ & _ & Ho & _).
  unfold srslots_enabled in Hoff. rewrite Ho, Hoff. simpl.
  exact (same_ledger_trans _ _ _ Hk1 Hk2).
Qed.

Lemma reset_custom_items_none scope items : forall acc c,
  (forall name cnt, In (name, cnt) items -> cc_reset cnt <> scope) ->
  reset_custom_items roll scope items acc c = (inr acc, c).
Proof.
  induction items as [|[name value] items IH]; intros acc c Hnone; simpl; [reflexivity|].
  rewrite bool_decide_eq_false_2 by (apply (Hnone name value); now left).
  apply IH. intros n cnt Hin. apply (Hnone n cnt). now right.
Qed.

Lemma set_hp_inv v c c' :
  set_hp roll v c = (inr tt, c') ->
  exists names c1,
    _reset_custom roll (Some "hp") (with_hp v c) = (inr names, c1) /\
    let c2 := if 0 <? v
              then with_death_saves {| DeathSaves.successes := 0; DeathSaves.fails := 0 |} c1
              else c1 in
    c' = if live_integration c1 then log_event sync_hp c2 else c2.
Proof.
  unfold set_hp. intros H.
  apply bind_inr_inv in H. destruct H as ([] & c0 & Hmod & H).
  unfold modify in Hmod. injection Hmod as <-.
  apply bind_inr_inv in H. destruct H as (l & c2 & Hon & H).
  assert (Hsweep : exists names c1,
             _reset_custom roll (Some "hp") (with_hp v c) = (inr names, c1)).
  { unfold on_hp in Hon. apply bind_inr_inv in Hon.
    destruct Hon as (names & c1 & Hsw & _). eauto. }
  destruct Hsweep as (names & c1 & Hsw).
  rewrite (on_hp_run roll _ names c1 Hsw) in Hon. simpl in Hon.
  exists names, c1. split; [exact Hsw|]. simpl.
  unfold bind, gets, modify, ret in H.
  destruct (0 <? v); injection Hon as <- <-; simpl in H;
    destruct (live_integration c1); now injection H as <-.
Qed.

Lemma set_hp_post v c c' :
  set_hp roll v c = (inr tt, c') ->
  hp c' = v /\ max_hp c' = max_hp c /\ temp_hp c' = temp_hp c /\
  spellslots c' = spellslots c /\
  (0 < v ->
   death_saves c' = {| DeathSaves.successes := 0; DeathSaves.fails := 0 |}) /\
  (v <= 0 -> death_saves c' = death_saves c).
Proof.
  intros H. destruct (set_hp_inv v c c' H) as (names & c1 & Hsw & Hc').
  pose proof (keeps_reset_custom roll (Some "hp") (with_hp v c)) as Hk.
  rewrite Hsw in Hk. simpl in *.
  destruct Hk as [Hhp Hmx Hthp Hds _ _ _ _ _ Hss _ _]. simpl in *.
  destruct (0 <? v) eqn:E; [apply Z.ltb_lt in E | apply Z.ltb_ge in E];
    destruct (live_integration c1); subst c'; simpl;
    repeat split; intros; try assumption; try reflexivity; try lia.
Qed.

(** X15.  When [set_hp v] returns: the hit points are [v]; the maximum and the
    temporary hit points are untouched, and so is the spell slot ledger; the
    death saves are both 0 when [v] is above 0, and as they were otherwise.
    It returns, leaving the counters as they were, on every character that
    has no 'hp' scoped counter. *)
Theorem set_hp_outcome v c :
  (forall c', set_hp roll v c = (inr tt, c') ->
     hp c' = v /\ max_hp c' = max_hp c /\ temp_hp c' = temp_hp c /\
     spellslots c' = spellslots c /\
     (0 < v ->
      death_saves c' = {| DeathSaves.successes := 0; DeathSaves.fails := 0 |}) /\
     (v <= 0 -> death_saves c' = death_saves c)) /\
  ((forall name cnt, In (name, cnt) (custom c) -> cc_reset cnt <> Some "hp") ->
   exists c', set_hp roll v c = (inr tt, c') /\ custom c' = custom c).
Proof.
  split.
  - intros c' H. now apply set_hp_post.
  - intros Hnone.
    assert (Hsw : _reset_custom roll (Some "hp") (with_hp v c) = (inr [], with_hp v c))
      by (unfold _reset_custom, bind, gets; now apply reset_custom_items_none).
    unfold set_hp, bind at 1, modify at 1.
    unfold bind at 1. rewrite (on_hp_run roll _ [] _ Hsw). simpl.
    unfold bind, gets, modify, ret.
    destruct (0 <? v); simpl; destruct (live_integration c); eexists; split; reflexivity.
Qed.

Lemma reset_hp_inv c c' :
  reset_hp roll c = (inr tt, c') ->
  hp c' = max_hp c /\ temp_hp c' = 0 /\ max_hp c' = max_hp c /\
  spellslots c' = spellslots c /\
  (0 < max_hp c ->
   death_saves c' = {| DeathSaves.successes := 0; DeathSaves.fails := 0 |}) /\
  (max_hp c <= 0 -> death_saves c' = death_saves c).
Proof.
  unfold reset_hp, set_temp_hp. intros H.
  apply bind_inr_inv in H. destruct H as ([] & c0 & Hmod & H).
  unfold modify in Hmod. injection Hmod as <-.
  apply bind_inr_inv in H. destruct H as (mx & c1 & Hget & H).
  unfold get_max_hp, gets in Hget. injection Hget as <- <-. simpl in H.
  destruct (set_hp_post (max_hp c) (with_temp_hp (Z.max 0 0) c) c' H)
    as (H1 & H2 & H3 & H4 & H5 & H6).
  simpl in *. now repeat split.
Qed.

Lemma keeps_same_setup_on_hp : keeps same_setup (on_hp roll).
Proof.
  apply keeps_on_hp;
    [apply same_setup_refl | apply same_setup_trans | apply same_sheet_setup
    | intros; now repeat split].
Qed.

Lemma keeps_same_setup_short_rest : keeps same_setup (short_rest roll).
Proof.
  apply keeps_short_rest;
    [apply same_setup_refl | apply same_setup_trans | apply same_sheet_setup
    | intros; now repeat split..].
Qed.

Lemma keeps_same_setup_reset_hp : keeps same_setup (reset_hp roll).
Proof.
  unfold reset_hp, set_temp_hp.
  apply keeps_bind; [apply same_setup_trans | apply keeps_modify; intros; now repeat split |].
  intros _. apply keeps_bind; [apply same_setup_trans | apply keeps_gets, same_setup_refl |].
  intros mx. apply keeps_set_hp;
    [apply same_setup_refl | apply same_setup_trans | apply same_sheet_setup
    | intros; now repeat split..].
Qed.

(** A [short_rest] that returns with srslots on leaves every level full. *)
Lemma short_rest_fills_slots c l c' :
  short_rest roll c = (inr l, c') ->
  srslots_enabled c = true ->
  is_Some (spellbook c') /\
  forall level, 1 <= level <= 9 -> slots_left level c' = slots_max level c'.
Proof.
  unfold short_rest. intros H Hon.
  apply bind_inr_inv in H. destruct H as (l1 & c1 & Hhp & H).
  apply bind_inr_inv in H. destruct H as (l2 & c2 & Hsw & H).
  apply bind_inr_inv in H. destruct H as (sr & c3 & Hset & H).
  rewrite get_setting_run in Hset. injection Hset as <- <-.
  pose proof (keeps_same_setup_on_hp c) as (_ & _ & Ho1 & _). rewrite Hhp in Ho1.
  pose proof (same_sheet_setup _ _ (keeps_reset_custom roll (Some "short") c1))
    as (_ & _ & Ho2 & _).
  rewrite Hsw in Ho2. simpl in *.
  unfold srslots_enabled in Hon. rewrite <- Ho1, <- Ho2 in Hon. rewrite Hon in H.
  apply bind_inr_inv in H. destruct H as ([] & c4 & Hrs & H).
  unfold ret in H. injection H as <- <-.
  destruct (reset_spellslots_post c2 c4 Hrs) as (Hsome & Hsb4 & Hfill & _).
  split; [now rewrite Hsb4 | exact Hfill].
Qed.

(** X16.  When [long_rest] returns: the hit points are the maximum hit points, the
    temporary hit points are 0, the death saves are both 0 when the maximum
    hit points are above 0, every spell slot level from 1 to 9 reads back
    its maximum, on either value of the setting srslots, and "HP" is in the
    returned list. *)
Theorem long_rest_outcome c labels c' :
  long_rest roll c = (inr labels, c') ->
  hp c' = max_hp c /\
  temp_hp c' = 0 /\
  max_hp c' = max_hp c /\
  (0 < max_hp c ->
   death_saves c' = {| DeathSaves.successes := 0; DeathSaves.fails := 0 |}) /\
  (forall level, 1 <= level <= 9 ->
     exists mx, slots_max level c = Some mx /\
                get_remaining_slots level c' = (inr mx, c')) /\
  In "HP" labels.
Proof.
  unfold long_rest. intros H.
  apply bind_inr_inv in H. destruct H as (l_hp & c0 & Hhp & H).
  apply bind_inr_inv in H. destruct H as (l_sr & c1 & Hsr & H).
  apply bind_inr_inv in H. destruct H as (l_long & c2 & Hsw & H).
  apply bind_inr_inv in H. destruct H as ([] & c3 & Hrh & H).
  apply bind_inr_inv in H. destruct H as (sr & c4 & Hset & H).
  rewrite get_setting_run in Hset. injection Hset as <- <-.
  pose proof (keeps_same_setup_on_hp c) as S0. rewrite Hhp in S0.
  pose proof (keeps_same_setup_short_rest c0) as S1. rewrite Hsr in S1.
  pose proof (keeps_reset_custom roll (Some "long") c1) as K2. rewrite Hsw in K2.
  pose proof (same_sheet_setup _ _ K2) as S2.
  pose proof (keeps_same_setup_reset_hp c2) as S3. rewrite Hrh in S3.
  simpl in *.
  pose proof (same_setup_trans _ _ _ S0 S1) as S01.
  pose proof (same_setup_trans _ _ _ S01 S2) as S02.
  pose proof (same_setup_trans _ _ _ S02 S3) as S03.
  destruct S02 as (Hsb2 & Hmx2 & _ & _).
  destruct S03 as (Hsb3 & Hmx3 & Ho3 & _).
  destruct (reset_hp_inv c2 c3 Hrh) as (Hhp3 & Hthp3 & _ & Hss3 & Hds3 & _).
  rewrite Hmx2 in Hhp3, Hds3.
  assert (Hfull : forall c5,
            is_Some (spellbook c5) ->
            spellbook c5 = spellbook c ->
            (forall level, 1 <= level <= 9 -> slots_left level c5 = slots_max level c5) ->
            forall level, 1 <= level <= 9 ->
              exists mx, slots_max level c = Some mx /\
                         get_remaining_slots level c5 = (inr mx, c5)).
  { intros c5 [sb5 Hsome5] Hsb5 Hall level Hl. specialize (Hall level Hl).
    assert (Hmax : slots_max level c5 = slots_max level c)
      by (unfold slots_max; now rewrite Hsb5).
    destruct (slots_left level c5) as [v|] eqn:Hleft.
    - exists v. split; [congruence|]. now apply get_remaining_slots_left.
    - exfalso. unfold slots_max in Hall. rewrite Hsome5 in Hall. discriminate. }
  destruct (truthy (default (PyBool false) (options c3 !! "srslots"))) eqn:Hsr3; simpl in H.
  - unfold ret in H. injection H as <- <-.
    split; [exact Hhp3|]. split; [exact Hthp3|]. split; [exact Hmx3|]. split; [exact Hds3|].
    split; [|apply in_app_iff; right; now left].
    assert (Hon0 : srslots_enabled c0 = true).
    { unfold srslots_enabled. destruct S0 as (_ & _ & Ho0 & _).
      destruct S01 as (_ & _ & Ho01 & _). rewrite Ho0. rewrite <- Ho3. exact Hsr3. }
    destruct (short_rest_fills_slots c0 l_sr c1 Hsr Hon0) as (Hsome1 & Hfill1).
    destruct S01 as (Hsb01 & _).
    apply Hfull; [rewrite Hsb3, <- Hsb01; exact Hsome1 | exact Hsb3 |].
    intros level Hl. specialize (Hfill1 level Hl).
    unfold slots_left, slots_max in *.
    rewrite Hss3, (ss_spellslots _ _ K2).
    rewrite Hsb3, <- Hsb01. exact Hfill1.
  - apply bind_inr_inv in H. destruct H as ([] & c5 & Hrs & H).
    unfold ret in H. injection H as <- <-.
    destruct (reset_spellslots_post c3 c5 Hrs)
      as (Hsome5 & Hsb5 & Hfill5 & (B1 & B2 & B3 & B4) & _).
    split; [congruence|]. split; [congruence|]. split; [congruence|].
    split; [intros Hpos; rewrite B3; now apply Hds3|].
    split; [|apply in_app_iff; left; apply in_app_iff; right; now left].
    apply Hfull; [now rewrite Hsb5 | congruence | exact Hfill5].
Qed.

End Rests.

Section ResetAll.

Variable roll : string -> Z.

Lemma long_rest_counts c l c' :
  long_rest roll c = (inr l, c') ->
  options c' = options c /\
  map fst (custom c') = map fst (custom c) /\
  slot_resets c' = (slot_resets c + 1)%nat.
Proof.
  unfold long_rest. intros H.
  apply bind_inr_inv in H. destruct H as (l_hp & c0 & Hhp & H).
  apply bind_inr_inv in H. destruct H as (l_sr & c1 & Hsr & H).
  apply bind_inr_inv in H. destruct H as (l_long & c2 & Hsw & H).
  apply bind_inr_inv in H. destruct H as ([] & c3 & Hrh & H).
  apply bind_inr_inv in H. destruct H as (sr & c4 & Hset & H).
  rewrite get_setting_run in Hset. injection Hset as <- <-.
  pose proof (keeps_rest_inv_on_hp roll c) as (Ho0 & Hn0 & Hs0). rewrite Hhp in Ho0, Hn0, Hs0.
  pose proof (short_rest_inv roll c0 l_sr c1 Hsr) as (Ho1 & Hn1 & l0 & _ & Hbranch).
  pose proof (same_sheet_rest_inv _ _ (keeps_reset_custom roll (Some "long") c1))
    as (Ho2 & Hn2 & Hs2).
  rewrite Hsw in Ho2, Hn2, Hs2.
  pose proof (keeps_rest_inv_reset_hp roll c2) as (Ho3 & Hn3 & Hs3).
  rewrite Hrh in Ho3, Hn3, Hs3. simpl in *.
  assert (Hen : srslots_enabled c0 = truthy (default (PyBool false) (options c3 !! "srslots")))
    by (unfold srslots_enabled; congruence).
  rewrite Hen in Hbranch.
  destruct (truthy (default (PyBool false) (options c3 !! "srslots"))); simpl in H.
  - destruct Hbranch as [_ Hs1]. unfold ret in H. injection H as <- <-.
    repeat split; congruence.
  - destruct Hbranch as [_ Hs1].
    apply bind_inr_inv in H. destruct H as ([] & c5 & Hrs & H).
    unfold ret in H. injection H as <- <-.
    pose proof (reset_spellslots_counts c3) as (Ho4 & Hn4 & Hs4).
    rewrite Hrs in Ho4, Hn4, Hs4. simpl in *.
    repeat split; congruence.
Qed.

(** X17.  When [reset_all_consumables] returns, it has entered [reset_spellslots]
    twice with the setting srslots on (in its own short rest and in the long
    rest) and once with srslots off; its list is the lists of [on_hp],
    [short_rest], [long_rest] and of the sweep of the counters without a
    reset scope, in that order. *)
Theorem reset_all_consumables_slot_resets c labels c' :
  reset_all_consumables roll c = (inr labels, c') ->
  slot_resets c' = (slot_resets c + if srslots_enabled c then 2 else 1)%nat /\
  exists l1 c1 l2 c2 l3 c3 l4,
    on_hp roll c = (inr l1, c1) /\
    short_rest roll c1 = (inr l2, c2) /\
    long_rest roll c2 = (inr l3, c3) /\
    _reset_custom roll None c3 = (inr l4, c') /\
    labels = l1 ++ l2 ++ l3 ++ l4.
Proof.
  unfold reset_all_consumables. intros H.
  apply bind_inr_inv in H. destruct H as (l1 & c1 & Hhp & H).
  apply bind_inr_inv in H. destruct H as (l2 & c2 & Hsr & H).
  apply bind_inr_inv in H. destruct H as (l3 & c3 & Hlr & H).
  apply bind_inr_inv in H. destruct H as (l4 & c4 & Hsw & H).
  unfold ret in H. injection H as <- <-.
  split; [|exists l1, c1, l2, c2, l3, c3, l4; now repeat split].
  pose proof (keeps_rest_inv_on_hp roll c) as (Ho1 & _ & Hs1). rewrite Hhp in Ho1, Hs1.
  pose proof (short_rest_inv roll c1 l2 c2 Hsr) as (_ & _ & l0 & _ & Hbranch).
  pose proof (long_rest_counts c2 l3 c3 Hlr) as (_ & _ & Hs3).
  pose proof (same_sheet_rest_inv _ _ (keeps_reset_custom roll None c3)) as (_ & _ & Hs4).
  rewrite Hsw in Hs4. simpl in *.
  assert (Hen : srslots_enabled c1 = srslots_enabled c)
    by (unfold srslots_enabled; now rewrite Ho1).
  rewrite Hen in Hbranch.
  destruct (srslots_enabled c); destruct Hbranch as [_ Hs2]; lia.
Qed.

End ResetAll.

(** ** Further properties: death saves *)

(** X18.  One more success: the call tells whether there are now 3 successes,
    which is so exactly when there were at least 2; the successes go up by
    one but not above 3, from whatever they were; the failures and everything
    else stay.  The same holds of [add_failed_ds] with the failures.  Neither
    counter ever ends above 3, whatever number is added. *)
Theorem death_saves_step c :
  (add_successful_ds c
   = (inr (bool_decide (2 <= DeathSaves.successes (death_saves c))),
      with_death_saves
        {| DeathSaves.successes := Z.min 3 (DeathSaves.successes (death_saves c) + 1);
           DeathSaves.fails := DeathSaves.fails (death_saves c) |} c)) /\
  (add_failed_ds c
   = (inr (bool_decide (2 <= DeathSaves.fails (death_saves c))),
      with_death_saves
        {| DeathSaves.successes := DeathSaves.successes (death_saves c);
           DeathSaves.fails := Z.min 3 (DeathSaves.fails (death_saves c) + 1) |} c)) /\
  (forall num d,
     DeathSaves.successes (DeathSaves.succeed num d) <= 3 /\
     DeathSaves.fails (DeathSaves.fail num d) <= 3 /\
     (0 <= num -> DeathSaves.successes d <= 3 ->
      DeathSaves.successes d <= DeathSaves.successes (DeathSaves.succeed num d)) /\
     (0 <= num -> DeathSaves.fails d <= 3 ->
      DeathSaves.fails d <= DeathSaves.fails (DeathSaves.fail num d))).
Proof.
  split; [|split].
  - unfold add_successful_ds, bind, modify, gets, DeathSaves.is_stable, DeathSaves.succeed.
    simpl. f_equal. f_equal.
    destruct (Z.min 3 (DeathSaves.successes (death_saves c) + 1) =? 3) eqn:E.
    + apply Z.eqb_eq in E. symmetry. apply bool_decide_eq_true_2. lia.
    + apply Z.eqb_neq in E. symmetry. apply bool_decide_eq_false_2. lia.
  - unfold add_failed_ds, bind, modify, gets, DeathSaves.is_dead, DeathSaves.fail.
    simpl. f_equal. f_equal.
    destruct (Z.min 3 (DeathSaves.fails (death_saves c) + 1) =? 3) eqn:E.
    + apply Z.eqb_eq in E. symmetry. apply bool_decide_eq_true_2. lia.
    + apply Z.eqb_neq in E. symmetry. apply bool_decide_eq_false_2. lia.
  - intros num d. unfold DeathSaves.succeed, DeathSaves.fail. simpl. lia.
Qed.

(** X19.  What [DeathSaves.to_dict] writes, [DeathSaves.from_dict] reads back;
    and [from_dict] refuses a dict that lacks one of the two keys or has a
    key more. *)
Theorem death_saves_dict_round_trip d :
  DeathSavesDict.from_dict (DeathSavesDict.to_dict d) = Some d /\
  DeathSavesDict.from_dict (delete "fails" (DeathSavesDict.to_dict d)) = None /\
  DeathSavesDict.from_dict (delete "successes" (DeathSavesDict.to_dict d)) = None /\
  (forall k v, k <> "successes" -> k <> "fails" ->
     DeathSavesDict.from_dict (<[k := v]> (DeathSavesDict.to_dict d)) = None).
Proof.
  unfold DeathSavesDict.from_dict, DeathSavesDict.to_dict.
  split; [|split; [|split]].
  - rewrite lookup_insert_eq, lookup_insert_ne by discriminate.
    rewrite lookup_insert_eq.
    rewrite map_size_insert_None
      by (rewrite lookup_insert_ne by discriminate; apply lookup_empty).
    rewrite map_size_insert_None by apply lookup_empty.
    rewrite map_size_empty. simpl. now destruct d.
  - rewrite lookup_delete_eq. now destruct (_ !! "successes").
  - now rewrite lookup_delete_eq.
  - intros k v Hs Hf.
    rewrite (lookup_insert_ne _ k "successes") by congruence. rewrite lookup_insert_eq.
    rewrite (lookup_insert_ne _ k "fails") by congruence.
    rewrite (lookup_insert_ne _ "successes" "fails") by discriminate.
    rewrite lookup_insert_eq.
    rewrite map_size_insert_None.
    2:{ rewrite !lookup_insert_ne by congruence. apply lookup_empty. }
    rewrite map_size_insert_None
      by (rewrite lookup_insert_ne by discriminate; apply lookup_empty).
    rewrite map_size_insert_None by apply lookup_empty.
    rewrite map_size_empty. reflexivity.
Qed.

(** ** Further properties: the tokenizer of [evaluate_cvar] *)

Lemma string_app_nil_r (s : string) : s +:+ "" = s.
Proof.
  induction s as [|a s IH]; [reflexivity|].
  cbv [String.append]; fold String.append. f_equal. exact IH.
Qed.

Lemma string_app_assoc (a b c : string) : (a +:+ b) +:+ c = a +:+ (b +:+ c).
Proof.
  induction a as [|x a IH]; [reflexivity|].
  cbv [String.append]; fold String.append. f_equal. exact IH.
Qed.

Lemma list_ascii_of_string_app (a b : string) :
  list_ascii_of_string (a +:+ b) = list_ascii_of_string a ++ list_ascii_of_string b.
Proof.
  induction a as [|x a IH]; [reflexivity|].
  cbv [String.append]; fold String.append. simpl. f_equal. exact IH.
Qed.

Lemma concat_empty_cons (x : string) (l : list string) :
  String.concat "" (x :: l) = x +:+ String.concat "" l.
Proof. destruct l; simpl; [now rewrite string_app_nil_r | reflexivity]. Qed.

Lemma has_op_app (a b : string) : has_op (a +:+ b) = has_op a || has_op b.
Proof. unfold has_op. now rewrite list_ascii_of_string_app, existsb_app. Qed.

Lemma re_split_from_concat s : forall piece,
  String.concat "" (re_split_from piece s) = piece +:+ s.
Proof.
  induction s as [|a s IH]; intros piece; simpl.
  - now rewrite string_app_nil_r.
  - destruct (is_op a).
    + rewrite !concat_empty_cons, IH. reflexivity.
    + rewrite IH, string_app_assoc. reflexivity.
Qed.

Lemma re_split_from_length s : forall piece,
  length (re_split_from piece s) = (2 * count_ops s + 1)%nat.
Proof.
  unfold count_ops. induction s as [|a s IH]; intros piece; simpl; [reflexivity|].
  destruct (is_op a); simpl; rewrite IH; lia.
Qed.

Lemma re_split_from_pieces s : forall piece,
  has_op piece = false -> Forall is_piece (re_split_from piece s).
Proof.
  induction s as [|a s IH]; intros piece Hp; simpl.
  - constructor; [now left | constructor].
  - destruct (is_op a) eqn:E.
    + constructor; [now left|]. constructor; [right; eauto|]. now apply IH.
    + apply IH. rewrite has_op_app, Hp. unfold has_op. simpl. now rewrite E.
Qed.

(** X20.  [re.split] on the operators loses nothing and cuts at every operator:
    the pieces put together are the text again; there are two pieces for
    each operator character and one more; and each piece is either one
    operator character or text without any. *)
Theorem re_split_ops_pieces s :
  String.concat "" (re_split_ops s) = s /\
  length (re_split_ops s) = (2 * count_ops s + 1)%nat /\
  Forall is_piece (re_split_ops s).
Proof.
  unfold re_split_ops. split; [apply re_split_from_concat|].
  split; [apply re_split_from_length | now apply re_split_from_pieces].
Qed.

Lemma is_op_not_space a : is_op a = true -> is_py_space a = false.
Proof.
  destruct a as [[] [] [] [] [] [] [] []]; vm_compute; congruence.
Qed.

Lemma drop_while_In p l x : In x (drop_while p l) -> In x l.
Proof.
  induction l as [|a l IH]; simpl; [tauto|].
  destruct (p a); [intros H; right; now apply IH | tauto].
Qed.

Lemma has_op_strip_by p s : has_op s = false -> has_op (strip_by p s) = false.
Proof.
  unfold has_op, strip_by. rewrite list_ascii_of_string_of_list_ascii.
  intros H. apply not_true_is_false. intros Hex.
  apply existsb_exists in Hex. destruct Hex as (x & Hin & Hx).
  apply in_rev, drop_while_In, in_rev, drop_while_In in Hin.
  assert (Hex : existsb is_op (list_ascii_of_string s) = true)
    by (apply existsb_exists; eauto).
  congruence.
Qed.

Lemma piece_key p :
  is_piece p -> has_op (py_strip p) = false \/ String.length (py_strip p) = 1%nat.
Proof.
  intros [Hp|(a & Ha & ->)].
  - left. now apply has_op_strip_by.
  - right. unfold py_strip, strip_by. simpl.
    rewrite (is_op_not_space a Ha). simpl. now rewrite (is_op_not_space a Ha).
Qed.

Lemma fold_left_ext_in {A B : Type} (f g : A -> B -> A) (l : list B) : forall a,
  (forall x, In x l -> forall acc, f acc x = g acc x) ->
  fold_left f l a = fold_left g l a.
Proof.
  induction l as [|x l IH]; intros a H; simpl; [reflexivity|].
  rewrite (H x (or_introl eq_refl)). apply IH. intros y Hy. apply H. now right.
Qed.

Lemma re_split_ops_is_piece s p : In p (re_split_ops s) -> is_piece p.
Proof.
  intros Hin. pose proof (re_split_from_pieces s "" eq_refl) as Hall.
  rewrite Forall_forall in Hall. now apply Hall, list_elem_of_In.
Qed.

Lemma substitute_ext tbl tbl' s :
  (forall k, has_op k = false \/ String.length k = 1%nat -> tbl k = tbl' k) ->
  substitute tbl s = substitute tbl' s.
Proof.
  intros Hagree. unfold substitute. apply fold_left_ext_in.
  intros p Hin acc. simpl. rewrite Hagree; [reflexivity|].
  apply piece_key. now apply (re_split_ops_is_piece s).
Qed.

(** X21.  A cvar whose name has an operator character and is longer than that one
    character is never substituted: storing any value under such a name
    leaves the result of [evaluate_cvar] on every text as it was. *)
Theorem evaluate_cvar_ignores_operator_names (roll : string -> Z) name val varstr c :
  has_op name = true ->
  String.length name <> 1%nat ->
  fst (evaluate_cvar roll varstr (with_cvars (<[name := val]> (cvars c)) c))
  = fst (evaluate_cvar roll varstr c).
Proof.
  intros Hop Hlen. rewrite !evaluate_cvar_run.
  assert (Hres : resolve roll (with_cvars (<[name := val]> (cvars c)) c) varstr
                 = resolve roll c varstr).
  { unfold resolve. simpl. destruct (spellbook c) as [sb|]; [|reflexivity].
    unfold resolved_text. simpl. f_equal. f_equal. f_equal.
    apply substitute_ext. intros k Hk. apply lookup_insert_ne. intros ->.
    destruct Hk as [Hk|Hk]; congruence. }
  rewrite Hres. now destruct (resolve roll c varstr).
Qed.

(** ** Further properties: choosing a counter by name *)

Lemma is_prefix_refl p : is_prefix p p = true.
Proof.
  induction p as [|a p IH]; simpl; [reflexivity|].
  now rewrite Ascii.eqb_refl, IH.
Qed.

Lemma str_in_refl s : str_in s s = true.
Proof.
  unfold str_in. destruct (list_ascii_of_string s) as [|a l]; [reflexivity|].
  unfold is_infix; fold is_infix. now rewrite is_prefix_refl.
Qed.

Lemma filter_nil_iff {A : Type} (f : A -> bool) (l : list A) :
  List.filter f l = [] <-> forall x, In x l -> f x = false.
Proof.
  split.
  - intros H x Hin. destruct (f x) eqn:E; [|reflexivity].
    assert (Hx : In x (List.filter f l)) by (apply filter_In; auto).
    rewrite H in Hx. destruct Hx.
  - intros H. destruct (List.filter f l) as [|x r] eqn:E; [reflexivity|].
    assert (Hx : In x (List.filter f l)) by (rewrite E; now left).
    apply filter_In in Hx. destruct Hx as [Hin Hf]. rewrite (H x Hin) in Hf.
    discriminate.
Qed.

(** X22.  [select_consumable], up to the selection it awaits, never changes the
    character; it raises ConsumableNotFound exactly when no counter name
    contains the query up to case; otherwise the candidates are not empty,
    each is a counter of the character whose name contains the query up to
    case, and when some counter name equals the query up to case, every
    candidate does. *)
Theorem select_consumable_candidates (lower : string -> string) name c :
  snd (select_consumable lower name c) = c /\
  (fst (select_consumable lower name c) = inl ConsumableNotFound <->
   forall item, In item (custom c) -> str_in (lower name) (lower (fst item)) = false) /\
  (forall e, fst (select_consumable lower name c) = inl e -> e = ConsumableNotFound) /\
  (forall l, fst (select_consumable lower name c) = inr l ->
     l <> [] /\
     (forall item, In item l ->
        In item (custom c) /\ str_in (lower name) (lower (fst item)) = true) /\
     ((exists item, In item (custom c) /\ lower (fst item) = lower name) ->
      forall item, In item l -> lower (fst item) = lower name)).
Proof.
  unfold select_consumable, bind, gets, raise, ret. simpl.
  set (exact := List.filter
                  (fun item => String.eqb (lower (fst item)) (lower name)) (custom c)).
  set (part := List.filter
                 (fun item => str_in (lower name) (lower (fst item))) (custom c)).
  assert (Hexact : forall item, In item exact ->
            In item (custom c) /\ lower (fst item) = lower name).
  { intros item Hin. apply filter_In in Hin. destruct Hin as [Hin He].
    split; [exact Hin | now apply String.eqb_eq]. }
  assert (Hpart : forall item, In item part ->
            In item (custom c) /\ str_in (lower name) (lower (fst item)) = true).
  { intros item Hin. now apply filter_In in Hin. }
  destruct exact as [|x xs] eqn:Ex.
  - destruct part as [|y ys] eqn:Ep; simpl.
    + split; [reflexivity|]. split.
      * split; [intros _|reflexivity]. now apply filter_nil_iff.
      * split; [intros e He; congruence | intros l Hl; discriminate].
    + split; [reflexivity|]. split.
      * split; [discriminate|]. intros Hnone.
        destruct (Hpart y (or_introl eq_refl)) as [Hin Hy].
        rewrite (Hnone y Hin) in Hy. discriminate.
      * split; [intros e He; discriminate|].
        intros l Hl. injection Hl as <-. split; [discriminate|].
        split; [exact Hpart|].
        intros (item & Hin & Heq). exfalso.
        assert (Hx : In item (List.filter
                   (fun item => String.eqb (lower (fst item)) (lower name)) (custom c))).
        { apply filter_In. split; [exact Hin | now apply String.eqb_eq]. }
        fold exact in Hx. rewrite Ex in Hx. destruct Hx.
  - simpl. split; [reflexivity|]. split.
    + split; [discriminate|]. intros Hnone.
      destruct (Hexact x (or_introl eq_refl)) as [Hin Hx].
      specialize (Hnone x Hin). rewrite Hx, str_in_refl in Hnone. discriminate.
    + split; [intros e He; discriminate|].
      intros l Hl. injection Hl as <-. split; [discriminate|]. split.
      * intros item Hin. destruct (Hexact item Hin) as [Hc He].
        split; [exact Hc|]. rewrite He. apply str_in_refl.
      * intros _ item Hin. now apply Hexact.
Qed.

(** X23.  [evaluate_cvar] can be repeated: the entry it writes into the stat
    variables does not change what a later evaluation of any text yields,
    and a second evaluation leaves the character as the first one left it.
    On a character without a spellbook it raises OutdatedSheet and changes
    nothing; on every other character it returns. *)
Theorem evaluate_cvar_repeatable (roll : string -> Z) varstr varstr' c :
  let c1 := snd (evaluate_cvar roll varstr' c) in
  fst (evaluate_cvar roll varstr c1) = fst (evaluate_cvar roll varstr c) /\
  snd (evaluate_cvar roll varstr c1) = c1 /\
  (spellbook c = None -> evaluate_cvar roll varstr c = (inl OutdatedSheet, c)) /\
  (is_Some (spellbook c) -> exists v, fst (evaluate_cvar roll varstr c) = inr v).
Proof.
  intros c1. subst c1. rewrite !evaluate_cvar_run.
  destruct (spellbook c) as [sb|] eqn:Hsb.
  - assert (Hsome : forall t, exists v, resolve roll c t = Some v)
      by (intros t; unfold resolve; rewrite Hsb; eauto).
    destruct (Hsome varstr') as [v' Hv']. destruct (Hsome varstr) as [v Hv].
    rewrite Hv'. simpl. rewrite resolve_with_spell_var, Hv. simpl.
    split; [reflexivity|]. split; [apply with_spell_var_idem|].
    split; [discriminate | eauto].
  - assert (Hnone : forall t, resolve roll c t = None)
      by (intros t; unfold resolve; now rewrite Hsb).
    rewrite (Hnone varstr'). simpl. rewrite (Hnone varstr). simpl.
    split; [reflexivity|]. split; [reflexivity|].
    split; [reflexivity | intros [x Hx]; discriminate].
Qed.

(** ** Further properties: hit point changes and spell levels *)

(** X24.  [modify_hp] always returns.  It never touches the death saves, the
    counters, the spell slots or the maximum hit points: unlike [set_hp] it
    does not run [on_hp], so healing a character from 0 hit points this way
    keeps its death saves.  Damage that is not told to ignore the temporary
    hit points lowers the sum of hit points and temporary hit points by
    exactly the damage; healing, and damage that ignores the temporary hit
    points, adds the value to the hit points and leaves the temporary hit
    points alone.  With a live sheet one hit point sync is logged.  The
    hit points are not kept at or above 0. *)
Theorem modify_hp_outcome value ignore_temp c :
  exists c',
    modify_hp value ignore_temp c = (inr tt, c') /\
    death_saves c' = death_saves c /\
    custom c' = custom c /\
    spellslots c' = spellslots c /\
    max_hp c' = max_hp c /\
    events c' = (if live_integration c then events c ++ [sync_hp] else events c) /\
    (value < 0 -> ignore_temp = false ->
     hp c' + temp_hp c' = hp c + temp_hp c + value /\
     (0 <= temp_hp c -> hp c' <= hp c /\ temp_hp c' <= temp_hp c)) /\
    (0 <= value \/ ignore_temp = true ->
     hp c' = hp c + value /\ temp_hp c' = temp_hp c).
Proof.
  unfold modify_hp, bind, gets, set_temp_hp, modify, ret.
  destruct (value <? 0) eqn:Hv; [apply Z.ltb_lt in Hv | apply Z.ltb_ge in Hv];
    destruct ignore_temp; simpl;
    destruct (live_integration c) eqn:Hlive; simpl;
    eexists; (split; [reflexivity|]); simpl;
    (split; [reflexivity|]); (split; [reflexivity|]); (split; [reflexivity|]);
    (split; [reflexivity|]); (split; [reflexivity|]);
    (split; [intros Hneg Hig; try discriminate; try lia
            |intros [Hpos|Hig]; try discriminate; try lia]).
Qed.

(** X25.  The spell level 0 (cantrips) can be used and looked up but not set:
    [get_remaining_slots 0] is always 1 and [use_slot 0] always returns and
    changes nothing, even on a character with no spellbook and no ledger,
    while [set_remaining_slots 0] raises InvalidSpellLevel.  A level below 0
    or above 9 raises InvalidSpellLevel in all three and changes nothing. *)
Theorem slot_level_checks c :
  get_remaining_slots 0 c = (inr 1, c) /\
  use_slot 0 c = (inr tt, c) /\
  (forall value sync, set_remaining_slots 0 value sync c = (inl InvalidSpellLevel, c)) /\
  (forall level, ~ 0 <= level <= 9 ->
     get_remaining_slots level c = (inl InvalidSpellLevel, c) /\
     use_slot level c = (inl InvalidSpellLevel, c) /\
     forall value sync, set_remaining_slots level value sync c = (inl InvalidSpellLevel, c)).
Proof.
  split; [reflexivity|]. split; [reflexivity|]. split; [reflexivity|].
  intros level Hl.
  assert (H0 : (0 <=? level) && (level <? 10) = false).
  { apply andb_false_iff.
    destruct (Z_lt_le_dec level 0); [left; apply Z.leb_gt; lia | right; apply Z.ltb_ge; lia]. }
  assert (H1 : (0 <? level) && (level <? 10) = false).
  { apply andb_false_iff.
    destruct (Z_lt_le_dec level 0); [left; apply Z.ltb_ge; lia | right; apply Z.ltb_ge; lia]. }
  unfold get_remaining_slots, use_slot, set_remaining_slots. rewrite H0, H1. simpl.
  repeat split.
Qed.

(** ** The further properties at sample characters *)

Lemma sample_ledger_complete : ledger_complete sample.
Proof.
  intros level Hl.
  assert (Hcases : level = 1 \/ level = 2 \/ level = 3 \/ level = 4 \/ level = 5 \/
                   level = 6 \/ level = 7 \/ level = 8 \/ level = 9) by lia.
  destruct Hcases as [->|[->|[->|[->|[->|[->|[->|[->| ->]]]]]]]];
    vm_compute; eauto.
Defined.

Lemma set_remaining_slots_stores_witness :
  slots_max 1 sample = Some 2 /\
  exists c',
    set_remaining_slots 1 1 true sample = (inr tt, c') /\
    get_remaining_slots 1 c' = (inr 1, c') /\
    slots_left 2 c' = Some 0.
Proof.
  split; [vm_compute; reflexivity|].
  destruct (set_remaining_slots_stores 1 1 true sample 2)
    as (c' & Hrun & Hget & Hother & _);
    [lia | vm_compute; reflexivity | lia | vm_compute; eauto |].
  exists c'. split; [exact Hrun|]. split; [exact Hget|].
  rewrite Hother by lia. vm_compute. reflexivity.
Defined.


Lemma reset_spellslots_outcome_witness :
  exists c',
    reset_spellslots sample = (inr tt, c') /\
    get_remaining_slots 1 c' = (inr 2, c') /\
    get_remaining_slots 9 c' = (inr 0, c').
Proof.
  destruct (reset_spellslots_outcome sample
              {| sb_spellslots := {[ "1" := 2 ]}; sb_attackBonus := 5 |}
              eq_refl sample_ledger_complete) as [Hok _].
  destruct Hok as (c' & Hrun & Hget & _).
  { intros level Hl.
    assert (Hcases : level = 1 \/ level = 2 \/ level = 3 \/ level = 4 \/ level = 5 \/
                     level = 6 \/ level = 7 \/ level = 8 \/ level = 9) by lia.
    destruct Hcases as [->|[->|[->|[->|[->|[->|[->|[->| ->]]]]]]]];
      vm_compute; discriminate. }
  exists c'. split; [exact Hrun|].
  split; [apply (Hget 1); lia | apply (Hget 9); lia].
Defined.

Lemma delete_consumable_outcome_witness :
  delete_consumable "Gold" ki_sheet = (inl ConsumableNotFound, ki_sheet) /\
  exists c',
    delete_consumable "Ki" ki_sheet = (inr tt, c') /\
    get_consumable "Ki" c' = (inl ConsumableNotFound, c') /\
    custom c' = [].
Proof.
  assert (Hnd : NoDup (map fst (custom ki_sheet))).
  { simpl. constructor; [intros H; inversion H | constructor]. }
  destruct (delete_consumable_outcome "Gold" ki_sheet Hnd) as [Habsent _].
  destruct (delete_consumable_outcome "Ki" ki_sheet Hnd) as [_ Hpresent].
  split; [apply Habsent; reflexivity|].
  destruct (Hpresent (bare_counter 0) eq_refl) as (c' & Hrun & Hget & _ & Hcustom & _).
  exists c'. split; [exact Hrun|]. split; [exact Hget|].
  rewrite Hcustom. reflexivity.
Defined.

Lemma absent_counter_not_found_witness :
  dict_get "Gold" (custom ki_sheet) = None /\
  set_consumable roll_literal "Gold" 5 false ki_sheet = (inl ConsumableNotFound, ki_sheet) /\
  reset_consumable roll_literal "Gold" ki_sheet = (inl ConsumableNotFound, ki_sheet) /\
  set_consumable roll_literal "Gold" 5 false (without_custom sample)
  = (inl (KeyError "custom"), without_custom sample) /\
  get_consumable "Gold" (without_custom sample)
  = (inl ConsumableNotFound, without_custom sample).
Proof.
  assert (Habsent : dict_get "Gold" (custom ki_sheet) = None) by reflexivity.
  split; [exact Habsent|].
  destruct (absent_counter_not_found roll_literal "Gold" ki_sheet Habsent)
    as (Hset & _ & _ & _ & Hreset & _).
  split; [apply Hset; simpl; eauto|]. split; [exact Hreset|].
  destruct (absent_counter_not_found roll_literal "Gold" (without_custom sample) eq_refl)
    as (_ & Hkey & Hget & _).
  split; [apply Hkey; reflexivity | exact Hget].
Defined.

Lemma reset_consumable_sets_max_witness :
  let c := sheet_with "Rage" (scoped_counter 1 None) in
  exists c',
    reset_consumable roll_literal "Rage" c = (inr tt, c') /\
    get_consumable_value "Rage" c' = (inr 3, c').
Proof.
  intros c.
  destruct (reset_consumable_sets_max roll_literal "Rage" c (scoped_counter 1 None) "3" 3)
    as (c' & Hrun & Hval & _);
    [reflexivity | discriminate | reflexivity | vm_compute; reflexivity | reflexivity |].
  exists c'. split; [exact Hrun | exact Hval].
Defined.

Lemma create_consumable_accepts_iff_witness :
  (exists c', create_consumable roll_literal "Rage" slots_kwargs sample = (inr tt, c')) /\
  (exists msg c',
     create_consumable roll_literal "Rage" hp_kwargs sample
     = (inl (InvalidArgument msg), c') /\
     custom c' = custom sample) /\
  exists c',
    create_consumable roll_literal "Rage" slots_kwargs (without_custom sample)
    = (inl (KeyError "custom"), c').
Proof.
  assert (Hsb : is_Some (spellbook sample)) by (simpl; eauto).
  assert (Hvalid : forall c, creation_valid roll_literal c "Rage" slots_kwargs).
  { intros c. split; [simpl; tauto|]. split; [reflexivity|].
    split; [intros mx mn maxV minV _ Hmn; discriminate|].
    split; [intros _; simpl; eauto | intros H; discriminate]. }
  split; [|split].
  - apply (create_consumable_accepts_iff roll_literal "Rage" slots_kwargs sample Hsb);
      [simpl; eauto | apply Hvalid].
  - apply (create_consumable_accepts_iff roll_literal "Rage" hp_kwargs sample Hsb).
    intros (Hreset & _). simpl in Hreset.
    destruct Hreset as [H|[H|[H|[H|[]]]]]; discriminate.
  - destruct (create_consumable_accepts_iff roll_literal "Rage" slots_kwargs
                (without_custom sample) Hsb) as (_ & _ & Hkey).
    destruct (Hkey eq_refl (Hvalid _)) as (c' & Hrun & _). eauto.
Defined.

Lemma create_consumable_stores_witness :
  let c' := snd (create_consumable roll_literal "Rage" slots_kwargs sample) in
  get_consumable "Rage" c' = (inr (created_counter slots_kwargs 3), c') /\
  map fst (custom c') = ["Rage"].
Proof.
  intros c'.
  destruct (create_consumable_stores roll_literal "Rage" slots_kwargs sample c')
    as (v & Hv & Hget & _ & _ & _ & _ & _ & Hnames & _);
    [vm_compute; reflexivity|].
  assert (Hv3 : v = 3) by (vm_compute in Hv; congruence).
  subst v. split; [exact Hget | exact Hnames].
Defined.

Lemma create_then_delete_witness :
  let c' := snd (create_consumable roll_literal "Rage" slots_kwargs ki_sheet) in
  exists c'',
    delete_consumable "Rage" c' = (inr tt, c'') /\
    custom c'' = [("Ki", bare_counter 0)].
Proof.
  intros c'.
  apply (create_then_delete roll_literal "Rage" slots_kwargs ki_sheet c');
    [reflexivity | vm_compute; reflexivity].
Defined.

Lemma reset_custom_leaves_other_scopes_witness :
  let c := sheet_with "Rage" (scoped_counter 1 (Some "short")) in
  dict_get "Rage" (custom (snd (_reset_custom roll_literal (Some "long") c)))
  = Some (scoped_counter 1 (Some "short")).
Proof.
  intros c.
  apply (reset_custom_leaves_other_scopes roll_literal (Some "long") c "Rage");
    [|reflexivity | discriminate].
  simpl. constructor; [intros H; inversion H | constructor].
Defined.

Lemma reset_custom_resets_scope_witness :
  let c := sheet_with "Rage" (scoped_counter 1 (Some "long")) in
  exists c',
    _reset_custom roll_literal (Some "long") c = (inr ["Rage"], c') /\
    get_consumable "Rage" c' = (inr (scoped_counter 3 (Some "long")), c').
Proof.
  intros c.
  destruct (reset_custom_resets_scope roll_literal (Some "long") c)
    as (c' & Hrun & Hin & _).
  - simpl; eauto.
  - simpl. constructor; [intros H; inversion H | constructor].
  - intros name cnt [Heq|[]] _. injection Heq as <- <-.
    split; [discriminate|]. split; [simpl; eauto | reflexivity].
  - exists c'. split; [exact Hrun|].
    destruct (Hin "Rage" (scoped_counter 1 (Some "long")) (or_introl eq_refl) eq_refl)
      as (mx & top & Hmx & Htop & Hget).
    injection Hmx as <-. vm_compute in Htop. injection Htop as <-. exact Hget.
Defined.

Lemma long_rest_outcome_witness :
  let c := with_hp 4 (with_temp_hp 2 sample) in
  let c' := snd (long_rest roll_literal c) in
  long_rest roll_literal c = (inr ["Death Saves"; "Death Saves"; "HP"; "Spell Slots"], c') /\
  hp c' = 10 /\ temp_hp c' = 0 /\
  get_remaining_slots 1 c' = (inr 2, c').
Proof.
  intros c c'.
  assert (Hrun : long_rest roll_literal c
                 = (inr ["Death Saves"; "Death Saves"; "HP"; "Spell Slots"], c'))
    by (vm_compute; reflexivity).
  split; [exact Hrun|].
  destruct (long_rest_outcome roll_literal c _ c' Hrun) as (Hhp & Hthp & _ & _ & Hslots & _).
  split; [exact Hhp|]. split; [exact Hthp|].
  destruct (Hslots 1 ltac:(lia)) as (mx & Hmx & Hget).
  vm_compute in Hmx. injection Hmx as <-. exact Hget.
Defined.

Lemma reset_all_consumables_slot_resets_witness :
  let c := with_srslots sample in
  let c' := snd (reset_all_consumables roll_literal c) in
  reset_all_consumables roll_literal c
  = (inr ["Death Saves"; "Death Saves"; "Spell Slots"; "Death Saves";
          "Death Saves"; "Spell Slots"; "HP"], c') /\
  slot_resets c' = 2%nat.
Proof.
  intros c c'.
  assert (Hrun : reset_all_consumables roll_literal c
                 = (inr ["Death Saves"; "Death Saves"; "Spell Slots"; "Death Saves";
                         "Death Saves"; "Spell Slots"; "HP"], c'))
    by (vm_compute; reflexivity).
  split; [exact Hrun|].
  destruct (reset_all_consumables_slot_resets roll_literal c _ c' Hrun) as [Hcount _].
  rewrite Hcount. reflexivity.
Defined.

Lemma evaluate_cvar_ignores_operator_names_witness :
  let c := with_cvars {[ "a" := "7" ]} sample in
  fst (evaluate_cvar roll_literal "a" c) = inr 7 /\
  fst (evaluate_cvar roll_literal "a"
         (with_cvars (<["a+b" := "100"]> (cvars c)) c)) = inr 7.
Proof.
  intros c.
  assert (Hbase : fst (evaluate_cvar roll_literal "a" c) = inr 7)
    by (vm_compute; reflexivity).
  split; [exact Hbase|].
  rewrite (evaluate_cvar_ignores_operator_names roll_literal "a+b" "100" "a" c);
    [exact Hbase | reflexivity | simpl; lia].
Defined.
